(** * autoplate: a shallow embedding of the two programs of the repository

    The repository holds two [package main] programs:
    - the map-based program ([main], [processLocalFile], [processZipFile],
      [streamXML], [downloadAndProcess], [displayResults]), embedded at the
      top level of this file;
    - [autoplate.go], the memdb-based program ([main], [processZipStream],
      [displayResults]), embedded in [Module Autoplate].
    Both share [ProgressReader].

    Go strings are byte strings: they are Rocq [string]s, one [ascii] per
    byte.  Go's [int] and [int64] are [Z]; where a computation can leave the
    64-bit range the wrap-around is written out with [wrap64]. *)

From Stdlib Require Import ZArith Lia Ascii String.
From stdpp Require Import base numbers list sorting gmap strings.

Local Open Scope Z_scope.

(** ** The Go runtime and library functions the programs call *)

Module Go.

(** [error] values.  [io.EOF] is a sentinel; [fmt.Errorf] without [%w] makes
    a fresh error, [fmt.Errorf("...: %w", err)] wraps [err]. *)
Inductive error : Type :=
  | EOF
  | Errorf (msg : string)
  | Wrapf (msg : string) (err : error).

Definition is_EOF (err : error) : bool :=
  match err with EOF => true | _ => false end.

(** Two's complement wrap-around of [int64] arithmetic. *)
Definition min_int64 : Z := - 2 ^ 63.
Definition max_int64 : Z := 2 ^ 63 - 1.
Definition wrap64 (z : Z) : Z := (z + 2 ^ 63) mod 2 ^ 64 - 2 ^ 63.

Definition add64 (a b : Z) : Z := wrap64 (a + b).
Definition mul64 (a b : Z) : Z := wrap64 (a * b).
(** [/] on integers truncates toward zero; the divisor is never 0 nor -1
    where the programs divide. *)
Definition div64 (a b : Z) : Z := wrap64 (Z.quot a b).

(** [len(s)] *)
Definition len (s : string) : Z := Z.of_nat (String.length s).

(** [s[lo:]]: panics ([None]) when [lo] is outside [0 .. len(s)]. *)
Fixpoint drop_bytes (n : nat) (s : string) : string :=
  match n, s with
  | O, _ => s
  | S n', String _ s' => drop_bytes n' s'
  | S _, EmptyString => EmptyString
  end.

Definition slice_from (s : string) (lo : Z) : option string :=
  if (lo <? 0) || (len s <? lo) then None
  else Some (drop_bytes (Z.to_nat lo) s).

(** [strings.HasSuffix]:
    [len(s) >= len(suffix) && s[len(s)-len(suffix):] == suffix]. *)
Definition HasSuffix (s suffix : string) : bool :=
  (len suffix <=? len s) &&
  match slice_from s (len s - len suffix) with
  | Some t => String.eqb t suffix
  | None => false
  end.

(** [strings.ToLower], which belongs to the Go library, on the bytes
    'A'..'Z'; other bytes are kept.  This is what the library does on every
    string of ASCII bytes.  The programs test whether the result ends with
    (or is) ".xml" or ".zip".  These are ASCII strings, no character outside
    ASCII has '.', 'x', 'm', 'l', 'z' or 'p' as its lower case, and the one
    that has 'i' takes two bytes where 'i' takes one, so the byte-wise
    function gives these tests the answer of the library's on every string;
    the tests are written with it. *)
Definition lower_byte (c : ascii) : ascii :=
  let n := N_of_ascii c in
  if ((65 <=? n) && (n <=? 90))%N then ascii_of_N (n + 32) else c.

Fixpoint ToLower (s : string) : string :=
  match s with
  | EmptyString => EmptyString
  | String c s' => String (lower_byte c) (ToLower s')
  end.

(** [strings.ToLower] where its result is shown.  On a string that holds a
    byte outside ASCII the library maps every character with its Unicode
    tables, and replaces a byte that is no character; the tables are not in
    the repository, and [unicode_ToLower] stands for the result of the
    library on such a string. *)
Fixpoint is_ascii (s : string) : bool :=
  match s with
  | EmptyString => true
  | String c s' => (N_of_ascii c <? 128)%N && is_ascii s'
  end.

Definition strings_ToLower (unicode_ToLower : string → string) (s : string)
  : string :=
  if is_ascii s then ToLower s else unicode_ToLower s.

(** [s < t] on strings: byte-wise lexicographic order. *)
Definition less (s t : string) : bool := String.ltb s t.

End Go.

Import Go.

(** ** Console and log output

    What the programs print is kept as a list of structured lines, oldest
    first; the numbers and strings are the arguments of the format. *)
Inductive output : Type :=
  | Print_Downloading (percentDone current total : Z)
  | Print_Processing (name : string) (uncompressedSize : Z)
  | Print_Processed (processedCount : Z)
  | Print_Success (processedCount : Z)
  | Print_Header (total : Z)
  | Print_Row (i : Z) (plate makeModelName : string)
  | Print_Plate (i : Z) (plate : string)
  | Print_More (n : Z)
  | Log_UsingLocalFile (path : string)
  | Log_NoFileSpecified
  | Log_DecodeWarning (err : error)
  | Log_OpenWarning (name : string) (err : error)
  | Log_ProcessWarning (name : string) (err : error)
  | Log_ParseWarning (name : string) (err : error)
  | Log_InsertWarning (err : error)
  | Log_Fatal (err : error).

Definition is_warning (o : output) : bool :=
  match o with
  | Log_DecodeWarning _ | Log_OpenWarning _ _ | Log_ProcessWarning _ _
  | Log_ParseWarning _ _ | Log_InsertWarning _ => true
  | _ => false
  end.

Definition warnings (out : list output) : list output := filter is_warning out.

(** ** encoding/xml: tokens and the decoder

    The decoder belongs to the Go library.  A scan is determined by what its
    calls return, so a decoder over one input is given by that sequence:
    [tokens] lists, for each call of [Token] that returns a token, the token
    and the result [DecodeElement] gives when it is called on it (the value
    decoded into the target, or an error); [stop] is the error of the call
    of [Token] that follows, [io.EOF] at the end of a well-formed input.
    The type holds every such sequence, also sequences that the library
    does not give; [sticky] below says what the library gives after a
    decoding that fails. *)
Module xml.

Inductive Token : Type :=
  | StartElement (Space Local : string)
  | EndElement (Space Local : string)
  | CharData (data : string)
  | Comment (data : string)
  | ProcInst (target : string)
  | Directive (data : string).

Record Decoder (A : Type) : Type := NewDecoder {
  tokens : list (Token * (A + error));
  stop : error
}.
Arguments NewDecoder {A} _ _.
Arguments tokens {A} _.
Arguments stop {A} _.

End xml.

(** ** XML structure matching the Danish vehicle registration format

    A Go field may carry the name of its struct type; the record types whose
    name is taken by a field are suffixed with [T]. *)
Record ModelT : Type := {
  KoeretoejModelTypeNavn : string
}.

Record KoeretoejBetegnelseStrukturT : Type := {
  KoeretoejMaerkeTypeNavn : string;
  Model : ModelT
}.

Record KoeretoejOplysningGrundStrukturT : Type := {
  KoeretoejBetegnelseStruktur : KoeretoejBetegnelseStrukturT
}.

Record Statistik : Type := {
  RegistreringNummerNummer : string;
  KoeretoejOplysningGrundStruktur : KoeretoejOplysningGrundStrukturT
}.

(** ** strings.Builder *)
Module Builder.
Definition t : Type := string.
Definition Reset (sb : t) : t := "".
Definition WriteString (sb : t) (s : string) : t := sb +:+ s.
Definition String (sb : t) : string := sb.
End Builder.

(** ** archive/zip: one member of an opened archive

    [IsDir] is [FileInfo().IsDir()]; [Open] gives the error of [Open()] or
    the decoder over the member's content. *)
Module zip.
Record File (A : Type) : Type := {
  Name : string;
  IsDir : bool;
  UncompressedSize64 : Z;
  Open : error + xml.Decoder A
}.
Arguments Name {A} _.
Arguments IsDir {A} _.
Arguments UncompressedSize64 {A} _.
Arguments Open {A} _.
End zip.

(** ** ftp: one line of a remote listing.  [Time] is an instant (a number of
    time units since some epoch); [After] is strict. *)
Module ftp.
Inductive EntryType : Type := EntryTypeFile | EntryTypeFolder | EntryTypeLink.

Record Entry : Type := {
  Name : string;
  Size : Z;
  Type_ : EntryType;
  Time : Z
}.

Definition After (t u : Z) : bool := u <? t.

Definition is_file (ty : EntryType) : bool :=
  match ty with EntryTypeFile => true | _ => false end.
End ftp.

(** ** The state the map-based program works on: the map [plates] that
    [main] makes and hands to every function, and the console. *)
Record world : Type := World {
  plates : gmap string string;
  out : list output
}.

Definition Printf (o : output) (w : world) : world :=
  {| plates := plates w; out := out w ++ [o] |}.

(** [plates[key] = value] *)
Definition store (key value : string) (w : world) : world :=
  {| plates := <[key := value]> (plates w); out := out w |}.

(** A call either returns or panics. *)
Inductive outcome (A : Type) : Type :=
  | Return (a : A) (w : world)
  | Panic (w : world).
Arguments Return {A} _ _.
Arguments Panic {A} _.

(** ** ProgressReader wraps an io.Reader and reports progress *)

(** [io.Reader]: [Read r p] is the result of [r.Read(p)] (the count [n], the
    buffer after the call, the error) and the reader after the call. *)
Record ReadResult : Type := {
  n : Z;
  p' : list Byte.byte;
  err : option error
}.

Class Reader (R : Type) : Type :=
  Read : R → list Byte.byte → ReadResult * R.

Record ProgressReader (R : Type) : Type := {
  reader : R;
  total : Z;
  current : Z;
  lastPrint : Z
}.
Arguments reader {R} _.
Arguments total {R} _.
Arguments current {R} _.
Arguments lastPrint {R} _.

(** The part of [Read] after the call of the wrapped reader: [r] is the
    wrapped reader after its call and [n] the count it returned.  The result
    is the wrapper after the call and what was printed. *)
Definition account {R} (pr : ProgressReader R) (r : R) (n : Z)
  : ProgressReader R * list output :=
  let current := add64 (current pr) n in
  if 0 <? total pr then
    let percentDone := div64 (mul64 current 100) (total pr) in
    if lastPrint pr <? percentDone then
      ({| reader := r; total := total pr; current := current;
          lastPrint := percentDone |},
       [Print_Downloading percentDone current (total pr)])
    else
      ({| reader := r; total := total pr; current := current;
          lastPrint := lastPrint pr |}, [])
  else
    ({| reader := r; total := total pr; current := current;
        lastPrint := lastPrint pr |}, []).

Definition ProgressReader_Read {R} `{Reader R} (pr : ProgressReader R)
    (p : list Byte.byte) : ReadResult * ProgressReader R * list output :=
  let '(res, r) := Read (reader pr) p in
  let '(pr, printed) := account pr r (n res) in
  (res, pr, printed).

(** [ProgressReader] is itself an [io.Reader]; its state carries the console. *)
#[export] Instance ProgressReader_Reader {R} `{Reader R}
  : Reader (ProgressReader R * list output) :=
  fun s p =>
    let '(res, pr, printed) := ProgressReader_Read s.1 p in
    (res, (pr, s.2 ++ printed)).

(** The wrapper as [downloadAndProcess] and [main] of autoplate.go make it;
    [size] is [int64(newestZip.Size)]. *)
Definition NewProgressReader {R} (resp : R) (size : Z) : ProgressReader R :=
  {| reader := resp; total := size; current := 0; lastPrint := 0 |}.

(** Successive reads into the buffers [ps]: the results, in order, the
    wrapper after the last one and everything printed. *)
Fixpoint relay {R} `{Reader R} (pr : ProgressReader R) (ps : list (list Byte.byte))
  : list ReadResult * ProgressReader R * list output :=
  match ps with
  | [] => ([], pr, [])
  | p :: ps' =>
    let '(res, pr1, printed) := ProgressReader_Read pr p in
    let '(ress, pr2, printed') := relay pr1 ps' in
    (res :: ress, pr2, printed ++ printed')
  end.

(** The same reads made on the wrapped reader alone. *)
Fixpoint reads {R} `{Reader R} (r : R) (ps : list (list Byte.byte))
  : list ReadResult * R :=
  match ps with
  | [] => ([], r)
  | p :: ps' =>
    let '(res, r1) := Read r p in
    let '(ress, r2) := reads r1 ps' in
    (res :: ress, r2)
  end.

(** ** The map-based program *)

(** One turn of the loop of [streamXML] on a token the decoder returned:
    [s] is [processedCount] and the world before the turn.  [processedCount]
    counts record elements of one input, each of which takes more than one
    byte of a file or archive member whose size is a 64-bit number: the
    count stays below [2^63] and its increment is written without
    wrap-around. *)
Definition scan_token (s : Z * world) (ev : xml.Token * (Statistik + error))
  : Z * world :=
  let '(processedCount, w) := s in
  match ev.1 with
  | xml.StartElement _ Local =>
    if String.eqb Local "Statistik" then
      match ev.2 with
      | inr err =>
        (* log the warning and continue *)
        (processedCount, Printf (Log_DecodeWarning err) w)
      | inl stat =>
        if negb (String.eqb (RegistreringNummerNummer stat) "") then
          (* Build concatenated make and model *)
          let betegnelse :=
            KoeretoejBetegnelseStruktur (KoeretoejOplysningGrundStruktur stat) in
          let sb := Builder.Reset "" in
          let sb := Builder.WriteString sb (KoeretoejMaerkeTypeNavn betegnelse) in
          let sb := Builder.WriteString sb " " in
          let sb := Builder.WriteString sb
                      (KoeretoejModelTypeNavn (Model betegnelse)) in
          let w := store (RegistreringNummerNummer stat) (Builder.String sb) w in
          let processedCount := processedCount + 1 in
          if Z.rem processedCount 10000 =? 0
          then (processedCount, Printf (Print_Processed processedCount) w)
          else (processedCount, w)
        else (processedCount, w)
      end
    else (processedCount, w)
  | _ => (processedCount, w)
  end.

(** [streamXML(reader, plates)]: the count, the error ([None] is [nil]) and
    the world afterwards. *)
Definition streamXML (reader : xml.Decoder Statistik) (w : world)
  : Z * option error * world :=
  let '(processedCount, w) := foldl scan_token (0, w) (xml.tokens reader) in
  if is_EOF (xml.stop reader) then (processedCount, None, w)
  else (processedCount, Some (Wrapf "XML parse error" (xml.stop reader)), w).

(** One turn of the loop of [processZipFile] over [r.File]. *)
Definition zip_member (s : Z * world) (zipFile : zip.File Statistik) : Z * world :=
  let '(processedCount, w) := s in
  if zip.IsDir zipFile
     || negb (HasSuffix (ToLower (zip.Name zipFile)) ".xml")
  then (processedCount, w)
  else
    let w := Printf (Print_Processing (zip.Name zipFile)
                       (zip.UncompressedSize64 zipFile)) w in
    match zip.Open zipFile with
    | inl err =>
      (processedCount, Printf (Log_OpenWarning (zip.Name zipFile) err) w)
    | inr rc =>
      let '(count, err, w) := streamXML rc w in
      match err with
      | Some err =>
        (processedCount, Printf (Log_ProcessWarning (zip.Name zipFile) err) w)
      | None => (processedCount + count, w)
      end
    end.

Section Files.

(** The file system: [os.Open] of a markup file gives the decoder over its
    content, [zip.OpenReader] the members of an archive. *)
Variable os_Open : string → error + xml.Decoder Statistik.
Variable zip_OpenReader : string → error + list (zip.File Statistik).
(** The library's lower case of a string that holds a byte outside ASCII. *)
Variable unicode_ToLower : string → string.

Definition processZipFile (zipPath : string) (w : world) : option error * world :=
  match zip_OpenReader zipPath with
  | inl err => (Some (Wrapf "failed to open zip file" err), w)
  | inr File =>
    let '(processedCount, w) := foldl zip_member (0, w) File in
    (None, Printf (Print_Success processedCount) w)
  end.

Definition processLocalFile (filePath : string) (w : world)
  : outcome (option error) :=
  match slice_from filePath (len filePath - 4) with
  | None => Panic w
  | Some suffix =>
    let ext := strings_ToLower unicode_ToLower suffix in
    (* [switch ext]: the two cases are tested on [ToLower suffix], which has
       the answer of [ext] for them on every suffix *)
    if String.eqb (ToLower suffix) ".xml" then
      match os_Open filePath with
      | inl err => Return (Some (Wrapf "failed to open XML file" err)) w
      | inr file =>
        let '(count, err, w) := streamXML file w in
        match err with
        | Some err => Return (Some err) w
        | None => Return None (Printf (Print_Success count) w)
        end
      end
    else if String.eqb (ToLower suffix) ".zip" then
      let '(err, w) := processZipFile filePath w in Return err w
    else
      Return (Some (Errorf ("unsupported file type: " +:+ ext
                              +:+ " (must be .xml or .zip)"))) w
  end.

End Files.

(** The selection loop of [downloadAndProcess] over the listing: [newestZip]
    after the loop ([None] is [nil]). *)
Definition newer_zip (newestZip : option ftp.Entry) (entry : ftp.Entry)
  : option ftp.Entry :=
  if ftp.is_file (ftp.Type_ entry) && HasSuffix (ftp.Name entry) ".zip" then
    match newestZip with
    | None => Some entry
    | Some newest =>
      if ftp.After (ftp.Time entry) (ftp.Time newest) then Some entry
      else newestZip
    end
  else newestZip.

Definition newestZip (entries : list ftp.Entry) : option ftp.Entry :=
  foldl newer_zip None entries.

(** The loop followed by the test [newestZip == nil]. *)
Definition locate (entries : list ftp.Entry) : error + ftp.Entry :=
  match newestZip entries with
  | None => inl (Errorf "no zip files found in directory")
  | Some entry => inr entry
  end.

(** [a] need not come after [b]: [less(b, a)] is false. *)
Definition not_after {A} (less : A → A → bool) : relation A :=
  λ a b, less b a = false.

#[export] Instance not_after_dec {A} (less : A → A → bool) (a b : A)
  : Decision (not_after less a b) := bool_eq_dec (less b a) false.

(** [sort.Slice(x, less)].  The library's algorithm is not stable; the
    programs sort distinct keys, for which every sorting algorithm gives the
    same list (see [sorted_by_less_unique]), here the one of merge sort. *)
Definition sort_Slice {A} (less : A → A → bool) (x : list A) : list A :=
  merge_sort (not_after less) x.

Record plateEntry : Type := {
  plate : string;
  makeModelName : string
}.

(** The order in which [range] visits a map is not fixed; the slice is
    sorted before anything is printed. *)
Definition displayResults (w : world) : world :=
  (* Convert map to sorted slice for display *)
  let entries :=
    (λ kv, {| plate := kv.1; makeModelName := kv.2 |}) <$> map_to_list (plates w) in
  let entries := sort_Slice (λ a b, less (plate a) (plate b)) entries in
  let w := Printf (Print_Header (Z.of_nat (length entries))) w in
  let displayLimit := 10 in
  let displayLimit :=
    if Z.of_nat (length entries) <? displayLimit then Z.of_nat (length entries)
    else displayLimit in
  let w :=
    foldl (λ w ie, Printf (Print_Row (Z.of_nat ie.1 + 1) (plate ie.2)
                             (makeModelName ie.2)) w)
          w (imap pair (take (Z.to_nat displayLimit) entries)) in
  if displayLimit <? Z.of_nat (length entries)
  then Printf (Print_More (Z.of_nat (length entries) - displayLimit)) w
  else w.

Section Main.

Variable os_Open : string → error + xml.Decoder Statistik.
Variable zip_OpenReader : string → error + list (zip.File Statistik).
Variable unicode_ToLower : string → string.
(** The network branch, with the remote server behind it. *)
Variable downloadAndProcess : world → option error * world.

(** [main] with the value of the flag [-file]: the exit status (0 after a
    return, 1 after [log.Fatalf], 2 after a panic) and the world. *)
Definition main (fileInput : string) : Z * world :=
  let w := {| plates := ∅; out := [] |} in
  if negb (String.eqb fileInput "") then
    let w := Printf (Log_UsingLocalFile fileInput) w in
    match processLocalFile os_Open zip_OpenReader unicode_ToLower fileInput w with
    | Panic w => (2, w)
    | Return (Some err) w =>
      (1, Printf (Log_Fatal (Wrapf "Error processing local file" err)) w)
    | Return None w => (0, displayResults w)
    end
  else
    let w := Printf Log_NoFileSpecified w in
    match downloadAndProcess w with
    | (Some err, w) =>
      (1, Printf (Log_Fatal (Wrapf "Error downloading and processing" err)) w)
    | (None, w) => (0, displayResults w)
    end.

End Main.

(** ** The network branch

    The FTP server and the operating system belong to the environment.  A
    run is determined by what their calls return.  [io.Copy] belongs to the
    Go library: a transfer is given by the buffers it hands to [Read] of the
    progress reader, one after the other, and by its result. *)
Record Environment (R : Type) : Type := {
  ftp_Dial : option error;
  conn_Login : option error;
  conn_ChangeDir : option error;
  conn_List : error + list ftp.Entry;
  conn_Retr : string → error + R; (* the response, an [io.Reader] *)
  os_CreateTemp : error + string; (* [tempFile.Name()] *)
  io_Copy_reads : list (list Byte.byte);
  io_Copy : Z * option error; (* [written, err] *)
  tempFile_Seek : option error
}.
Arguments ftp_Dial {R} _.
Arguments conn_Login {R} _.
Arguments conn_ChangeDir {R} _.
Arguments conn_List {R} _.
Arguments conn_Retr {R} _ _.
Arguments os_CreateTemp {R} _.
Arguments io_Copy_reads {R} _.
Arguments io_Copy {R} _.
Arguments tempFile_Seek {R} _.

(** What a run of the network branch does, oldest first: the lines of the
    console and the calls on the connection, on the response and on the
    temporary file.  [Print_Newest] is the line "Downloading: %s (%s)" with
    the name and the time of the entry, [Print_FileSize] the line
    "File size: %.2f MB" for an entry of [size] bytes and [Print_Downloaded]
    the line "Downloaded %d bytes". *)
Inductive event : Type :=
  | Console (o : output)
  | Print_Newest (name : string) (time : Z)
  | Print_FileSize (size : Z)
  | Print_Downloaded (written : Z)
  | Call_Dial
  | Call_Login
  | Call_ChangeDir
  | Call_List
  | Call_Retr (name : string)
  | Call_CreateTemp
  | Call_Seek
  | Call_Quit
  | Call_resp_Close
  | Call_tempFile_Close
  | Call_Remove (name : string).

Section Network.

Context {R : Type} `{Reader R}.
Variable env : Environment R.
Variable zip_OpenReader : string → error + list (zip.File Statistik).

(** [downloadAndProcess(plates)]: the error, the map afterwards and what
    was done.  [deferred] holds the calls of the [defer] statements met so
    far, the last one first; they are made when the function returns. *)
Definition downloadAndProcess (plates : gmap string string)
  : option error * gmap string string * list event :=
  let trace := [Call_Dial] in
  match ftp_Dial env with
  | Some err => (Some (Wrapf "failed to connect to FTP" err), plates, trace)
  | None =>
    let deferred := [Call_Quit] in
    let trace := trace ++ [Call_Login] in
    match conn_Login env with
    | Some err => (Some (Wrapf "failed to login" err), plates, trace ++ deferred)
    | None =>
      let trace := trace ++ [Call_ChangeDir] in
      match conn_ChangeDir env with
      | Some err =>
        (Some (Wrapf "failed to change directory" err), plates, trace ++ deferred)
      | None =>
        let trace := trace ++ [Call_List] in
        match conn_List env with
        | inl err =>
          (Some (Wrapf "failed to list directory" err), plates, trace ++ deferred)
        | inr entries =>
          match locate entries with
          | inl err => (Some err, plates, trace ++ deferred)
          | inr newestZip =>
            let trace :=
              trace ++ [Print_Newest (ftp.Name newestZip) (ftp.Time newestZip);
                        Print_FileSize (ftp.Size newestZip)] in
            let trace := trace ++ [Call_Retr (ftp.Name newestZip)] in
            match conn_Retr env (ftp.Name newestZip) with
            | inl err =>
              (Some (Wrapf "failed to retrieve file" err), plates,
               trace ++ deferred)
            | inr resp =>
              let deferred := Call_resp_Close :: deferred in
              let trace := trace ++ [Call_CreateTemp] in
              match os_CreateTemp env with
              | inl err =>
                (Some (Wrapf "failed to create temp file" err), plates,
                 trace ++ deferred)
              | inr tempFile =>
                let deferred := Call_Remove tempFile :: deferred in
                let deferred := Call_tempFile_Close :: deferred in
                let progressReader :=
                  NewProgressReader resp (wrap64 (ftp.Size newestZip)) in
                let '(_, _, printed) :=
                  relay progressReader (io_Copy_reads env) in
                let trace := trace ++ (Console <$> printed) in
                match io_Copy env with
                | (_, Some err) =>
                  (Some (Wrapf "failed to stream file" err), plates,
                   trace ++ deferred)
                | (written, None) =>
                  let trace :=
                    trace ++ [Print_Downloaded written; Call_tempFile_Close] in
                  let '(err, World plates console) :=
                    processZipFile zip_OpenReader tempFile
                      {| plates := plates; out := [] |} in
                  (err, plates, trace ++ (Console <$> console) ++ deferred)
                end
              end
            end
          end
        end
      end
    end
  end.

End Network.

(** ** autoplate.go: the memdb-based program *)
Module Autoplate.

(** LicensePlate represents a license plate record *)
Record LicensePlate : Type := {
  Plate : string;
  Timestamp : Z
}.

(** Vehicle represents the XML structure; its field [LicensePlate] has the
    name of the record above and is written [Vehicle_LicensePlate]. *)
Record Vehicle : Type := {
  Vehicle_LicensePlate : string
}.

(** go-memdb, as far as the program uses it: the table "plates" with the
    unique index "id" on [Plate] is a map from [Plate] to the object; a write
    transaction works on its own copy, which [Commit] installs.  [Insert]
    refuses an object whose indexed field is empty. *)
Module memdb.
Definition Insert (table : gmap string LicensePlate) (obj : LicensePlate)
  : option error * gmap string LicensePlate :=
  if String.eqb (Plate obj) "" then
    (Some (Errorf "object missing primary index"), table)
  else (None, <[Plate obj := obj]> table).
End memdb.

(** The state [processZipStream] works on: the table as the write
    transaction sees it, and the console. *)
Record world : Type := World {
  txn : gmap string LicensePlate;
  out : list output
}.

Definition Printf (o : output) (w : world) : world :=
  {| txn := txn w; out := out w ++ [o] |}.

Section Clock.

(** [time.Now()] at the insertion that follows [processedCount] earlier ones. *)
Variable Now : Z → Z.

(** One turn of the token loop of [processZipStream]. *)
Definition scan_token (s : Z * world) (ev : xml.Token * (Vehicle + error))
  : Z * world :=
  let '(processedCount, w) := s in
  match ev.1 with
  | xml.StartElement _ Local =>
    if String.eqb Local "Vehicle" then
      match ev.2 with
      | inr err => (processedCount, Printf (Log_DecodeWarning err) w)
      | inl vehicle =>
        if negb (String.eqb (Vehicle_LicensePlate vehicle) "") then
          let plate := {| Plate := Vehicle_LicensePlate vehicle;
                          Timestamp := Now processedCount |} in
          let '(err, table) := memdb.Insert (txn w) plate in
          let w := {| txn := table; out := out w |} in
          let w := match err with
                   | Some err => Printf (Log_InsertWarning err) w
                   | None => w
                   end in
          let processedCount := processedCount + 1 in
          (* Progress indicator *)
          if Z.rem processedCount 1000 =? 0
          then (processedCount, Printf (Print_Processed processedCount) w)
          else (processedCount, w)
        else (processedCount, w)
      end
    else (processedCount, w)
  | _ => (processedCount, w)
  end.

(** One turn of the loop over [reader.File]. *)
Definition zip_member (s : Z * world) (zipFile : zip.File Vehicle) : Z * world :=
  let '(processedCount, w) := s in
  if zip.IsDir zipFile then (processedCount, w)
  else
    let w := Printf (Print_Processing (zip.Name zipFile)
                       (zip.UncompressedSize64 zipFile)) w in
    (* Open file in zip for streaming *)
    match zip.Open zipFile with
    | inl err =>
      (processedCount, Printf (Log_OpenWarning (zip.Name zipFile) err) w)
    | inr decoder =>
      let '(processedCount, w) :=
        foldl scan_token (processedCount, w) (xml.tokens decoder) in
      if is_EOF (xml.stop decoder) then (processedCount, w)
      else (processedCount,
            Printf (Log_ParseWarning (zip.Name zipFile) (xml.stop decoder)) w)
    end.

(** [processZipStream(file, size, db)]: [zip_NewReader] is the result of
    [zip.NewReader(file, size)], [db] the committed table.  The result is the
    error, the committed table afterwards and the console. *)
Definition processZipStream (zip_NewReader : error + list (zip.File Vehicle))
    (db : gmap string LicensePlate) (console : list output)
  : option error * gmap string LicensePlate * list output :=
  match zip_NewReader with
  | inl err => (Some (Wrapf "failed to create zip reader" err), db, console)
  | inr File =>
    let '(processedCount, w) :=
      foldl zip_member (0, {| txn := db; out := console |}) File in
    let db := txn w in (* txn.Commit() *)
    let w := Printf (Print_Success processedCount) w in
    (None, db, out w)
  end.

End Clock.

(** The selection loop of [main] over the listing. *)
Definition newer_zip (newestZip : option ftp.Entry) (entry : ftp.Entry)
  : option ftp.Entry :=
  if ftp.is_file (ftp.Type_ entry)
     && (4 <? len (ftp.Name entry))
     && match slice_from (ftp.Name entry) (len (ftp.Name entry) - 4) with
        | Some suffix => String.eqb suffix ".zip"
        | None => false (* not reached: the name has more than 4 bytes *)
        end
  then
    match newestZip with
    | None => Some entry
    | Some newest =>
      if ftp.After (ftp.Time entry) (ftp.Time newest) then Some entry
      else newestZip
    end
  else newestZip.

Definition newestZip (entries : list ftp.Entry) : option ftp.Entry :=
  foldl newer_zip None entries.

(** The loop followed by the test [newestZip == nil], after which [main]
    ends the process with [log.Fatal]. *)
Definition locate (entries : list ftp.Entry) : error + ftp.Entry :=
  match newestZip entries with
  | None => inl (Errorf "No zip files found in directory")
  | Some entry => inr entry
  end.

(** The printing loop of [displayResults]: [i] is the index of the head of
    [plates] and [total] is [len(plates)] of the whole slice. *)
Fixpoint print_plates (i total : Z) (plates : list string) (console : list output)
  : list output :=
  match plates with
  | [] => console
  | plate :: plates' =>
    let console := console ++ [Print_Plate (i + 1) plate] in
    if 9 <=? i then console ++ [Print_More (total - 10)]
    else print_plates (i + 1) total plates' console
  end.

(** [txn.Get("plates", "id")] on the table and index of [setupMemDB] does not
    fail; it lists every object of the table. *)
Definition displayResults (db : gmap string LicensePlate) (console : list output)
  : list output :=
  let plates := (λ kv, Plate kv.2) <$> map_to_list db in
  let plates := sort_Slice less plates in (* sort.Strings *)
  let console := console ++ [Print_Header (Z.of_nat (length plates))] in
  print_plates 0 (Z.of_nat (length plates)) plates console.

(** [setupMemDB()]: the schema is fixed and passes the validation of
    [memdb.NewMemDB]; the database starts with an empty table. *)
Definition setupMemDB : error + gmap string LicensePlate := inr ∅.

Section Main.

Context {R : Type} `{Reader R}.
Variable Now : Z → Z.
Variable env : Environment R.
(** [zip.NewReader(tempFile, size)] *)
Variable zip_NewReader : Z → error + list (zip.File Vehicle).

(** [log.Fatalf] and [log.Fatal] write the line and end the process with
    status 1; the deferred calls are not made. *)
Definition Fatal (err : error) (trace : list event) : Z * list event :=
  (1, trace ++ [Console (Log_Fatal err)]).

(** [main]: the exit status and what was done.  [deferred] holds the calls
    of the [defer] statements met so far, the last one first; they are made
    when [main] returns. *)
Definition main : Z * list event :=
  let trace := [Call_Dial] in
  match ftp_Dial env with
  | Some err => Fatal (Wrapf "Failed to connect to FTP" err) trace
  | None =>
    let deferred := [Call_Quit] in
    let trace := trace ++ [Call_Login] in
    match conn_Login env with
    | Some err => Fatal (Wrapf "Failed to login" err) trace
    | None =>
      let trace := trace ++ [Call_ChangeDir] in
      match conn_ChangeDir env with
      | Some err => Fatal (Wrapf "Failed to change directory" err) trace
      | None =>
        let trace := trace ++ [Call_List] in
        match conn_List env with
        | inl err => Fatal (Wrapf "Failed to list directory" err) trace
        | inr entries =>
          match locate entries with
          | inl err => Fatal err trace
          | inr newestZip =>
            let trace :=
              trace ++ [Print_Newest (ftp.Name newestZip) (ftp.Time newestZip);
                        Print_FileSize (ftp.Size newestZip)] in
            let trace := trace ++ [Call_Retr (ftp.Name newestZip)] in
            match conn_Retr env (ftp.Name newestZip) with
            | inl err => Fatal (Wrapf "Failed to retrieve file" err) trace
            | inr resp =>
              let deferred := Call_resp_Close :: deferred in
              let trace := trace ++ [Call_CreateTemp] in
              match os_CreateTemp env with
              | inl err => Fatal (Wrapf "Failed to create temp file" err) trace
              | inr tempFile =>
                let deferred := Call_Remove tempFile :: deferred in
                let deferred := Call_tempFile_Close :: deferred in
                match setupMemDB with
                | inl err => Fatal (Wrapf "Failed to setup memdb" err) trace
                | inr db =>
                  let progressReader :=
                    NewProgressReader resp (wrap64 (ftp.Size newestZip)) in
                  let '(_, _, printed) :=
                    relay progressReader (io_Copy_reads env) in
                  let trace := trace ++ (Console <$> printed) in
                  match io_Copy env with
                  | (_, Some err) =>
                    Fatal (Wrapf "Failed to stream file" err) trace
                  | (written, None) =>
                    let trace := trace ++ [Print_Downloaded written; Call_Seek] in
                    match tempFile_Seek env with
                    | Some err =>
                      Fatal (Wrapf "Failed to seek temp file" err) trace
                    | None =>
                      let '(err, db, console) :=
                        processZipStream Now (zip_NewReader written) db [] in
                      let trace := trace ++ (Console <$> console) in
                      match err with
                      | Some err =>
                        Fatal (Wrapf "Failed to process zip" err) trace
                      | None =>
                        let trace :=
                          trace ++ (Console <$> displayResults db []) in
                        (0, trace ++ deferred)
                      end
                    end
                  end
                end
              end
            end
          end
        end
      end
    end
  end.

End Main.

End Autoplate.

(** ** Notions the properties are stated with *)

(** The record element a token starts, when [DecodeElement] decodes it. *)
Definition decoded_record (ev : xml.Token * (Statistik + error)) : option Statistik :=
  match ev with
  | (xml.StartElement _ Local, inl stat) =>
    if String.eqb Local "Statistik" then Some stat else None
  | _ => None
  end.

(** The record element a token starts, when [DecodeElement] fails on it. *)
Definition failed_record (ev : xml.Token * (Statistik + error)) : option error :=
  match ev with
  | (xml.StartElement _ Local, inr err) =>
    if String.eqb Local "Statistik" then Some err else None
  | _ => None
  end.

(** Make name, one space, model name. *)
Definition description (stat : Statistik) : string :=
  let betegnelse :=
    KoeretoejBetegnelseStruktur (KoeretoejOplysningGrundStruktur stat) in
  KoeretoejMaerkeTypeNavn betegnelse +:+ " "
    +:+ KoeretoejModelTypeNavn (Model betegnelse).

(** Identifier and description of the decoded records of a stream that have
    a non-empty identifier, in stream order. *)
Definition identified (tokens : list (xml.Token * (Statistik + error)))
  : list (string * string) :=
  omap (λ ev, stat ← decoded_record ev;
              if String.eqb (RegistreringNummerNummer stat) "" then None
              else Some (RegistreringNummerNummer stat, description stat))
       tokens.

(** The description of the last occurrence of [id]. *)
Definition last_description (id : string) (records : list (string * string))
  : option string :=
  snd <$> last (filter (λ r, r.1 = id) records).

(** The names announced by "Processing: ..." lines. *)
Definition announced (console : list output) : list string :=
  omap (λ o, match o with Print_Processing name _ => Some name | _ => None end)
       console.

(** The percentages of the progress lines. *)
Definition percentages (console : list output) : list Z :=
  omap (λ o, match o with Print_Downloading pc _ _ => Some pc | _ => None end)
       console.

(** The progress wrapper in the words of the specification, on the counts of
    the successive reads: the running total grows by each count; when the
    total size is known (> 0), [floor(current * 100 / total)] is notified
    when it strictly exceeds the last notified value ([last], 0 before the
    first notification). *)
Fixpoint notified (total current last : Z) (counts : list Z) : list Z :=
  match counts with
  | [] => []
  | n :: counts' =>
    let current := current + n in
    if 0 <? total then
      let percent := (current * 100) `div` total in
      if last <? percent then percent :: notified total current percent counts'
      else notified total current last counts'
    else notified total current last counts'
  end.

(** Selection in the words of the specification: [result] is the first
    entry, in listing order, among those that satisfy [survives] and carry
    the greatest timestamp; there is none when no entry survives. *)
Definition newest_first_seen (survives : ftp.Entry → bool)
    (entries : list ftp.Entry) (result : option ftp.Entry) : Prop :=
  match result with
  | None => ∀ entry, entry ∈ entries → survives entry = false
  | Some entry =>
    ∃ i : nat, entries !! i = Some entry ∧ survives entry = true ∧
      ∀ (j : nat) other, entries !! j = Some other → survives other = true →
        ftp.Time other ≤ ftp.Time entry ∧
        (ftp.Time other = ftp.Time entry → (i ≤ j)%nat)
  end.

(** [name] ends with [suffix]. *)
Definition ends_with (name suffix : string) : Prop :=
  ∃ stem, name = stem +:+ suffix.

(** The rows and the remainder line of a printed summary. *)
Definition row_plates (console : list output) : list string :=
  omap (λ o, match o with
             | Print_Row _ plate _ | Print_Plate _ plate => Some plate
             | _ => None
             end) console.

Definition remainder_lines (console : list output) : list Z :=
  omap (λ o, match o with Print_More n => Some n | _ => None end) console.

(** Strict byte-wise lexicographic order on strings. *)
Definition string_lt (s t : string) : Prop := less s t = true.

(** The registry after the records [records] were put into [m] one after
    the other. *)
Definition registered (m : gmap string string) (records : list (string * string))
  : gmap string string :=
  foldl (λ m r, <[r.1 := r.2]> m) m records.

(** What [streamXML] prints after a record made the count [processedCount]. *)
Definition milestone (processedCount : Z) (w : world) : world :=
  if Z.rem processedCount 10000 =? 0
  then Printf (Print_Processed processedCount) w else w.

(** A record element with the three fields the program reads. *)
Definition record (id make model : string) : Statistik :=
  {| RegistreringNummerNummer := id;
     KoeretoejOplysningGrundStruktur :=
       {| KoeretoejBetegnelseStruktur :=
            {| KoeretoejMaerkeTypeNavn := make;
               Model := {| KoeretoejModelTypeNavn := model |} |} |} |}.

(** The start of a record element that decodes to [stat]. *)
Definition element (stat : Statistik) : xml.Token * (Statistik + error) :=
  (xml.StartElement "" "Statistik", inl stat).

(** The start of a record element on which decoding fails with [err]. *)
Definition malformed (err : error) : xml.Token * (Statistik + error) :=
  (xml.StartElement "" "Statistik", inr err).

(** The world [main] starts from. *)
Definition initial : world := {| plates := ∅; out := [] |}.

(** The members the specification keeps: no directory, and a name that
    ends with the markup extension, case-insensitively. *)
Definition markup_member {A} (zipFile : zip.File A) : bool :=
  negb (zip.IsDir zipFile) && HasSuffix (ToLower (zip.Name zipFile)) ".xml".

(** The members of an archive that [processZipFile] does not skip. *)
Definition kept (zipFile : zip.File Statistik) : bool := markup_member zipFile.

(** The warnings that the failed decodings of a stream cause, in order. *)
Definition decode_warnings (tokens : list (xml.Token * (Statistik + error)))
  : list output :=
  Log_DecodeWarning <$> omap failed_record tokens.

(** The slice that [displayResults] sorts and the summary it prints. *)
Definition entries_of (m : gmap string string) : list plateEntry :=
  (λ kv, {| plate := kv.1; makeModelName := kv.2 |}) <$> map_to_list m.

Definition sorted_entries (m : gmap string string) : list plateEntry :=
  sort_Slice (λ a b, less (plate a) (plate b)) (entries_of m).

Definition summary (m : gmap string string) : list output :=
  let entries := sorted_entries m in
  let total := Z.of_nat (length entries) in
  Print_Header total
    :: imap (λ i e, Print_Row (Z.of_nat i + 1) (plate e) (makeModelName e))
            (take 10 entries)
    ++ (if 10 <? total then [Print_More (total - 10)] else []).

(** A table of exactly ten plates, "P00" to "P09". *)
Definition ten_plates : gmap string Autoplate.LicensePlate :=
  list_to_map
    ((λ p, (p, {| Autoplate.Plate := p; Autoplate.Timestamp := 0 |}))
       <$> ["P09"; "P01"; "P02"; "P03"; "P04"; "P05"; "P06"; "P07"; "P08"; "P00"]).

(** What [encoding/xml] gives for [Statistik], whose fields are strings and
    structs of strings and which has no [XMLName]: [DecodeElement] fails only
    when the token stream itself is broken, and the decoder keeps the error.
    A record element on which decoding fails is then the last token that
    [Token] returns, and the call of [Token] that follows fails with the same
    error, which is not [io.EOF]. *)
Definition sticky (reader : xml.Decoder Statistik) : Prop :=
  ∀ (i : nat) Space err,
    xml.tokens reader !! i
      = Some (xml.StartElement Space "Statistik", inr err) →
    S i = length (xml.tokens reader) ∧ xml.stop reader = err ∧ err ≠ EOF.

(** The stream of a markup file with three well-formed records followed by
    one malformed record, an element closed by the wrong end tag, as the
    decoder of the library gives it: decoding fails on the fourth element
    with the syntax error, and so does the next call of [Token].  An archive
    member that holds it. *)
Definition wrong_end_tag : error :=
  Errorf "XML syntax error on line 5: element <Model> closed by </Statistik>".

Definition three_and_one : xml.Decoder Statistik :=
  xml.NewDecoder
    [element (record "AB12345" "Toyota" "Corolla");
     element (record "CD67890" "Volvo" "V60");
     element (record "EF24680" "Ford" "Focus");
     malformed wrong_end_tag]
    wrong_end_tag.

Definition member_three_and_one : zip.File Statistik :=
  {| zip.Name := "ESStatistikListeModtag.XML"; zip.IsDir := false;
     zip.UncompressedSize64 := 4096; zip.Open := inr three_and_one |}.

(** A stream that breaks after its first record. *)
Definition broken_stream : xml.Decoder Statistik :=
  xml.NewDecoder [element (record "AB12345" "Toyota" "Corolla")]
                 (Errorf "unexpected EOF").

Definition member_broken : zip.File Statistik :=
  {| zip.Name := "first.xml"; zip.IsDir := false;
     zip.UncompressedSize64 := 100; zip.Open := inr broken_stream |}.

(** The filter of the selection loop of [downloadAndProcess], and that of
    the loop of [main] in autoplate.go. *)
Definition is_zip_file (entry : ftp.Entry) : bool :=
  ftp.is_file (ftp.Type_ entry) && HasSuffix (ftp.Name entry) ".zip".

Definition is_named_zip_file (entry : ftp.Entry) : bool :=
  ftp.is_file (ftp.Type_ entry) && (4 <? len (ftp.Name entry))
  && HasSuffix (ftp.Name entry) ".zip".

(** The selection loop with its filter as a parameter. *)
Definition pick (survives : ftp.Entry → bool)
    (newestZip : option ftp.Entry) (entry : ftp.Entry) : option ftp.Entry :=
  if survives entry then
    match newestZip with
    | None => Some entry
    | Some newest =>
      if ftp.After (ftp.Time entry) (ftp.Time newest) then Some entry
      else newestZip
    end
  else newestZip.

(** A remote file whose whole name is ".zip". *)
Definition dot_zip : ftp.Entry :=
  {| ftp.Name := ".zip"; ftp.Size := 22; ftp.Type_ := ftp.EntryTypeFile;
     ftp.Time := 1700000000 |}.

(** The members of an archive that [processZipStream] of autoplate.go does
    not skip: those that are no directory. *)
Definition no_directory {A} (zipFile : zip.File A) : bool :=
  negb (zip.IsDir zipFile).

(** Equality of byte strings up to the case of the letters 'A'..'Z', and a
    name that ends with an extension in any case. *)
Definition same_letter (a b : ascii) : Prop :=
  a = b ∨
  ((65 ≤ N_of_ascii a ≤ 90)%N ∧ N_of_ascii b = (N_of_ascii a + 32)%N) ∨
  ((65 ≤ N_of_ascii b ≤ 90)%N ∧ N_of_ascii a = (N_of_ascii b + 32)%N).

Fixpoint fold_eq (s t : string) : Prop :=
  match s, t with
  | EmptyString, EmptyString => True
  | String a s', String b t' => same_letter a b ∧ fold_eq s' t'
  | _, _ => False
  end.

(** A string without the letters 'A'..'Z'. *)
Fixpoint no_capital (s : string) : Prop :=
  match s with
  | EmptyString => True
  | String c s' => ¬ (65 ≤ N_of_ascii c ≤ 90)%N ∧ no_capital s'
  end.

Definition ends_with_fold (name ext : string) : Prop :=
  ∃ stem suffix, name = stem +:+ suffix ∧ fold_eq suffix ext.

(** The number of characters of a string that is well-formed UTF-8: the
    bytes that do not continue a character. *)
Fixpoint characters (s : string) : Z :=
  match s with
  | EmptyString => 0
  | String c s' =>
    (if (N.land (N_of_ascii c) 192 =? 128)%N then 0 else 1) + characters s'
  end.

(** A path of three characters, each of two bytes. *)
Definition three_characters : string :=
  String (ascii_of_N 195) (String (ascii_of_N 169)
  (String (ascii_of_N 195) (String (ascii_of_N 169)
  (String (ascii_of_N 195) (String (ascii_of_N 169) EmptyString))))).

(** A member named "notes.txt" that holds a record, for the map-based
    program. *)
Definition notes_txt_records : zip.File Statistik :=
  {| zip.Name := "notes.txt"; zip.IsDir := false; zip.UncompressedSize64 := 64;
     zip.Open :=
       inr (xml.NewDecoder [element (record "AB12345" "Toyota" "Corolla")]
              EOF) |}.

(** A member that is no markup file by its name and holds a vehicle. *)
Definition notes_txt : zip.File Autoplate.Vehicle :=
  {| zip.Name := "notes.txt"; zip.IsDir := false; zip.UncompressedSize64 := 64;
     zip.Open :=
       inr (xml.NewDecoder
              [(xml.StartElement "" "Vehicle",
                inl {| Autoplate.Vehicle_LicensePlate := "AB12345" |})]
              EOF) |}.

(** Members that fail to open. *)
Definition member_unreadable : zip.File Statistik :=
  {| zip.Name := "damaged.xml"; zip.IsDir := false; zip.UncompressedSize64 := 7;
     zip.Open := inl (Errorf "zip: checksum error") |}.

Definition vehicles_unreadable : zip.File Autoplate.Vehicle :=
  {| zip.Name := "damaged.xml"; zip.IsDir := false; zip.UncompressedSize64 := 7;
     zip.Open := inl (Errorf "zip: checksum error") |}.

(** The progress accounting of successive reads, given the counts that the
    wrapped reader returns: the wrapper after the last read and everything
    printed. *)
Fixpoint accounted {R} (pr : ProgressReader R) (counts : list Z)
  : ProgressReader R * list output :=
  match counts with
  | [] => (pr, [])
  | n :: counts' =>
    let '(pr1, printed) := account pr (reader pr) n in
    let '(pr2, printed') := accounted pr1 counts' in
    (pr2, printed ++ printed')
  end.

(** The bytes of a sequence of reads. *)
Definition total_count (counts : list Z) : Z := foldr Z.add 0 counts.

(** Two wrappers with the same counters (the accounting reads and writes
    nothing else). *)
Definition same_counters {R} (pr pr' : ProgressReader R) : Prop :=
  total pr = total pr' ∧ current pr = current pr' ∧ lastPrint pr = lastPrint pr'.

(** A source that never ends and fills every buffer it is given. *)
Inductive endless : Type := Endless.

#[export] Instance endless_Reader : Reader endless :=
  fun r p => ({| n := Z.of_nat (length p); p' := p; err := None |}, r).

(** The running total after each read of a sequence. *)
Fixpoint running (current : Z) (counts : list Z) : list Z :=
  match counts with
  | [] => []
  | n :: counts' => (current + n) :: running (current + n) counts'
  end.

(** One hundred times [current] is an [int64]. *)
Definition percent_fits (current : Z) : Prop :=
  min_int64 ≤ 100 * current ≤ max_int64.

(** The table "plates" respects its unique index: every object is stored
    under its own [Plate]. *)
Definition indexed (db : gmap string Autoplate.LicensePlate) : Prop :=
  ∀ key obj, db !! key = Some obj → Autoplate.Plate obj = key.

(** The plates that [displayResults] of autoplate.go sorts and prints. *)
Definition sorted_plates (db : gmap string Autoplate.LicensePlate) : list string :=
  sort_Slice less ((λ kv, Autoplate.Plate kv.2) <$> map_to_list db).

(** What one member of an archive brings to [processZipFile]: the records
    it registers, what it adds to the printed count, and the warnings it
    causes. *)
Definition member_records (zipFile : zip.File Statistik) : list (string * string) :=
  if kept zipFile then
    match zip.Open zipFile with
    | inr rc => identified (xml.tokens rc)
    | inl _ => []
    end
  else [].

Definition member_count (zipFile : zip.File Statistik) : Z :=
  if kept zipFile then
    match zip.Open zipFile with
    | inr rc =>
      if is_EOF (xml.stop rc)
      then Z.of_nat (length (identified (xml.tokens rc))) else 0
    | inl _ => 0
    end
  else 0.

Definition member_warnings (zipFile : zip.File Statistik) : list output :=
  if kept zipFile then
    match zip.Open zipFile with
    | inr rc =>
      decode_warnings (xml.tokens rc)
        ++ (if is_EOF (xml.stop rc) then []
            else [Log_ProcessWarning (zip.Name zipFile)
                    (Wrapf "XML parse error" (xml.stop rc))])
    | inl err => [Log_OpenWarning (zip.Name zipFile) err]
    end
  else [].

(** The sum of a list of integers. *)
Definition sum_Z (l : list Z) : Z := foldr Z.add 0 l.

(** The tokens that [streamXML] acts on: start elements with the local
    name "Statistik". *)
Definition starts_record (ev : xml.Token * (Statistik + error)) : bool :=
  match ev.1 with
  | xml.StartElement _ Local => String.eqb Local "Statistik"
  | _ => false
  end.

(** The counts of the "Processed ... plates" lines. *)
Definition milestones (console : list output) : list Z :=
  omap (λ o, match o with Print_Processed c => Some c | _ => None end) console.

(** The multiples of 10000 among [first + 1 .. last]. *)
Definition ten_thousands (first last : Z) : list Z :=
  filter (λ c, Z.rem c 10000 = 0) (seqZ (first + 1) (last - first)).

(** The lines that a scan prints: warnings for failed decodings and
    progress lines. *)
Definition scan_line (o : output) : Prop :=
  match o with
  | Log_DecodeWarning _ | Print_Processed _ => True
  | _ => False
  end.


(** The plate of the vehicle element a token starts, when it decodes to a
    vehicle with a non-empty plate. *)
Definition decoded_vehicle (ev : xml.Token * (Autoplate.Vehicle + error))
  : option string :=
  match ev with
  | (xml.StartElement _ Local, inl vehicle) =>
    if String.eqb Local "Vehicle" then
      if String.eqb (Autoplate.Vehicle_LicensePlate vehicle) "" then None
      else Some (Autoplate.Vehicle_LicensePlate vehicle)
    else None
  | _ => None
  end.

(** The plates that a member of an archive brings to [processZipStream], in
    stream order. *)
Definition member_vehicles (zipFile : zip.File Autoplate.Vehicle) : list string :=
  if no_directory zipFile then
    match zip.Open zipFile with
    | inr decoder => omap decoded_vehicle (xml.tokens decoder)
    | inl _ => []
    end
  else [].

(** The table after the plates [plates] were inserted one after the other,
    the first of them when [c] insertions had been made. *)
Fixpoint inserted (Now : Z → Z) (c : Z) (table : gmap string Autoplate.LicensePlate)
    (plates : list string) : gmap string Autoplate.LicensePlate :=
  match plates with
  | [] => table
  | p :: plates' =>
    inserted Now (c + 1)
      (<[p := {| Autoplate.Plate := p; Autoplate.Timestamp := Now c |}]> table)
      plates'
  end.

(** The warnings for insertions that failed. *)
Definition is_insert_warning (o : output) : bool :=
  match o with Log_InsertWarning _ => true | _ => false end.

Definition insert_warnings (console : list output) : list output :=
  filter is_insert_warning console.

(** The resources that a run holds: the control connection, the response
    of the transfer, the descriptor of the temporary file, and the temporary
    file on disk. *)
Record resources : Type := {
  connection : bool;
  response : bool;
  descriptor : bool;
  temporary : option string
}.

Definition idle : resources :=
  {| connection := false; response := false; descriptor := false;
     temporary := None |}.

(** The resources after one more event, in the environment [env]. *)
Definition track {R} (env : Environment R) (held : resources) (e : event)
  : resources :=
  match e with
  | Call_Dial =>
    {| connection := if ftp_Dial env is None then true else connection held;
       response := response held; descriptor := descriptor held;
       temporary := temporary held |}
  | Call_Quit =>
    {| connection := false; response := response held;
       descriptor := descriptor held; temporary := temporary held |}
  | Call_Retr name =>
    {| connection := connection held;
       response := if conn_Retr env name is inr _ then true else response held;
       descriptor := descriptor held; temporary := temporary held |}
  | Call_resp_Close =>
    {| connection := connection held; response := false;
       descriptor := descriptor held; temporary := temporary held |}
  | Call_CreateTemp =>
    match os_CreateTemp env with
    | inr name =>
      {| connection := connection held; response := response held;
         descriptor := true; temporary := Some name |}
    | inl _ => held
    end
  | Call_tempFile_Close =>
    {| connection := connection held; response := response held;
       descriptor := false; temporary := temporary held |}
  | Call_Remove name =>
    {| connection := connection held; response := response held;
       descriptor := descriptor held;
       temporary := if temporary held is Some file
                    then if String.eqb file name then None else Some file
                    else None |}
  | _ => held
  end.

(** The calls that release a resource. *)
Definition releases (e : event) : bool :=
  match e with
  | Call_Quit | Call_resp_Close | Call_tempFile_Close | Call_Remove _ => true
  | _ => false
  end.

(** The lines of the console among the events. *)
Definition console_lines (trace : list event) : list output :=
  omap (λ e, match e with Console o => Some o | _ => None end) trace.

(** The names of the files that a run asks the server for. *)
Definition requested (trace : list event) : list string :=
  omap (λ e, match e with Call_Retr name => Some name | _ => None end) trace.

(** * Properties *)

(** ** Strings and machine integers *)

Lemma append_cons (c : ascii) (s t : string) :
  String c s +:+ t = String c (s +:+ t).
Proof. reflexivity. Qed.

Lemma append_assoc (s t u : string) : (s +:+ t) +:+ u = s +:+ t +:+ u.
Proof.
  induction s as [|c s IH]; [done|]. by rewrite !append_cons, IH.
Qed.

Lemma length_append (s t : string) :
  String.length (s +:+ t) = (String.length s + String.length t)%nat.
Proof.
  induction s as [|c s IH]; [done|]. rewrite append_cons. simpl. by rewrite IH.
Qed.

Lemma drop_bytes_append (s t : string) :
  drop_bytes (String.length s) (s +:+ t) = t.
Proof.
  induction s as [|c s IH]; [by destruct t|]. by rewrite append_cons.
Qed.

Lemma drop_bytes_split (k : nat) (s : string) :
  (k ≤ String.length s)%nat →
  ∃ stem, s = stem +:+ drop_bytes k s ∧ String.length stem = k.
Proof.
  revert s. induction k as [|k IH]; intros s Hk.
  - exists "". by destruct s.
  - destruct s as [|c s]; simpl in *; [lia|].
    destruct (IH s) as (stem & Hs & Hlen); [lia|].
    exists (String c stem). rewrite append_cons. simpl.
    split; [by rewrite <- Hs | by rewrite Hlen].
Qed.

(** A string splits in one way only into a stem and a suffix of given length. *)
Lemma append_inj_length (stem stem' suffix suffix' : string) :
  stem +:+ suffix = stem' +:+ suffix' →
  String.length suffix = String.length suffix' →
  stem = stem' ∧ suffix = suffix'.
Proof.
  revert stem'. induction stem as [|c stem IH]; intros [|c' stem'] Heq Hlen.
  - done.
  - change ("" +:+ suffix) with suffix in Heq. subst suffix.
    rewrite append_cons in Hlen. simpl in Hlen. rewrite length_append in Hlen. lia.
  - change ("" +:+ suffix') with suffix' in Heq. subst suffix'.
    rewrite append_cons in Hlen. simpl in Hlen. rewrite length_append in Hlen. lia.
  - rewrite !append_cons in Heq. injection Heq as -> Heq.
    destruct (IH stem' Heq Hlen) as [-> ->]. done.
Qed.

Lemma length_drop_bytes (k : nat) (s : string) :
  String.length (drop_bytes k s) = (String.length s - k)%nat.
Proof.
  revert s. induction k as [|k IH]; intros [|c s]; simpl; done.
Qed.

Lemma eqb_string_eq (s t : string) : String.eqb s t = true ↔ s = t.
Proof. apply String.eqb_eq. Qed.

(** [strings.HasSuffix] decides "ends with". *)
Lemma HasSuffix_spec (s suffix : string) :
  HasSuffix s suffix = true ↔ ends_with s suffix.
Proof.
  unfold HasSuffix, ends_with, slice_from, len. split.
  - intros H. apply andb_prop in H as [Hlen H]. apply Z.leb_le in Hlen.
    destruct (_ || _) eqn:Hb; [done|]. apply eqb_string_eq in H.
    destruct (drop_bytes_split
                (Z.to_nat (Z.of_nat (String.length s)
                           - Z.of_nat (String.length suffix))) s)
      as (stem & Hs & _); [lia|].
    exists stem. by rewrite <- H.
  - intros [stem ->]. rewrite length_append.
    apply andb_true_intro. split; [apply Z.leb_le; lia|].
    replace (_ || _) with false
      by (symmetry; apply orb_false_intro; [apply Z.ltb_ge | apply Z.ltb_ge]; lia).
    replace (Z.to_nat _) with (String.length stem) by lia.
    rewrite drop_bytes_append. by apply eqb_string_eq.
Qed.

Lemma wrap64_id (z : Z) : min_int64 ≤ z ≤ max_int64 → wrap64 z = z.
Proof.
  unfold wrap64, min_int64, max_int64. intros Hz.
  rewrite Z.mod_small; lia.
Qed.

(** Above the range and below [2^64] a product wraps to a negative number. *)
Lemma wrap64_high (z : Z) : max_int64 < z < 2 ^ 64 → wrap64 z = z - 2 ^ 64.
Proof.
  unfold wrap64, max_int64. intros Hz.
  replace (z + 2 ^ 63) with ((z - 2 ^ 63) + 1 * 2 ^ 64) by lia.
  rewrite Z_mod_plus_full, Z.mod_small; lia.
Qed.

(** ** The byte-wise order on strings *)

Lemma ascii_compare_refl (c : ascii) : Ascii.compare c c = Eq.
Proof. unfold Ascii.compare. apply N.compare_refl. Qed.

Lemma string_compare_refl (s : string) : String.compare s s = Eq.
Proof. induction s as [|c s IH]; simpl; [done|]. by rewrite ascii_compare_refl. Qed.

Lemma less_irrefl (s : string) : less s s = false.
Proof. unfold less, String.ltb. by rewrite string_compare_refl. Qed.

Lemma less_false_leb (s t : string) : less t s = false ↔ String.le s t.
Proof.
  unfold less, String.ltb, String.le, String.leb.
  rewrite (String.compare_antisym t s).
  destruct (String.compare s t); simpl; naive_solver.
Qed.

Lemma less_leb (s t : string) : less s t = true ↔ String.le s t ∧ s ≠ t.
Proof.
  unfold less, String.ltb, String.le, String.leb.
  destruct (String.compare s t) eqn:Hc; simpl.
  - apply String.compare_eq_iff in Hc. naive_solver.
  - split; [|done]. intros _. split; [done|]. intros ->.
    by rewrite string_compare_refl in Hc.
  - naive_solver.
Qed.

#[export] Instance string_lt_trans : Transitive string_lt.
Proof.
  intros s t u. unfold string_lt. rewrite !less_leb.
  intros [Hst Hne] [Htu Hne']. split; [by etrans|].
  intros ->. apply Hne. by apply (anti_symm String.le).
Qed.

#[export] Instance string_lt_dec : RelDecision string_lt.
Proof. intros s t. unfold string_lt. apply _. Defined.

(** ** The scanner: one turn of the loop *)

Lemma scan_token_decoded c w ev stat :
  decoded_record ev = Some stat →
  RegistreringNummerNummer stat ≠ "" →
  scan_token (c, w) ev =
    (c + 1, milestone (c + 1)
              (store (RegistreringNummerNummer stat) (description stat) w)).
Proof.
  destruct ev as [[sp name| | | | |] [stat'|e]]; simpl; try done.
  unfold scan_token, milestone; simpl.
  destruct (String.eqb name "Statistik"); [|done].
  intros [= ->] Hid. apply String.eqb_neq in Hid. rewrite Hid. simpl.
  unfold Builder.String, Builder.WriteString, Builder.Reset, description.
  rewrite append_assoc. by destruct (_ =? 0).
Qed.

Lemma scan_token_unidentified s ev stat :
  decoded_record ev = Some stat →
  RegistreringNummerNummer stat = "" →
  scan_token s ev = s.
Proof.
  destruct s as [c w].
  destruct ev as [[sp name| | | | |] [stat'|e]]; simpl; try done.
  unfold scan_token; simpl.
  destruct (String.eqb name "Statistik"); [|done].
  intros [= ->] Hid. by rewrite Hid.
Qed.

Lemma scan_token_failed c w ev e :
  failed_record ev = Some e →
  scan_token (c, w) ev = (c, Printf (Log_DecodeWarning e) w).
Proof.
  destruct ev as [[sp name| | | | |] [stat'|e']]; simpl; try done.
  unfold scan_token; simpl.
  destruct (String.eqb name "Statistik"); [|done]. by intros [= ->].
Qed.

Lemma scan_token_other s ev :
  decoded_record ev = None → failed_record ev = None → scan_token s ev = s.
Proof.
  destruct s as [c w].
  destruct ev as [[sp name| | | | |] [stat'|e']]; simpl; try done;
    unfold scan_token; simpl; by destruct (String.eqb name "Statistik").
Qed.

(** The four cases of a turn. *)
Lemma scan_token_cases c w ev :
  (∃ stat, decoded_record ev = Some stat ∧ RegistreringNummerNummer stat ≠ "" ∧
     scan_token (c, w) ev =
       (c + 1, milestone (c + 1)
                 (store (RegistreringNummerNummer stat) (description stat) w))) ∨
  (∃ stat, decoded_record ev = Some stat ∧ RegistreringNummerNummer stat = "" ∧
     scan_token (c, w) ev = (c, w)) ∨
  (∃ e, failed_record ev = Some e ∧ decoded_record ev = None ∧
     scan_token (c, w) ev = (c, Printf (Log_DecodeWarning e) w)) ∨
  (decoded_record ev = None ∧ failed_record ev = None ∧
     scan_token (c, w) ev = (c, w)).
Proof.
  destruct (decoded_record ev) as [stat|] eqn:Hd.
  - destruct (decide (RegistreringNummerNummer stat = "")) as [Hid|Hid].
    + right; left. exists stat. eauto using scan_token_unidentified.
    + left. exists stat. eauto using scan_token_decoded.
  - destruct (failed_record ev) as [e|] eqn:Hf.
    + right; right; left. exists e. eauto using scan_token_failed.
    + right; right; right. eauto using scan_token_other.
Qed.

Lemma identified_cons ev tokens :
  identified (ev :: tokens) =
    match decoded_record ev with
    | Some stat =>
      if String.eqb (RegistreringNummerNummer stat) "" then identified tokens
      else (RegistreringNummerNummer stat, description stat) :: identified tokens
    | None => identified tokens
    end.
Proof.
  unfold identified at 1. simpl. fold (identified tokens).
  destruct (decoded_record ev) as [stat|]; simpl; [|done].
  by destruct (String.eqb _ _).
Qed.

Lemma plates_milestone c w : plates (milestone c w) = plates w.
Proof. unfold milestone. by destruct (_ =? 0). Qed.

(** The count grows by one per identified record, the registry receives
    them in stream order. *)
Lemma scan_tokens c w tokens :
  (foldl scan_token (c, w) tokens).1 = c + Z.of_nat (length (identified tokens)) ∧
  plates (foldl scan_token (c, w) tokens).2
    = registered (plates w) (identified tokens).
Proof.
  revert c w. induction tokens as [|ev tokens IH]; intros c w.
  { simpl. split; [lia | done]. }
  rewrite identified_cons.
  change (foldl scan_token (c, w) (ev :: tokens))
    with (foldl scan_token (scan_token (c, w) ev) tokens).
  destruct (scan_token_cases c w ev)
    as [(stat & -> & Hid & ->)|[(stat & -> & Hid & ->)
       |[(e & _ & -> & ->)|(-> & _ & ->)]]].
  - apply String.eqb_neq in Hid. rewrite Hid.
    destruct (IH (c + 1) (milestone (c + 1)
               (store (RegistreringNummerNummer stat) (description stat) w)))
      as [-> ->].
    rewrite plates_milestone. simpl. split; [lia | done].
  - rewrite Hid. simpl. apply IH.
  - destruct (IH c (Printf (Log_DecodeWarning e) w)) as [-> ->]. done.
  - apply IH.
Qed.

(** ** The registry as a function of the records put into it *)

Lemma registered_snoc m records r :
  registered m (records ++ [r]) = <[r.1 := r.2]> (registered m records).
Proof. unfold registered. by rewrite foldl_app. Qed.

Lemma last_description_snoc id records r :
  last_description id (records ++ [r]) =
    if decide (r.1 = id) then Some r.2 else last_description id records.
Proof.
  unfold last_description. rewrite filter_app.
  destruct (decide (r.1 = id)) as [Hr|Hr].
  - rewrite filter_cons_True, filter_nil by done. by rewrite last_snoc.
  - rewrite filter_cons_False, filter_nil by done. by rewrite app_nil_r.
Qed.

(** Last write wins; keys that no record names keep their value. *)
Lemma registered_lookup m records id :
  registered m records !! id =
    match last_description id records with
    | Some d => Some d
    | None => m !! id
    end.
Proof.
  induction records as [|r records IH] using rev_ind; [done|].
  rewrite registered_snoc, last_description_snoc.
  destruct (decide (r.1 = id)) as [<-|Hr].
  - by rewrite lookup_insert_eq.
  - by rewrite lookup_insert_ne.
Qed.

Lemma registered_dom m records :
  dom (registered m records) = dom m ∪ list_to_set records.*1.
Proof.
  induction records as [|r records IH] using rev_ind.
  - simpl. set_solver.
  - rewrite registered_snoc, dom_insert_L, IH, fmap_app, list_to_set_app_L.
    simpl. set_solver.
Qed.

Lemma size_list_to_set_remove_dups (l : list string) :
  size (list_to_set (C := gset string) l) = length (remove_dups l).
Proof.
  rewrite <- (size_list_to_set (C := gset string) (remove_dups l))
    by apply NoDup_remove_dups.
  f_equal. apply set_eq. intros x.
  by rewrite !elem_of_list_to_set, elem_of_remove_dups.
Qed.

Lemma registered_size records :
  size (registered ∅ records) = length (remove_dups records.*1).
Proof.
  rewrite <- size_dom, registered_dom, dom_empty_L, (left_id_L ∅ (∪)).
  apply size_list_to_set_remove_dups.
Qed.

(** Each record adds at most one key. *)
Lemma registered_new_keys m records :
  (size (dom (registered m records) ∖ dom m) ≤ length records)%nat.
Proof.
  induction records as [|r records IH] using rev_ind.
  - simpl. replace (dom m ∖ dom m) with (∅ : gset string) by set_solver.
    by rewrite size_empty.
  - rewrite registered_snoc, dom_insert_L, length_app. simpl.
    etrans; [apply (subseteq_size _
                      ({[r.1]} ∪ (dom (registered m records) ∖ dom m)));
             set_solver|].
    rewrite size_union_alt, size_singleton.
    pose proof (subseteq_size
                  (dom (registered m records) ∖ dom m ∖ {[r.1]})
                  (dom (registered m records) ∖ dom m)) as Hle.
    specialize (Hle ltac:(set_solver)). lia.
Qed.

Lemma identified_nonempty tokens r : r ∈ identified tokens → r.1 ≠ "".
Proof.
  unfold identified. rewrite list_elem_of_omap.
  intros (ev & _ & Hev). destruct (decoded_record ev) as [stat|]; [|done].
  simpl in Hev. destruct (String.eqb _ _) eqn:Hid; [done|].
  apply String.eqb_neq in Hid. by simplify_eq.
Qed.

Lemma last_description_Some id records d :
  last_description id records = Some d → (id, d) ∈ records.
Proof.
  unfold last_description. destruct (last _) as [[id' d']|] eqn:Hl; [|done].
  intros [= <-]. apply last_Some_elem_of in Hl.
  apply list_elem_of_filter in Hl as [Hid Hl]. simpl in Hid. by subst.
Qed.

Lemma last_description_is_Some id records :
  id ∈ records.*1 → is_Some (last_description id records).
Proof.
  intros Hid. apply list_elem_of_fmap in Hid as (r & -> & Hr).
  unfold last_description.
  destruct (last (filter (λ r', r'.1 = r.1) records)) as [r'|] eqn:Hl;
    [by eexists|].
  apply last_None in Hl.
  assert (r ∈ filter (λ r' : string * string, r'.1 = r.1) records) as Hin
    by by apply list_elem_of_filter.
  rewrite Hl in Hin. by apply not_elem_of_nil in Hin.
Qed.

(** An empty key is never written. *)
Lemma registered_no_empty_key m tokens :
  m !! "" = None → registered m (identified tokens) !! "" = None.
Proof.
  intros Hm. rewrite registered_lookup.
  destruct (last_description "" (identified tokens)) as [d|] eqn:Hl; [|done].
  apply last_description_Some, identified_nonempty in Hl. done.
Qed.

(** ** The scanner: a whole stream *)

Lemma streamXML_count reader w :
  (streamXML reader w).1.1 = Z.of_nat (length (identified (xml.tokens reader))).
Proof.
  unfold streamXML.
  pose proof (scan_tokens 0 w (xml.tokens reader)) as [Hc _].
  destruct (foldl scan_token (0, w) (xml.tokens reader)) as [c w'].
  simpl in Hc. by destruct (is_EOF _).
Qed.

Lemma streamXML_plates reader w :
  plates (streamXML reader w).2
    = registered (plates w) (identified (xml.tokens reader)).
Proof.
  unfold streamXML.
  pose proof (scan_tokens 0 w (xml.tokens reader)) as [_ Hp].
  destruct (foldl scan_token (0, w) (xml.tokens reader)) as [c w'].
  simpl in Hp. by destruct (is_EOF _).
Qed.

Lemma streamXML_error reader w :
  (streamXML reader w).1.2 =
    if is_EOF (xml.stop reader) then None
    else Some (Wrapf "XML parse error" (xml.stop reader)).
Proof.
  unfold streamXML.
  destruct (foldl scan_token (0, w) (xml.tokens reader)) as [c w'].
  by destruct (is_EOF _).
Qed.

Lemma streamXML_world reader w :
  (streamXML reader w).2 = (foldl scan_token (0, w) (xml.tokens reader)).2.
Proof.
  unfold streamXML.
  destruct (foldl scan_token (0, w) (xml.tokens reader)) as [c w'].
  by destruct (is_EOF _).
Qed.

(** C1: for every stream of tokens fed to the scanner from the empty
    registry ([seen] followed by [rest], whatever error ends it), the size of
    the final registry is the number of distinct identifiers among the
    decoded records with a non-empty identifier; looking an identifier up
    gives the description of its last occurrence in stream order (and
    nothing for an identifier that does not occur); and the empty string is
    a key neither of the final registry nor of the registry at the point
    where [seen] has been scanned. *)
Theorem scanner_registry
    (seen rest : list (xml.Token * (Statistik + error))) (stop : error) :
  let reader := xml.NewDecoder (seen ++ rest) stop in
  let records := identified (seen ++ rest) in
  let final := plates (streamXML reader initial).2 in
  size final = length (remove_dups records.*1) ∧
  (∀ id, final !! id = last_description id records) ∧
  final !! "" = None ∧
  plates (foldl scan_token (0, initial) seen).2 !! "" = None.
Proof.
  intros reader records final. subst final.
  rewrite streamXML_plates. simpl. fold records.
  split; [apply registered_size|]. split.
  - intros id. rewrite registered_lookup, lookup_empty.
    by destruct (last_description id records).
  - split; [by apply registered_no_empty_key|].
    destruct (scan_tokens 0 initial seen) as [_ ->].
    by apply registered_no_empty_key.
Qed.

(** The scenarios of the specification: two records, and one identifier
    inserted twice. *)
Example two_plates :
  let w := (streamXML (xml.NewDecoder
                         [element (record "AB12345" "Toyota" "Corolla");
                          element (record "CD67890" "Volvo" "V60")] EOF)
                      initial).2 in
  size (plates w) = 2%nat ∧ plates w !! "AB12345" = Some "Toyota Corolla".
Proof. by vm_compute. Qed.

Example yaris_replaces_corolla :
  let w := (streamXML (xml.NewDecoder
                         [element (record "AB12345" "Toyota" "Corolla");
                          element (record "AB12345" "Toyota" "Yaris")] EOF)
                      initial).2 in
  size (plates w) = 1%nat ∧ plates w !! "AB12345" = Some "Toyota Yaris".
Proof. by vm_compute. Qed.

Lemma warnings_app out1 out2 : warnings (out1 ++ out2) = warnings out1 ++ warnings out2.
Proof. unfold warnings. apply filter_app. Qed.

Lemma warnings_milestone c w : warnings (out (milestone c w)) = warnings (out w).
Proof.
  unfold milestone. destruct (_ =? 0); [|done]. simpl.
  rewrite warnings_app. simpl. apply app_nil_r.
Qed.

Lemma scan_cons s ev tokens :
  foldl scan_token s (ev :: tokens) = foldl scan_token (scan_token s ev) tokens.
Proof. reflexivity. Qed.

Lemma scan_nil s : foldl scan_token s [] = s.
Proof. reflexivity. Qed.

(** C6: when the scanner, having scanned [seen], meets a record element that
    decodes to [stat]: if the identifier is empty, the turn changes nothing
    (registry, count and console are as before) and the scan of a stream goes
    as if the element were not in it; otherwise the registry receives, under
    the identifier, the make name, one space and the model name, the count
    grows by one and no warning is logged. *)
Theorem record_registration
    (seen rest : list (xml.Token * (Statistik + error)))
    (Space : string) (stat : Statistik) (stop : error) (w : world) :
  let ev := (xml.StartElement Space "Statistik", inl stat) in
  let id := RegistreringNummerNummer stat in
  let betegnelse :=
    KoeretoejBetegnelseStruktur (KoeretoejOplysningGrundStruktur stat) in
  let before := foldl scan_token (0, w) seen in
  let after := foldl scan_token (0, w) (seen ++ [ev]) in
  if String.eqb id "" then
    after = before ∧
    streamXML (xml.NewDecoder (seen ++ ev :: rest) stop) w
      = streamXML (xml.NewDecoder (seen ++ rest) stop) w
  else
    plates after.2 =
      <[id := KoeretoejMaerkeTypeNavn betegnelse +:+ " "
                +:+ KoeretoejModelTypeNavn (Model betegnelse)]> (plates before.2) ∧
    after.1 = before.1 + 1 ∧
    warnings (out after.2) = warnings (out before.2).
Proof.
  intros ev id betegnelse before after. subst before after.
  rewrite foldl_app, scan_cons, scan_nil.
  assert (decoded_record ev = Some stat) as Hev by done.
  destruct (String.eqb id "") eqn:Hid.
  - apply String.eqb_eq in Hid.
    rewrite (scan_token_unidentified _ ev stat Hev Hid).
    split; [done|]. unfold streamXML. simpl xml.tokens.
    rewrite !foldl_app, scan_cons.
    by rewrite (scan_token_unidentified _ ev stat Hev Hid).
  - apply String.eqb_neq in Hid.
    destruct (foldl scan_token (0, w) seen) as [c w'].
    rewrite (scan_token_decoded c w' ev stat Hev Hid). simpl.
    rewrite plates_milestone, warnings_milestone. done.
Qed.

(** C10: for every stream and every starting registry, the count that a
    scan returns is the number of decoded record elements with a non-empty
    identifier that the stream held up to its end or its error (each
    occurrence of a repeated identifier counted), and the keys that the scan
    adds to the registry are at most that many; the scan returns no error
    when the stream ends with [io.EOF] and the wrapped stream error
    otherwise, with the same count and registry in both cases. *)
Theorem scan_count_and_new_keys (reader : xml.Decoder Statistik) (w : world) :
  let result := streamXML reader w in
  let count := result.1.1 in
  count = Z.of_nat (length (identified (xml.tokens reader))) ∧
  Z.of_nat (size (dom (plates result.2) ∖ dom (plates w))) ≤ count ∧
  Z.of_nat (size (plates result.2)) ≤ Z.of_nat (size (plates w)) + count ∧
  result.1.2 = (if is_EOF (xml.stop reader) then None
                else Some (Wrapf "XML parse error" (xml.stop reader))) ∧
  result.1.1 = (streamXML (xml.NewDecoder (xml.tokens reader) EOF) w).1.1 ∧
  result.2 = (streamXML (xml.NewDecoder (xml.tokens reader) EOF) w).2.
Proof.
  intros result count. subst result count.
  rewrite !streamXML_count, !streamXML_plates, streamXML_error, !streamXML_world.
  simpl xml.tokens.
  pose proof (registered_new_keys (plates w) (identified (xml.tokens reader)))
    as Hnew.
  repeat split; try done; [lia|].
  rewrite <- !size_dom.
  rewrite registered_dom in Hnew |- *.
  rewrite size_union_alt.
  replace ((dom (plates w) ∪ list_to_set (identified (xml.tokens reader)).*1)
             ∖ dom (plates w))
    with (list_to_set (identified (xml.tokens reader)).*1 ∖ dom (plates w)
          : gset string) in Hnew by set_solver.
  lia.
Qed.

(** ** Failures while scanning *)

Lemma failed_not_decoded ev e : failed_record ev = Some e → decoded_record ev = None.
Proof. by destruct ev as [[sp name| | | | |] [stat|e']]. Qed.

(** The warnings of a scan are those of the failed decodings. *)
Lemma scan_warnings c w tokens :
  warnings (out (foldl scan_token (c, w) tokens).2)
    = warnings (out w) ++ decode_warnings tokens.
Proof.
  unfold decode_warnings.
  revert c w. induction tokens as [|ev tokens IH]; intros c w.
  { simpl. by rewrite app_nil_r. }
  rewrite scan_cons.
  destruct (scan_token_cases c w ev)
    as [(stat & Hd & Hid & ->)|[(stat & Hd & Hid & ->)
       |[(e & Hf & Hd & ->)|(Hd & Hf & ->)]]]; rewrite IH; clear IH.
  - rewrite warnings_milestone. simpl.
    destruct ev as [[sp name| | | | |] [stat'|e']]; done.
  - destruct ev as [[sp name| | | | |] [stat'|e']]; done.
  - simpl. rewrite Hf. simpl. rewrite warnings_app. simpl.
    by rewrite <- app_assoc.
  - simpl. by rewrite Hf.
Qed.

Lemma identified_app tokens1 tokens2 :
  identified (tokens1 ++ tokens2) = identified tokens1 ++ identified tokens2.
Proof. apply omap_app. Qed.

Lemma decode_warnings_app tokens1 tokens2 :
  decode_warnings (tokens1 ++ tokens2)
    = decode_warnings tokens1 ++ decode_warnings tokens2.
Proof. unfold decode_warnings. by rewrite omap_app, fmap_app. Qed.

(** ** The members of an archive *)

Lemma zip_member_skipped s zipFile : kept zipFile = false → zip_member s zipFile = s.
Proof.
  unfold kept, markup_member, zip_member. destruct s as [c w]. intros Hk.
  destruct (zip.IsDir zipFile); [done|]. simpl in *. by rewrite Hk.
Qed.

Lemma zip_member_kept c w zipFile :
  kept zipFile = true →
  zip_member (c, w) zipFile =
    let w := Printf (Print_Processing (zip.Name zipFile)
                       (zip.UncompressedSize64 zipFile)) w in
    match zip.Open zipFile with
    | inl err => (c, Printf (Log_OpenWarning (zip.Name zipFile) err) w)
    | inr rc =>
      match (streamXML rc w).1.2 with
      | Some err =>
        (c, Printf (Log_ProcessWarning (zip.Name zipFile) err) (streamXML rc w).2)
      | None => (c + (streamXML rc w).1.1, (streamXML rc w).2)
      end
    end.
Proof.
  unfold kept, markup_member, zip_member. intros Hk.
  destruct (zip.IsDir zipFile); [done|]. simpl in *. rewrite Hk. simpl.
  destruct (zip.Open zipFile) as [err|rc]; [done|].
  by destruct (streamXML rc _) as [[count [err|]] w'].
Qed.

Lemma zip_members_cons s zipFile members :
  foldl zip_member s (zipFile :: members)
    = foldl zip_member (zip_member s zipFile) members.
Proof. reflexivity. Qed.

(** ** The printed summary of the map-based program *)

Lemma foldl_Printf {A} (g : A → output) (l : list A) (w : world) :
  foldl (λ w x, Printf (g x) w) w l
    = {| plates := plates w; out := out w ++ (g <$> l) |}.
Proof.
  revert w. induction l as [|x l IH]; intros w; simpl.
  - rewrite app_nil_r. by destruct w.
  - rewrite IH. simpl. by rewrite <- app_assoc.
Qed.

Lemma displayResults_summary (w : world) :
  displayResults w = {| plates := plates w; out := out w ++ summary (plates w) |}.
Proof.
  unfold displayResults, summary. fold (entries_of (plates w)).
  fold (sorted_entries (plates w)).
  set (entries := sorted_entries (plates w)).
  set (total := Z.of_nat (length entries)).
  rewrite (foldl_Printf
             (λ ie : nat * plateEntry,
                Print_Row (Z.of_nat ie.1 + 1) (plate ie.2) (makeModelName ie.2))).
  rewrite fmap_imap. simpl.
  destruct (total <? 10) eqn:Hlt.
  - apply Z.ltb_lt in Hlt. rewrite Z.ltb_irrefl.
    replace (10 <? total) with false by (symmetry; apply Z.ltb_ge; lia).
    rewrite (take_ge entries (Z.to_nat total)) by (subst total; lia).
    rewrite (take_ge entries 10) by (subst total; lia).
    by rewrite <- !app_assoc, app_nil_r.
  - change (Z.to_nat 10) with 10%nat.
    destruct (10 <? total); unfold Printf; simpl.
    + by rewrite <- !app_assoc.
    + by rewrite <- !app_assoc, app_nil_r.
Qed.

#[export] Instance not_after_plate_trans :
  Transitive (not_after (λ a b : plateEntry, less (plate a) (plate b))).
Proof.
  intros a b c. unfold not_after. rewrite !less_false_leb. apply transitivity.
Qed.

#[export] Instance not_after_plate_total :
  Total (not_after (λ a b : plateEntry, less (plate a) (plate b))).
Proof.
  intros a b. unfold not_after. rewrite !less_false_leb. apply (stdpp.base.total String.le).
Qed.

#[export] Instance not_after_string_trans : Transitive (not_after less).
Proof.
  intros a b c. unfold not_after. rewrite !less_false_leb. apply transitivity.
Qed.

#[export] Instance not_after_string_total : Total (not_after less).
Proof.
  intros a b. unfold not_after. rewrite !less_false_leb. apply (stdpp.base.total String.le).
Qed.

(** On distinct keys "not after" sorting is strict sorting. *)
Lemma sorted_distinct_strict {A} (key : A → string) (l : list A) :
  StronglySorted (not_after (λ a b, less (key a) (key b))) l →
  NoDup (key <$> l) →
  StronglySorted (λ a b, string_lt (key a) (key b)) l.
Proof.
  induction 1 as [|x l Hl IH Hx]; intros Hnd; [constructor|].
  rewrite fmap_cons in Hnd. apply NoDup_cons in Hnd as [Hnotin Hnd].
  constructor; [by apply IH|].
  rewrite Forall_forall in Hx |- *. intros y Hy.
  unfold string_lt. apply less_leb. split.
  - apply less_false_leb. by apply Hx.
  - intros Heq. apply Hnotin. rewrite Heq. apply list_elem_of_fmap. eauto.
Qed.

(** A strictly sorted arrangement of a list is unique: whatever algorithm
    [sort.Slice] runs, on distinct keys it returns the list of [sort_Slice]. *)
Lemma sorted_by_less_unique {A} (key : A → string) (l1 l2 : list A) :
  StronglySorted (λ a b, string_lt (key a) (key b)) l1 →
  StronglySorted (λ a b, string_lt (key a) (key b)) l2 →
  l1 ≡ₚ l2 → l1 = l2.
Proof.
  apply StronglySorted_unique_strong.
  intros x y _ _ Hxy Hyx. exfalso.
  assert (string_lt (key x) (key x)) as Hxx by (by etrans).
  unfold string_lt in Hxx. by rewrite less_irrefl in Hxx.
Qed.

Lemma entries_of_plates (m : gmap string string) :
  plate <$> entries_of m = (map_to_list m).*1.
Proof. unfold entries_of. rewrite <- list_fmap_compose. done. Qed.

Lemma sorted_entries_perm (m : gmap string string) :
  sorted_entries m ≡ₚ entries_of m.
Proof. apply merge_sort_Permutation. Qed.

Lemma sorted_entries_length (m : gmap string string) :
  length (sorted_entries m) = size m.
Proof.
  rewrite sorted_entries_perm. unfold entries_of.
  by rewrite length_fmap, length_map_to_list.
Qed.

Lemma sorted_entries_strict (m : gmap string string) :
  StronglySorted (λ a b, string_lt (plate a) (plate b)) (sorted_entries m).
Proof.
  apply sorted_distinct_strict.
  - apply (StronglySorted_merge_sort _).
  - rewrite sorted_entries_perm, entries_of_plates.
    apply NoDup_fst_map_to_list.
Qed.

Lemma sorted_entries_lookup (m : gmap string string) (e : plateEntry) :
  e ∈ sorted_entries m ↔ m !! plate e = Some (makeModelName e).
Proof.
  rewrite sorted_entries_perm. unfold entries_of. rewrite list_elem_of_fmap.
  split.
  - intros ([k v] & -> & Hkv). by apply elem_of_map_to_list in Hkv.
  - intros Hm. exists (plate e, makeModelName e). split; [by destruct e|].
    by apply elem_of_map_to_list.
Qed.

Lemma row_plates_app out1 out2 :
  row_plates (out1 ++ out2) = row_plates out1 ++ row_plates out2.
Proof. apply omap_app. Qed.

Lemma remainder_lines_app out1 out2 :
  remainder_lines (out1 ++ out2) = remainder_lines out1 ++ remainder_lines out2.
Proof. apply omap_app. Qed.

Lemma row_plates_rows (f : nat → Z) (l : list plateEntry) :
  row_plates (imap (λ i e, Print_Row (f i) (plate e) (makeModelName e)) l)
    = plate <$> l.
Proof.
  revert f. induction l as [|e l IH]; intros f; [done|].
  rewrite imap_cons. simpl. f_equal. apply (IH (f ∘ S)).
Qed.

Lemma remainder_lines_rows (f : nat → Z) (l : list plateEntry) :
  remainder_lines (imap (λ i e, Print_Row (f i) (plate e) (makeModelName e)) l)
    = [].
Proof.
  revert f. induction l as [|e l IH]; intros f; [done|].
  rewrite imap_cons. simpl. apply (IH (f ∘ S)).
Qed.

Lemma strongly_sorted_take {A} (R : relation A) (k : nat) (l : list A) :
  StronglySorted R l → StronglySorted R (take k l).
Proof.
  intros Hl. rewrite <- (take_drop k l) in Hl.
  by apply StronglySorted_app_1_l in Hl.
Qed.

(** X1: the summary of the map-based program, for every final registry: it
    is printed after what the console holds; the rows are the first
    identifiers of the registry in strictly ascending byte-wise order, at
    most 10 of them; the remainder line is printed exactly when the registry
    has more than 10 entries and states how many are not printed. *)
Lemma summary_of_registry (w : world) :
  let printed := summary (plates w) in
  out (displayResults w) = out w ++ printed ∧
  row_plates printed = take 10 (plate <$> sorted_entries (plates w)) ∧
  StronglySorted string_lt (plate <$> sorted_entries (plates w)) ∧
  (plate <$> sorted_entries (plates w)) ≡ₚ (map_to_list (plates w)).*1 ∧
  StronglySorted string_lt (row_plates printed) ∧
  length (row_plates printed) = (10 `min` size (plates w))%nat ∧
  remainder_lines printed =
    (if 10 <? Z.of_nat (size (plates w))
     then [Z.of_nat (size (plates w)) - 10] else []).
Proof.
  intros printed.
  assert (row_plates printed = take 10 (plate <$> sorted_entries (plates w)))
    as Hrows.
  { subst printed. unfold summary. simpl.
    rewrite row_plates_app, row_plates_rows, fmap_take.
    destruct (10 <? _); simpl; by rewrite app_nil_r. }
  assert (StronglySorted string_lt (plate <$> sorted_entries (plates w)))
    as Hsorted.
  { apply (StronglySorted_fmap plate
             (λ a b : plateEntry, string_lt (plate a) (plate b)) string_lt);
      [done | apply sorted_entries_strict]. }
  split; [by rewrite displayResults_summary|].
  split; [done|]. split; [done|].
  split; [by rewrite sorted_entries_perm, entries_of_plates|].
  split; [rewrite Hrows; by apply strongly_sorted_take|].
  split.
  - rewrite Hrows, length_take, length_fmap, sorted_entries_length. lia.
  - subst printed. unfold summary. simpl.
    rewrite remainder_lines_app, remainder_lines_rows, sorted_entries_length.
    by destruct (10 <? _).
Qed.

Lemma warnings_rows (f : nat → Z) (l : list plateEntry) :
  warnings (imap (λ i e, Print_Row (f i) (plate e) (makeModelName e)) l) = [].
Proof.
  revert f. induction l as [|e l IH]; intros f; [done|].
  rewrite imap_cons. unfold warnings. rewrite filter_cons_False by (simpl; auto).
  apply (IH (f ∘ S)).
Qed.

(** The summary holds no warning. *)
Lemma warnings_summary (m : gmap string string) : warnings (summary m) = [].
Proof.
  unfold summary. cbv zeta.
  change (Print_Header ?t :: ?rows ++ ?more) with ([Print_Header t] ++ rows ++ more).
  rewrite !warnings_app, warnings_rows. by destruct (10 <? _).
Qed.

(** ** Lower case *)

Lemma lower_byte_capital (a : ascii) :
  (65 ≤ N_of_ascii a ≤ 90)%N →
  N_of_ascii (lower_byte a) = (N_of_ascii a + 32)%N.
Proof.
  intros Ha. unfold lower_byte.
  replace ((65 <=? N_of_ascii a)%N && (N_of_ascii a <=? 90)%N) with true
    by (symmetry; apply andb_true_iff; split; apply N.leb_le; lia).
  apply N_ascii_embedding. lia.
Qed.

Lemma lower_byte_other (a : ascii) :
  ¬ (65 ≤ N_of_ascii a ≤ 90)%N → lower_byte a = a.
Proof.
  intros Ha. unfold lower_byte.
  destruct ((65 <=? N_of_ascii a)%N && (N_of_ascii a <=? 90)%N) eqn:Hcap;
    [|done].
  apply andb_true_iff in Hcap as [H1 H2].
  apply N.leb_le in H1, H2. lia.
Qed.

Lemma N_of_ascii_inj (a b : ascii) : N_of_ascii a = N_of_ascii b → a = b.
Proof.
  intros Hab. by rewrite <- (ascii_N_embedding a), <- (ascii_N_embedding b), Hab.
Qed.

(** Lowering a byte gives [b], which is no capital, exactly when the byte is
    [b] up to case. *)
Lemma lower_byte_same_letter (a b : ascii) :
  ¬ (65 ≤ N_of_ascii b ≤ 90)%N →
  lower_byte a = b ↔ same_letter a b.
Proof.
  intros Hb. unfold same_letter.
  destruct (decide (65 ≤ N_of_ascii a ≤ 90)%N) as [Ha|Ha].
  - pose proof (lower_byte_capital a Ha) as Hlow. split.
    + intros <-. right. left. by split.
    + intros [->|[[_ Hab]|[Hcap _]]]; [done| |done].
      apply N_of_ascii_inj. by rewrite Hlow.
  - rewrite (lower_byte_other a Ha). split; [by left|].
    intros [->|[[Hcap _]|[Hcap _]]]; done.
Qed.

(** The strings without a capital letter. *)
Lemma no_capital_ToLower (s : string) : no_capital (ToLower s).
Proof.
  induction s as [|a s IH]; [done|]. simpl. split; [|done].
  destruct (decide (65 ≤ N_of_ascii a ≤ 90)%N) as [Ha|Ha].
  - rewrite (lower_byte_capital a Ha). lia.
  - by rewrite (lower_byte_other a Ha).
Qed.

Lemma ToLower_fold_eq (s t : string) :
  no_capital t → ToLower s = t ↔ fold_eq s t.
Proof.
  revert t. induction s as [|a s IH]; intros [|b t] Ht; simpl; try done.
  destruct Ht as [Hb Ht]. rewrite <- (IH t Ht), <- (lower_byte_same_letter a b Hb).
  split; [by intros [= -> ->]|by intros [-> ->]].
Qed.

Lemma fold_eq_ToLower (s : string) : fold_eq s (ToLower s).
Proof. apply ToLower_fold_eq; [apply no_capital_ToLower|done]. Qed.

Lemma ToLower_append (s t : string) : ToLower (s +:+ t) = ToLower s +:+ ToLower t.
Proof.
  induction s as [|a s IH]; [done|]. rewrite append_cons. simpl.
  by rewrite append_cons, IH.
Qed.

Lemma ToLower_split (name a b : string) :
  ToLower name = a +:+ b →
  ∃ stem suffix, name = stem +:+ suffix ∧ ToLower stem = a ∧ ToLower suffix = b.
Proof.
  revert name. induction a as [|c a IH]; intros name Hname.
  { by exists "", name. }
  destruct name as [|d name]; [done|]. rewrite append_cons in Hname.
  simpl in Hname. injection Hname as Hd Hname.
  destruct (IH name Hname) as (stem & suffix & -> & Hstem & Hsuffix).
  exists (String d stem), suffix. split; [done|]. split; [|done].
  simpl. by rewrite Hd, Hstem.
Qed.

(** The test of [processZipFile] on a name, without the library: the name
    ends with ".xml" in any case. *)
Lemma HasSuffix_ToLower_fold (name ext : string) :
  no_capital ext →
  HasSuffix (ToLower name) ext = true ↔ ends_with_fold name ext.
Proof.
  intros Hext. rewrite HasSuffix_spec. unfold ends_with, ends_with_fold. split.
  - intros (stem' & Hname).
    destruct (ToLower_split name stem' ext Hname)
      as (stem & suffix & -> & _ & Hsuffix).
    exists stem, suffix. split; [done|]. by apply ToLower_fold_eq.
  - intros (stem & suffix & -> & Hsuffix). exists (ToLower stem).
    apply ToLower_fold_eq in Hsuffix; [|done].
    by rewrite ToLower_append, Hsuffix.
Qed.

Lemma is_ascii_ToLower (s : string) : is_ascii (ToLower s) = is_ascii s.
Proof.
  induction s as [|a s IH]; [done|]. simpl. rewrite IH. f_equal.
  destruct (decide (65 ≤ N_of_ascii a ≤ 90)%N) as [Ha|Ha].
  - rewrite (lower_byte_capital a Ha).
    apply eq_true_iff_eq. rewrite !N.ltb_lt. lia.
  - by rewrite (lower_byte_other a Ha).
Qed.

(** A string literal has no capital. *)
Local Ltac no_capitals := simpl; repeat split; lia.

(** The two cases of the switch of [processLocalFile] are tested on the
    byte-wise lower case.  When the library's lower case of a suffix with a
    byte outside ASCII is neither ".xml" nor ".zip", which holds of
    [strings.ToLower] on suffixes of four bytes, the tests on [ext] itself
    have the same answers. *)
Lemma switch_on_ext (unicode_ToLower : string → string) (suffix case : string) :
  is_ascii case = true →
  (is_ascii suffix = false → unicode_ToLower suffix ≠ case) →
  String.eqb (strings_ToLower unicode_ToLower suffix) case
    = String.eqb (ToLower suffix) case.
Proof.
  intros Hcase Hlibrary. unfold strings_ToLower.
  destruct (is_ascii suffix) eqn:Hascii; [done|].
  specialize (Hlibrary eq_refl). apply String.eqb_neq in Hlibrary.
  rewrite Hlibrary. symmetry. apply String.eqb_neq. intros Hlow.
  rewrite <- is_ascii_ToLower, Hlow in Hascii. congruence.
Qed.

(** ** The dispatch on local files *)

Section Dispatch.

Variable os_Open : string → error + xml.Decoder Statistik.
Variable zip_OpenReader : string → error + list (zip.File Statistik).
Variable unicode_ToLower : string → string.

Lemma processZipFile_opened zipPath File w :
  zip_OpenReader zipPath = inr File →
  processZipFile zip_OpenReader zipPath w =
    (None, Printf (Print_Success (foldl zip_member (0, w) File).1)
                  (foldl zip_member (0, w) File).2).
Proof.
  intros Hopen. unfold processZipFile. rewrite Hopen.
  by destruct (foldl zip_member (0, w) File).
Qed.

Lemma processLocalFile_short filePath w :
  len filePath < 4 →
  processLocalFile os_Open zip_OpenReader unicode_ToLower filePath w = Panic w.
Proof.
  intros Hlen. unfold processLocalFile, slice_from.
  replace (len filePath - 4 <? 0) with true by (symmetry; apply Z.ltb_lt; lia).
  done.
Qed.

Lemma processLocalFile_ext filePath :
  4 ≤ len filePath →
  ∃ stem suffix,
    filePath = stem +:+ suffix ∧ String.length suffix = 4%nat ∧
    slice_from filePath (len filePath - 4) = Some suffix.
Proof.
  intros Hlen. unfold slice_from, len in *.
  replace (_ <? 0) with false by (symmetry; apply Z.ltb_ge; lia).
  replace (_ <? _) with false by (symmetry; apply Z.ltb_ge; lia).
  simpl.
  destruct (drop_bytes_split
              (Z.to_nat (Z.of_nat (String.length filePath) - 4)) filePath)
    as (stem & Hs & Hstem); [lia|].
  exists stem, (drop_bytes (Z.to_nat (Z.of_nat (String.length filePath) - 4))
                           filePath).
  split; [done|]. split; [|done]. rewrite length_drop_bytes. lia.
Qed.

Lemma processLocalFile_zip filePath suffix w :
  slice_from filePath (len filePath - 4) = Some suffix →
  ToLower suffix = ".zip" →
  processLocalFile os_Open zip_OpenReader unicode_ToLower filePath w =
    Return (processZipFile zip_OpenReader filePath w).1
           (processZipFile zip_OpenReader filePath w).2.
Proof.
  intros Hs Hext. unfold processLocalFile. rewrite Hs, Hext. simpl.
  by destruct (processZipFile zip_OpenReader filePath w).
Qed.

Lemma processLocalFile_xml filePath suffix w :
  slice_from filePath (len filePath - 4) = Some suffix →
  ToLower suffix = ".xml" →
  processLocalFile os_Open zip_OpenReader unicode_ToLower filePath w =
    match os_Open filePath with
    | inl err => Return (Some (Wrapf "failed to open XML file" err)) w
    | inr file =>
      match (streamXML file w).1.2 with
      | Some err => Return (Some err) (streamXML file w).2
      | None => Return None (Printf (Print_Success (streamXML file w).1.1)
                                    (streamXML file w).2)
      end
    end.
Proof.
  intros Hs Hext. unfold processLocalFile. rewrite Hs, Hext. simpl.
  destruct (os_Open filePath) as [err|file]; [done|].
  by destruct (streamXML file w) as [[count [err|]] w'].
Qed.

Lemma processLocalFile_unsupported filePath suffix w :
  slice_from filePath (len filePath - 4) = Some suffix →
  ToLower suffix ≠ ".xml" → ToLower suffix ≠ ".zip" →
  processLocalFile os_Open zip_OpenReader unicode_ToLower filePath w =
    Return (Some (Errorf ("unsupported file type: "
                            +:+ strings_ToLower unicode_ToLower suffix
                            +:+ " (must be .xml or .zip)"))) w.
Proof.
  intros Hs Hxml Hzip. unfold processLocalFile. rewrite Hs.
  apply String.eqb_neq in Hxml, Hzip. by rewrite Hxml, Hzip.
Qed.

End Dispatch.

(** C9: [processLocalFile] decides what to do from the last four bytes of
    the path alone, whatever their case: a path of at least four bytes splits
    into a stem and a suffix of four bytes; when the suffix is ".xml" up to
    the case of its letters the file is opened and scanned, when it is ".zip"
    up to case the archive is processed, and for every other suffix the
    unsupported-file-type error is returned with the world unchanged.  The
    error shows the lower case of the suffix: for a suffix of ASCII bytes the
    string without capitals that equals it up to case, otherwise what the
    library makes of it.  On every path shorter than four bytes the slice
    expression is out of range and the call panics: it does not return, and
    in particular does not return the unsupported-file-type error. *)
Theorem local_file_dispatch
    (os_Open : string → error + xml.Decoder Statistik)
    (zip_OpenReader : string → error + list (zip.File Statistik))
    (unicode_ToLower : string → string)
    (filePath : string) (w : world) :
  let call :=
    processLocalFile os_Open zip_OpenReader unicode_ToLower filePath w in
  (len filePath < 4 → call = Panic w ∧ ∀ err w', call ≠ Return err w') ∧
  (4 ≤ len filePath →
   ∃ stem suffix ext,
     filePath = stem +:+ suffix ∧ String.length suffix = 4%nat ∧
     (fold_eq suffix ".xml" →
      call = match os_Open filePath with
             | inl err => Return (Some (Wrapf "failed to open XML file" err)) w
             | inr file =>
               match (streamXML file w).1.2 with
               | Some err => Return (Some err) (streamXML file w).2
               | None =>
                 Return None (Printf (Print_Success (streamXML file w).1.1)
                                     (streamXML file w).2)
               end
             end) ∧
     (fold_eq suffix ".zip" →
      call = Return (processZipFile zip_OpenReader filePath w).1
                    (processZipFile zip_OpenReader filePath w).2) ∧
     (¬ fold_eq suffix ".xml" → ¬ fold_eq suffix ".zip" →
      call = Return (Some (Errorf ("unsupported file type: " +:+ ext
                                     +:+ " (must be .xml or .zip)"))) w) ∧
     (is_ascii suffix = true → fold_eq suffix ext ∧ no_capital ext) ∧
     (is_ascii suffix = false → ext = unicode_ToLower suffix)).
Proof.
  intros call. subst call. split.
  - intros Hlen. rewrite processLocalFile_short by done. by split.
  - intros Hlen.
    destruct (processLocalFile_ext filePath Hlen) as (stem & suffix & Hp & Hl & Hs).
    exists stem, suffix, (strings_ToLower unicode_ToLower suffix).
    split; [done|]. split; [done|].
    split; [|split; [|split; [|split]]].
    + intros Hxml. apply ToLower_fold_eq in Hxml; [|no_capitals].
      by apply (processLocalFile_xml _ _ _ _ suffix).
    + intros Hzip. apply ToLower_fold_eq in Hzip; [|no_capitals].
      by apply (processLocalFile_zip _ _ _ _ suffix).
    + intros Hxml Hzip. apply processLocalFile_unsupported; [done| |].
      * intros Hlow. apply Hxml, ToLower_fold_eq; [no_capitals|done].
      * intros Hlow. apply Hzip, ToLower_fold_eq; [no_capitals|done].
    + intros Hascii. unfold strings_ToLower. rewrite Hascii.
      split; [apply fold_eq_ToLower|apply no_capital_ToLower].
    + intros Hascii. unfold strings_ToLower. by rewrite Hascii.
Qed.

(** The letters of the two strings are the same up to case. *)
Local Ltac same_letters :=
  simpl; repeat split;
  first [by left | right; left; by vm_compute | right; right; by vm_compute].

(** A path that is too short, and paths in capitals with another extension
    and with the extension of a markup file. *)
Lemma local_file_dispatch_witness :
  (len "zip" < 4 ∧
   processLocalFile (λ _, inl EOF) (λ _, inr []) (λ s, s) "zip" initial
     = Panic initial) ∧
  (4 ≤ len "NOTES.TXT" ∧ ¬ fold_eq ".TXT" ".xml" ∧ ¬ fold_eq ".TXT" ".zip" ∧
   processLocalFile (λ _, inl EOF) (λ _, inr []) (λ s, s) "NOTES.TXT" initial
     = Return (Some (Errorf "unsupported file type: .txt (must be .xml or .zip)"))
              initial) ∧
  (4 ≤ len "PLATES.XML" ∧ fold_eq ".XML" ".xml" ∧
   processLocalFile (λ _, inl (Errorf "no such file")) (λ _, inr []) (λ s, s)
                    "PLATES.XML" initial
     = Return (Some (Wrapf "failed to open XML file" (Errorf "no such file")))
              initial).
Proof.
  assert (¬ fold_eq ".TXT" ".xml") as Hxml.
  { intros (_ & [Heq|[[_ Heq]|[Hcap _]]] & _);
      [done | simpl in Heq; lia | simpl in Hcap; lia]. }
  assert (¬ fold_eq ".TXT" ".zip") as Hzip.
  { intros (_ & [Heq|[[_ Heq]|[Hcap _]]] & _);
      [done | simpl in Heq; lia | simpl in Hcap; lia]. }
  assert (fold_eq ".XML" ".xml") as Hxml' by same_letters.
  split; [|split].
  - split; [by vm_compute|].
    apply (local_file_dispatch (λ _, inl EOF) (λ _, inr []) (λ s, s)
                               "zip" initial).
    by vm_compute.
  - split; [by vm_compute|]. split; [done|]. split; [done|].
    destruct (proj2 (local_file_dispatch (λ _, inl EOF) (λ _, inr []) (λ s, s)
                       "NOTES.TXT" initial))
      as (stem & suffix & ext & Hp & Hl & _ & _ & Hu & Hext & _);
      [by vm_compute|].
    destruct (append_inj_length "NOTES" stem ".TXT" suffix Hp) as [_ <-];
      [done|].
    destruct (Hext eq_refl) as [Hfold Hlow].
    apply ToLower_fold_eq in Hfold; [|done]. subst ext.
    by apply Hu.
  - split; [by vm_compute|]. split; [done|].
    destruct (proj2 (local_file_dispatch (λ _, inl (Errorf "no such file"))
                       (λ _, inr []) (λ s, s) "PLATES.XML" initial))
      as (stem & suffix & ext & Hp & Hl & Hx & _); [by vm_compute|].
    destruct (append_inj_length "PLATES" stem ".XML" suffix Hp) as [_ <-];
      [done|].
    by apply Hx.
Defined.

(** A path on which the claim, as stated of characters, fails: it has three
    characters, of two bytes each, and the call does not panic; it returns
    the unsupported-file-type error for the last four bytes. *)
Lemma three_characters_no_panic :
  characters three_characters = 3 ∧ len three_characters = 6 ∧
  processLocalFile (λ _, inl EOF) (λ _, inr []) (λ s, s) three_characters
                   initial
    = Return (Some (Errorf ("unsupported file type: "
                              +:+ drop_bytes 2 three_characters
                              +:+ " (must be .xml or .zip)"))) initial ∧
  ¬ (∀ filePath,
       characters filePath < 4 →
       processLocalFile (λ _, inl EOF) (λ _, inr []) (λ s, s) filePath initial
         = Panic initial).
Proof.
  split; [reflexivity|]. split; [reflexivity|]. split; [reflexivity|].
  intros Hclaim. specialize (Hclaim three_characters eq_refl). done.
Qed.

(** ** Failures and the run as a whole *)

Lemma is_EOF_false err : err ≠ EOF → is_EOF err = false.
Proof. by destruct err. Qed.

Lemma is_EOF_true err : err = EOF → is_EOF err = true.
Proof. by intros ->. Qed.

Lemma slice_from_nonempty s suffix : slice_from s (len s - 4) = Some suffix → s ≠ "".
Proof. by intros Hs ->. Qed.

Lemma failed_record_Some (ev : xml.Token * (Statistik + error)) (err : error) :
  failed_record ev = Some err →
  ∃ Space, ev = (xml.StartElement Space "Statistik", inr err).
Proof.
  destruct ev as [[Space Local| | | | |] [stat|e]]; simpl; try done.
  destruct (String.eqb Local "Statistik") eqn:HLocal; [|done].
  apply String.eqb_eq in HLocal as ->. intros [= ->]. by exists Space.
Qed.

Lemma decode_warnings_failed tokens :
  decode_warnings tokens ≠ [] →
  ∃ (i : nat) Space err,
    tokens !! i = Some (xml.StartElement Space "Statistik", inr err).
Proof.
  unfold decode_warnings. intros Hfailed.
  destruct (omap failed_record tokens) as [|err errs] eqn:Herrs; [done|].
  assert (err ∈ omap failed_record tokens) as Hin by (rewrite Herrs; left).
  apply list_elem_of_omap in Hin as (ev & Hev & Herr).
  apply failed_record_Some in Herr as [Space ->].
  apply list_elem_of_lookup in Hev as [i Hi]. by exists i, Space, err.
Qed.

(** With the decoder of the library a stream has at most one decode
    failure, on its last token, and the stream then fails with its error. *)
Lemma sticky_decode_failure (reader : xml.Decoder Statistik) :
  sticky reader → decode_warnings (xml.tokens reader) ≠ [] →
  decode_warnings (xml.tokens reader) = [Log_DecodeWarning (xml.stop reader)] ∧
  xml.stop reader ≠ EOF.
Proof.
  destruct reader as [tokens stop]. unfold sticky. simpl. intros Hsticky Hfailed.
  destruct tokens as [|ev tokens _] using rev_ind; [done|].
  assert (decode_warnings tokens = []) as Hbefore.
  { destruct (decode_warnings tokens) as [|o os] eqn:Hwarnings; [done|].
    destruct (decode_warnings_failed tokens) as (i & Space & err & Hi);
      [by rewrite Hwarnings|].
    pose proof (lookup_lt_Some _ _ _ Hi) as Hlt.
    destruct (Hsticky i Space err) as [Hlast _];
      [by rewrite lookup_app_l|].
    rewrite length_app in Hlast. simpl in Hlast. lia. }
  rewrite decode_warnings_app, Hbefore in Hfailed |- *. simpl in Hfailed |- *.
  unfold decode_warnings in Hfailed |- *. simpl in Hfailed |- *.
  destruct (failed_record ev) as [err|] eqn:Hev; [|done].
  apply failed_record_Some in Hev as [Space ->].
  destruct (Hsticky (length tokens) Space err) as (_ & -> & Herr);
    [by rewrite lookup_app_r, Nat.sub_diag by lia|].
  done.
Qed.

(** C3: the parts of the claim on a failure of the token stream hold.
    (1) When the token stream fails, the scan returns the count of the
    records registered so far together with the wrapped stream error.
    (2) [processZipFile] then logs a warning for that member, keeps what the
    member registered, leaves its own count as it was and goes on with the
    remaining members; whatever its members do, an archive that opens makes
    [processZipFile] return no error.  The part on a failure to decode one
    record does not hold of the program.  (3) With the decoder of the
    library, an element on which decoding fails is logged with one warning,
    and the scan does not go on: the next token fails with the same error,
    so that the scan returns the stream error.  (4) A local archive whose
    single member holds three well-formed records followed by one malformed
    record makes the run print the count 0, where the claim has 3, and log
    two warnings, where the claim has one; the three records are in the
    registry and the run exits with status 0. *)
Theorem failures_while_scanning :
  (∀ reader w,
     xml.stop reader ≠ EOF →
     (streamXML reader w).1
       = (Z.of_nat (length (identified (xml.tokens reader))),
          Some (Wrapf "XML parse error" (xml.stop reader))) ∧
     plates (streamXML reader w).2
       = registered (plates w) (identified (xml.tokens reader))) ∧
  (∀ c w zipFile rc members,
     kept zipFile = true → zip.Open zipFile = inr rc → xml.stop rc ≠ EOF →
     let announced :=
       Printf (Print_Processing (zip.Name zipFile)
                 (zip.UncompressedSize64 zipFile)) w in
     foldl zip_member (c, w) (zipFile :: members) =
       foldl zip_member
         (c, Printf (Log_ProcessWarning (zip.Name zipFile)
                       (Wrapf "XML parse error" (xml.stop rc)))
                    (streamXML rc announced).2)
         members) ∧
  (∀ zip_OpenReader zipPath File w,
     zip_OpenReader zipPath = inr File →
     (processZipFile zip_OpenReader zipPath w).1 = None) ∧
  (∀ reader w,
     sticky reader → decode_warnings (xml.tokens reader) ≠ [] →
     warnings (out (streamXML reader w).2)
       = warnings (out w) ++ [Log_DecodeWarning (xml.stop reader)] ∧
     (streamXML reader w).1
       = (Z.of_nat (length (identified (xml.tokens reader))),
          Some (Wrapf "XML parse error" (xml.stop reader)))) ∧
  sticky three_and_one ∧
  length (identified (xml.tokens three_and_one)) = 3%nat ∧
  (let run := main (λ _, inl EOF) (λ _, inr [member_three_and_one]) (λ s, s)
                   (λ w, (None, w)) "data.zip" in
   run.1 = 0 ∧
   out run.2 =
     [Log_UsingLocalFile "data.zip";
      Print_Processing "ESStatistikListeModtag.XML" 4096;
      Log_DecodeWarning wrong_end_tag;
      Log_ProcessWarning "ESStatistikListeModtag.XML"
        (Wrapf "XML parse error" wrong_end_tag);
      Print_Success 0;
      Print_Header 3;
      Print_Row 1 "AB12345" "Toyota Corolla";
      Print_Row 2 "CD67890" "Volvo V60";
      Print_Row 3 "EF24680" "Ford Focus"] ∧
   length (warnings (out run.2)) = 2%nat ∧
   size (plates run.2) = 3%nat).
Proof.
  split.
  { intros reader w Hstop. split; [|apply streamXML_plates].
    apply injective_projections; simpl.
    - apply streamXML_count.
    - by rewrite streamXML_error, is_EOF_false. }
  split.
  { intros c w zipFile rc members Hkept Hopen Hstop announced.
    rewrite zip_members_cons, zip_member_kept by done.
    cbv zeta. rewrite Hopen. fold announced.
    by rewrite streamXML_error, is_EOF_false. }
  split.
  { intros zip_OpenReader zipPath File w Hopen.
    by rewrite (processZipFile_opened _ _ File). }
  split.
  { intros reader w Hsticky Hfailed.
    destruct (sticky_decode_failure reader Hsticky Hfailed) as [Hone Hstop].
    split.
    - by rewrite streamXML_world, scan_warnings, Hone.
    - apply injective_projections; simpl.
      + apply streamXML_count.
      + by rewrite streamXML_error, is_EOF_false. }
  split.
  { intros i Space err Hi.
    destruct i as [|[|[|[|i]]]]; simpl in Hi; try done.
    injection Hi as <- <-. by repeat split. }
  split; [reflexivity|].
  by repeat split.
Qed.

(** A stream that breaks after its first record, an archive whose first
    member breaks, and the stream of the scenario. *)
Lemma failures_while_scanning_witness :
  (streamXML broken_stream initial).1
    = (1, Some (Wrapf "XML parse error" (Errorf "unexpected EOF"))) ∧
  plates (foldl zip_member (0, initial) [member_broken; member_three_and_one]).2
    !! "AB12345" = Some "Toyota Corolla" ∧
  (foldl zip_member (0, initial) [member_broken; member_three_and_one]).1 = 0 ∧
  (streamXML three_and_one initial).1
    = (3, Some (Wrapf "XML parse error" wrong_end_tag)).
Proof.
  destruct failures_while_scanning
    as (Hstream & Hmember & _ & Hdecode & Hsticky & _).
  split; [apply (Hstream broken_stream initial); discriminate|].
  rewrite (Hmember 0 initial member_broken broken_stream
                   [member_three_and_one]);
    [|reflexivity|reflexivity|discriminate].
  split; [reflexivity|]. split; [reflexivity|].
  apply (Hdecode three_and_one initial Hsticky). discriminate.
Defined.

(** ** Selection of the newest archive *)

Lemma newer_zip_pick newest entry :
  newer_zip newest entry = pick is_zip_file newest entry.
Proof. reflexivity. Qed.

Lemma Autoplate_newer_zip_pick newest entry :
  Autoplate.newer_zip newest entry = pick is_named_zip_file newest entry.
Proof.
  unfold Autoplate.newer_zip, pick, is_named_zip_file, HasSuffix.
  destruct (ftp.is_file _); [|done]. simpl.
  destruct (4 <? len (ftp.Name entry)) eqn:Hlen; [|done]. simpl.
  apply Z.ltb_lt in Hlen.
  change (len ".zip") with 4.
  replace (4 <=? len (ftp.Name entry)) with true
    by (symmetry; apply Z.leb_le; lia).
  done.
Qed.

Lemma pick_fold survives step entries :
  (∀ newest entry, step newest entry = pick survives newest entry) →
  foldl step None entries = foldl (pick survives) None entries.
Proof.
  intros Hstep. generalize (@None ftp.Entry).
  induction entries as [|entry entries IH]; intros newest; [done|].
  simpl. by rewrite Hstep, IH.
Qed.

(** The loop returns the first-seen survivor among those with the greatest
    timestamp, and nothing exactly when nothing survives. *)
Lemma pick_newest_first_seen survives entries :
  newest_first_seen survives entries (foldl (pick survives) None entries).
Proof.
  induction entries as [|entry entries IH] using rev_ind.
  { simpl. intros entry Hin. by apply not_elem_of_nil in Hin. }
  rewrite foldl_app. simpl. unfold pick at 1.
  destruct (survives entry) eqn:Hentry.
  - destruct (foldl (pick survives) None entries) as [newest|]; simpl in *.
    + destruct IH as (i & Hi & Hnewest & Hmax).
      pose proof (lookup_lt_Some _ _ _ Hi) as Hlt.
      unfold ftp.After. destruct (ftp.Time newest <? ftp.Time entry) eqn:Hafter.
      * apply Z.ltb_lt in Hafter. exists (length entries).
        split; [by rewrite lookup_app_r, Nat.sub_diag by lia|].
        split; [done|]. intros j other Hj Hother.
        apply lookup_app_Some in Hj as [Hj|[Hge Hj]].
        -- destruct (Hmax j other Hj Hother) as [Hle _]. lia.
        -- apply list_lookup_singleton_Some in Hj as [_ <-]. lia.
      * apply Z.ltb_ge in Hafter. exists i.
        split; [by rewrite lookup_app_l by lia|].
        split; [done|]. intros j other Hj Hother.
        apply lookup_app_Some in Hj as [Hj|[Hge Hj]]; [by apply Hmax|].
        apply list_lookup_singleton_Some in Hj as [_ <-]. lia.
    + exists (length entries).
      split; [by rewrite lookup_app_r, Nat.sub_diag by lia|].
      split; [done|]. intros j other Hj Hother.
      apply lookup_app_Some in Hj as [Hj|[Hge Hj]].
      * apply list_elem_of_lookup_2 in Hj. apply IH in Hj. congruence.
      * apply list_lookup_singleton_Some in Hj as [_ <-]. lia.
  - destruct (foldl (pick survives) None entries) as [newest|]; simpl in *.
    + destruct IH as (i & Hi & Hnewest & Hmax).
      pose proof (lookup_lt_Some _ _ _ Hi) as Hlt. exists i.
      split; [by rewrite lookup_app_l by lia|].
      split; [done|]. intros j other Hj Hother.
      apply lookup_app_Some in Hj as [Hj|[Hge Hj]]; [by apply Hmax|].
      apply list_lookup_singleton_Some in Hj as [_ <-]. congruence.
    + intros other Hin. apply elem_of_app in Hin as [Hin|Hin]; [by apply IH|].
      apply list_elem_of_singleton in Hin as ->. done.
Qed.

Lemma newest_first_seen_None survives entries result :
  newest_first_seen survives entries result →
  result = None ↔ ¬ ∃ entry, entry ∈ entries ∧ survives entry = true.
Proof.
  destruct result as [entry|]; simpl.
  - intros (i & Hi & Hentry & _). split; [done|]. intros []. 
    exists entry. split; [|done]. by apply list_elem_of_lookup_2 in Hi.
  - intros Hnone. split; [|done]. intros _ (entry & Hin & Hentry).
    apply Hnone in Hin. congruence.
Qed.

Lemma is_zip_file_spec entry :
  is_zip_file entry = true ↔
  ftp.Type_ entry = ftp.EntryTypeFile ∧ ends_with (ftp.Name entry) ".zip".
Proof.
  unfold is_zip_file. rewrite andb_true_iff, HasSuffix_spec.
  destruct (ftp.Type_ entry); naive_solver.
Qed.

Lemma is_named_zip_file_spec entry :
  is_named_zip_file entry = true ↔
  ftp.Type_ entry = ftp.EntryTypeFile ∧ 4 < len (ftp.Name entry) ∧
  ends_with (ftp.Name entry) ".zip".
Proof.
  unfold is_named_zip_file.
  rewrite !andb_true_iff, HasSuffix_spec, Z.ltb_lt.
  destruct (ftp.Type_ entry); naive_solver.
Qed.

Lemma newestZip_pick entries :
  newestZip entries = foldl (pick is_zip_file) None entries.
Proof. apply pick_fold, newer_zip_pick. Qed.

Lemma Autoplate_newestZip_pick entries :
  Autoplate.newestZip entries = foldl (pick is_named_zip_file) None entries.
Proof. apply pick_fold, Autoplate_newer_zip_pick. Qed.

(** The loop of [main] in autoplate.go, for every listing: it selects in
    the same way among the files whose name ends with ".zip" and is longer
    than four bytes, and ends with the no-candidate error exactly when the
    listing has no such file. *)
Lemma Autoplate_newest_located (entries : list ftp.Entry) :
  (∀ entry, is_named_zip_file entry = true ↔
     ftp.Type_ entry = ftp.EntryTypeFile ∧ 4 < len (ftp.Name entry) ∧
     ends_with (ftp.Name entry) ".zip") ∧
  newest_first_seen is_named_zip_file entries (Autoplate.newestZip entries) ∧
  (Autoplate.locate entries = inl (Errorf "No zip files found in directory") ↔
   ¬ ∃ entry, entry ∈ entries ∧ ftp.Type_ entry = ftp.EntryTypeFile ∧
              4 < len (ftp.Name entry) ∧ ends_with (ftp.Name entry) ".zip") ∧
  (∀ entry, Autoplate.locate entries = inr entry ↔
            Autoplate.newestZip entries = Some entry).
Proof.
  pose proof (pick_newest_first_seen is_named_zip_file entries) as Hdb.
  rewrite <- Autoplate_newestZip_pick in Hdb.
  split; [apply is_named_zip_file_spec|]. split; [done|]. split.
  { unfold Autoplate.locate.
    pose proof (newest_first_seen_None _ _ _ Hdb) as Hnone.
    destruct (Autoplate.newestZip entries) as [entry|].
    - split; [done|]. intros Hno. exfalso.
      assert (Some entry ≠ None) as Hsome by done. apply Hsome, Hnone.
      intros (other & Hin & Hother). apply Hno. exists other.
      apply is_named_zip_file_spec in Hother. naive_solver.
    - split; [|done]. intros _ (other & Hin & Hother).
      apply (proj1 Hnone eq_refl). exists other. split; [done|].
      by apply is_named_zip_file_spec. }
  intros entry. unfold Autoplate.locate.
  destruct (Autoplate.newestZip entries); naive_solver.
Qed.

(** C2: for every remote listing, the loop of [downloadAndProcess] selects,
    among the entries of kind file whose name ends with ".zip" (bytes
    compared as they are), the one with the greatest modification time, the
    first seen of them when several carry it, and the no-candidate error is
    returned if and only if the listing has no file whose name ends with
    ".zip": the claim as it is stated.  The loop of [main] in autoplate.go
    does not do so: on the listing whose only entry is a file named ".zip",
    which the loop of [downloadAndProcess] selects, it finds no candidate
    and ends with the no-candidate error. *)
Theorem newest_archive_located (entries : list ftp.Entry) :
  (∀ entry, is_zip_file entry = true ↔
     ftp.Type_ entry = ftp.EntryTypeFile ∧ ends_with (ftp.Name entry) ".zip") ∧
  newest_first_seen is_zip_file entries (newestZip entries) ∧
  (locate entries = inl (Errorf "no zip files found in directory") ↔
   ¬ ∃ entry, entry ∈ entries ∧ ftp.Type_ entry = ftp.EntryTypeFile ∧
              ends_with (ftp.Name entry) ".zip") ∧
  (∀ entry, locate entries = inr entry ↔ newestZip entries = Some entry) ∧
  (dot_zip ∈ [dot_zip] ∧ ftp.Type_ dot_zip = ftp.EntryTypeFile ∧
   ends_with (ftp.Name dot_zip) ".zip" ∧
   locate [dot_zip] = inr dot_zip ∧
   Autoplate.locate [dot_zip]
     = inl (Errorf "No zip files found in directory")).
Proof.
  pose proof (pick_newest_first_seen is_zip_file entries) as Hmap.
  rewrite <- newestZip_pick in Hmap.
  split; [apply is_zip_file_spec|]. split; [done|]. split.
  { unfold locate.
    pose proof (newest_first_seen_None _ _ _ Hmap) as Hnone.
    destruct (newestZip entries) as [entry|].
    - split; [done|]. intros Hno. exfalso. 
      assert (Some entry ≠ None) as Hsome by done. apply Hsome, Hnone.
      intros (other & Hin & Hother). apply Hno. exists other.
      apply is_zip_file_spec in Hother. naive_solver.
    - split; [|done]. intros _ (other & Hin & Hother).
      apply (proj1 Hnone eq_refl). exists other. split; [done|].
      by apply is_zip_file_spec. }
  split.
  { intros entry. unfold locate. destruct (newestZip entries); naive_solver. }
  split; [by apply list_elem_of_singleton|]. split; [done|].
  split; [by exists ""|]. by split.
Qed.

(** ** The members of an archive that are processed *)

Lemma announced_app out1 out2 :
  announced (out1 ++ out2) = announced out1 ++ announced out2.
Proof. apply omap_app. Qed.

Lemma announced_milestone c w : announced (out (milestone c w)) = announced (out w).
Proof.
  unfold milestone. destruct (_ =? 0); [|done]. simpl.
  rewrite announced_app. simpl. apply app_nil_r.
Qed.

(** A scan announces no member. *)
Lemma scan_announced c w tokens :
  announced (out (foldl scan_token (c, w) tokens).2) = announced (out w).
Proof.
  revert c w. induction tokens as [|ev tokens IH]; intros c w; [done|].
  rewrite scan_cons.
  destruct (scan_token_cases c w ev)
    as [(stat & _ & _ & ->)|[(stat & _ & _ & ->)
       |[(e & _ & _ & ->)|(_ & _ & ->)]]]; rewrite IH; clear IH; try done.
  - by rewrite announced_milestone.
  - simpl. rewrite announced_app. simpl. apply app_nil_r.
Qed.

Lemma zip_member_announced c w zipFile :
  announced (out (zip_member (c, w) zipFile).2) =
    announced (out w) ++ (if kept zipFile then [zip.Name zipFile] else []).
Proof.
  destruct (kept zipFile) eqn:Hkept.
  - rewrite zip_member_kept by done. cbv zeta.
    destruct (zip.Open zipFile) as [err|rc].
    + simpl. rewrite !announced_app. simpl. by rewrite app_nil_r.
    + rewrite streamXML_world.
      destruct (streamXML rc _).1.2; simpl;
        rewrite ?announced_app, scan_announced; simpl;
        rewrite ?announced_app; simpl; by rewrite ?app_nil_r.
  - rewrite zip_member_skipped by done. simpl. by rewrite app_nil_r.
Qed.

Lemma zip_members_kept s File :
  foldl zip_member s File = foldl zip_member s (filter kept File).
Proof.
  revert s. induction File as [|zipFile File IH]; intros s; [done|].
  rewrite zip_members_cons. destruct (kept zipFile) eqn:Hkept.
  - rewrite filter_cons_True by (by apply Is_true_true).
    rewrite zip_members_cons. apply IH.
  - rewrite filter_cons_False by (by apply Is_true_false).
    rewrite zip_member_skipped by done. apply IH.
Qed.

Lemma zip_members_announced c w File :
  announced (out (foldl zip_member (c, w) File).2)
    = announced (out w) ++ (zip.Name <$> filter kept File).
Proof.
  revert c w. induction File as [|zipFile File IH]; intros c w.
  { simpl. by rewrite app_nil_r. }
  rewrite zip_members_cons.
  pose proof (zip_member_announced c w zipFile) as Hone.
  destruct (zip_member (c, w) zipFile) as [c' w']. rewrite IH. simpl in Hone.
  rewrite Hone. destruct (kept zipFile) eqn:Hkept.
  - rewrite filter_cons_True by (by apply Is_true_true).
    by rewrite <- app_assoc.
  - rewrite filter_cons_False by (by apply Is_true_false).
    by rewrite app_nil_r.
Qed.

Lemma foldl_step {A B} (f : A → B → A) (a : A) (x : B) (l : list B) :
  foldl f a (x :: l) = foldl f (f a x) l.
Proof. reflexivity. Qed.

Section AutoplateMembers.

Variable Now : Z → Z.

Lemma Autoplate_scan_token_announced c w ev :
  announced (Autoplate.out (Autoplate.scan_token Now (c, w) ev).2)
    = announced (Autoplate.out w).
Proof.
  unfold Autoplate.scan_token.
  destruct ev as [[sp name| | | | |] [vehicle|e]]; simpl; try done;
    destruct (String.eqb name "Vehicle"); try done.
  - destruct (String.eqb (Autoplate.Vehicle_LicensePlate vehicle) ""); [done|].
    simpl. unfold Autoplate.memdb.Insert. simpl.
    destruct (String.eqb (Autoplate.Vehicle_LicensePlate vehicle) "");
      destruct (Z.rem (c + 1) 1000 =? 0); simpl;
      rewrite ?announced_app; simpl; by rewrite ?app_nil_r.
  - simpl. rewrite announced_app. simpl. by rewrite app_nil_r.
Qed.

Lemma Autoplate_scan_announced c w tokens :
  announced (Autoplate.out (foldl (Autoplate.scan_token Now) (c, w) tokens).2)
    = announced (Autoplate.out w).
Proof.
  revert c w. induction tokens as [|ev tokens IH]; intros c w; [done|].
  rewrite foldl_step.
  pose proof (Autoplate_scan_token_announced c w ev) as Hone.
  destruct (Autoplate.scan_token Now (c, w) ev) as [c' w'].
  by rewrite IH.
Qed.

Lemma Autoplate_zip_member_directory s (zipFile : zip.File Autoplate.Vehicle) :
  no_directory zipFile = false → Autoplate.zip_member Now s zipFile = s.
Proof.
  unfold no_directory, Autoplate.zip_member. destruct s as [c w].
  by destruct (zip.IsDir zipFile).
Qed.

Lemma Autoplate_zip_member_processed c w (zipFile : zip.File Autoplate.Vehicle) :
  no_directory zipFile = true →
  Autoplate.zip_member Now (c, w) zipFile =
    let w := Autoplate.Printf (Print_Processing (zip.Name zipFile)
                                 (zip.UncompressedSize64 zipFile)) w in
    match zip.Open zipFile with
    | inl err =>
      (c, Autoplate.Printf (Log_OpenWarning (zip.Name zipFile) err) w)
    | inr decoder =>
      let s := foldl (Autoplate.scan_token Now) (c, w) (xml.tokens decoder) in
      if is_EOF (xml.stop decoder) then s
      else (s.1, Autoplate.Printf
                   (Log_ParseWarning (zip.Name zipFile) (xml.stop decoder)) s.2)
    end.
Proof.
  unfold no_directory, Autoplate.zip_member.
  destruct (zip.IsDir zipFile); [done|]. intros _. cbv zeta.
  destruct (zip.Open zipFile) as [err|decoder]; [done|].
  destruct (foldl _ _ _) as [c' w']. by destruct (is_EOF _).
Qed.

Lemma Autoplate_zip_member_announced c w (zipFile : zip.File Autoplate.Vehicle) :
  announced (Autoplate.out (Autoplate.zip_member Now (c, w) zipFile).2) =
    announced (Autoplate.out w)
      ++ (if no_directory zipFile then [zip.Name zipFile] else []).
Proof.
  destruct (no_directory zipFile) eqn:Hkept.
  - rewrite Autoplate_zip_member_processed by done. cbv zeta.
    destruct (zip.Open zipFile) as [err|decoder].
    + simpl. rewrite !announced_app. simpl. by rewrite app_nil_r.
    + pose proof (Autoplate_scan_announced c
                    (Autoplate.Printf (Print_Processing (zip.Name zipFile)
                                         (zip.UncompressedSize64 zipFile)) w)
                    (xml.tokens decoder)) as Hscan.
      destruct (foldl _ _ _) as [c' w']. simpl in Hscan.
      destruct (is_EOF _); simpl; rewrite ?announced_app, Hscan;
        rewrite ?announced_app; simpl; by rewrite ?app_nil_r.
  - rewrite Autoplate_zip_member_directory by done. simpl. by rewrite app_nil_r.
Qed.

Lemma Autoplate_zip_members_kept s (File : list (zip.File Autoplate.Vehicle)) :
  foldl (Autoplate.zip_member Now) s File
    = foldl (Autoplate.zip_member Now) s (filter no_directory File).
Proof.
  revert s. induction File as [|zipFile File IH]; intros s; [done|].
  rewrite foldl_step. destruct (no_directory zipFile) eqn:Hkept.
  - rewrite filter_cons_True by (by apply Is_true_true).
    rewrite foldl_step. apply IH.
  - rewrite filter_cons_False by (by apply Is_true_false).
    rewrite Autoplate_zip_member_directory by done. apply IH.
Qed.

Lemma Autoplate_zip_members_announced c w (File : list (zip.File Autoplate.Vehicle)) :
  announced (Autoplate.out (foldl (Autoplate.zip_member Now) (c, w) File).2)
    = announced (Autoplate.out w) ++ (zip.Name <$> filter no_directory File).
Proof.
  revert c w. induction File as [|zipFile File IH]; intros c w.
  { simpl. by rewrite app_nil_r. }
  rewrite foldl_step.
  pose proof (Autoplate_zip_member_announced c w zipFile) as Hone.
  destruct (Autoplate.zip_member Now (c, w) zipFile) as [c' w']. rewrite IH.
  simpl in Hone. rewrite Hone. destruct (no_directory zipFile) eqn:Hkept.
  - rewrite filter_cons_True by (by apply Is_true_true).
    by rewrite <- app_assoc.
  - rewrite filter_cons_False by (by apply Is_true_false).
    by rewrite app_nil_r.
Qed.

End AutoplateMembers.

Lemma kept_markup (zipFile : zip.File Statistik) :
  kept zipFile = true ↔
  zip.IsDir zipFile = false ∧ ends_with_fold (zip.Name zipFile) ".xml".
Proof.
  unfold kept, markup_member.
  rewrite andb_true_iff, negb_true_iff, HasSuffix_ToLower_fold; [done|].
  simpl. repeat split; lia.
Qed.

(** C4: for every archive, [processZipFile] processes (announces, opens and
    scans) exactly the members that are no directory and whose name ends
    with ".xml" in any case, in archive order, and the other members change
    nothing: the claim as it is stated.  In both programs a member that is
    to be processed and fails to open is skipped with a warning: the count
    and the registry stay as they were and the loop goes on with the next
    member.  [processZipStream] of autoplate.go does not skip the members
    with another name: the member "notes.txt", which [processZipFile] leaves
    out, is announced and scanned, and the plate it holds is committed. *)
Theorem archive_members_processed :
  (∀ c w File,
     foldl zip_member (c, w) File = foldl zip_member (c, w) (filter kept File) ∧
     announced (out (foldl zip_member (c, w) File).2)
       = announced (out w) ++ (zip.Name <$> filter kept File)) ∧
  (∀ zipFile,
     kept zipFile = true ↔
     zip.IsDir zipFile = false ∧ ends_with_fold (zip.Name zipFile) ".xml") ∧
  (∀ c w zipFile rc,
     kept zipFile = true → zip.Open zipFile = inr rc →
     plates (zip_member (c, w) zipFile).2
       = registered (plates w) (identified (xml.tokens rc))) ∧
  (∀ c w zipFile err members,
     kept zipFile = true → zip.Open zipFile = inl err →
     foldl zip_member (c, w) (zipFile :: members) =
       foldl zip_member
         (c, Printf (Log_OpenWarning (zip.Name zipFile) err)
               (Printf (Print_Processing (zip.Name zipFile)
                          (zip.UncompressedSize64 zipFile)) w))
         members) ∧
  (∀ Now c w (zipFile : zip.File Autoplate.Vehicle) err members,
     no_directory zipFile = true → zip.Open zipFile = inl err →
     foldl (Autoplate.zip_member Now) (c, w) (zipFile :: members) =
       foldl (Autoplate.zip_member Now)
         (c, Autoplate.Printf (Log_OpenWarning (zip.Name zipFile) err)
               (Autoplate.Printf
                  (Print_Processing (zip.Name zipFile)
                     (zip.UncompressedSize64 zipFile)) w))
         members) ∧
  (zip.IsDir notes_txt = false ∧ ¬ ends_with_fold (zip.Name notes_txt) ".xml" ∧
   zip.Name notes_txt_records = zip.Name notes_txt ∧
   processZipFile (λ _, inr [notes_txt_records]) "data.zip" initial
     = (None, {| plates := ∅; out := [Print_Success 0] |}) ∧
   Autoplate.processZipStream (λ _, 0) (inr [notes_txt]) ∅ [] =
     (None,
      {[ "AB12345" := {| Autoplate.Plate := "AB12345";
                         Autoplate.Timestamp := 0 |} ]},
      [Print_Processing "notes.txt" 64; Print_Success 1])).
Proof.
  split.
  { intros c w File. split; [apply zip_members_kept | apply zip_members_announced]. }
  split; [apply kept_markup|].
  split.
  { intros c w zipFile rc Hkept Hopen. rewrite zip_member_kept by done.
    cbv zeta. rewrite Hopen.
    destruct (streamXML rc _).1.2 eqn:Herr; simpl; by rewrite streamXML_plates. }
  split.
  { intros c w zipFile err members Hkept Hopen.
    rewrite zip_members_cons, zip_member_kept by done. cbv zeta.
    by rewrite Hopen. }
  split.
  { intros Now c w zipFile err members Hkept Hopen.
    rewrite foldl_step, Autoplate_zip_member_processed by done. cbv zeta.
    by rewrite Hopen. }
  split; [done|]. split.
  { intros Hname. apply HasSuffix_ToLower_fold in Hname; [done|].
    simpl. repeat split; lia. }
  by repeat split.
Qed.

(** An archive whose first member fails to open, in both programs, and a
    member with its extension in capitals, which is processed. *)
Lemma archive_members_processed_witness :
  foldl zip_member (0, initial) [member_unreadable; member_three_and_one] =
    foldl zip_member
      (0, Printf (Log_OpenWarning "damaged.xml" (Errorf "zip: checksum error"))
            (Printf (Print_Processing "damaged.xml" 7) initial))
      [member_three_and_one] ∧
  plates (zip_member (0, initial) member_three_and_one).2
    = registered ∅ (identified (xml.tokens three_and_one)) ∧
  foldl (Autoplate.zip_member (λ _, 0)) (0, Autoplate.World ∅ [])
        [vehicles_unreadable; notes_txt] =
    foldl (Autoplate.zip_member (λ _, 0))
      (0, Autoplate.Printf
            (Log_OpenWarning "damaged.xml" (Errorf "zip: checksum error"))
            (Autoplate.Printf (Print_Processing "damaged.xml" 7)
               (Autoplate.World ∅ [])))
      [notes_txt].
Proof.
  destruct archive_members_processed as (_ & _ & Hscan & Hopen & Hopen' & _).
  split; [|split].
  - apply (Hopen 0 initial member_unreadable (Errorf "zip: checksum error")
                 [member_three_and_one]); reflexivity.
  - apply (Hscan 0 initial member_three_and_one three_and_one); reflexivity.
  - apply (Hopen' (λ _, 0) 0 (Autoplate.World ∅ []) vehicles_unreadable
                  (Errorf "zip: checksum error") [notes_txt]); reflexivity.
Defined.

(** ** The progress wrapper *)

(** C8: the progress wrapper is purely observational.  For every wrapped
    reader and every buffer, the result of the wrapper's [Read] (the count,
    the buffer after the call, the error) is the result of the wrapped
    reader's [Read] on that buffer, and the wrapped reader is advanced by
    exactly that one call; the same holds for every sequence of reads. *)
Theorem progress_reader_observational {R} `{Reader R}
    (pr : ProgressReader R) (p : list Byte.byte) (ps : list (list Byte.byte)) :
  (ProgressReader_Read pr p).1.1 = (Read (reader pr) p).1 ∧
  reader (ProgressReader_Read pr p).1.2 = (Read (reader pr) p).2 ∧
  total (ProgressReader_Read pr p).1.2 = total pr ∧
  (relay pr ps).1.1 = (reads (reader pr) ps).1 ∧
  reader (relay pr ps).1.2 = (reads (reader pr) ps).2.
Proof.
  assert (∀ (pr : ProgressReader R) r n,
            reader (account pr r n).1 = r ∧ total (account pr r n).1 = total pr)
    as Haccount.
  { intros pr' r n. unfold account.
    destruct (0 <? total pr'); [|done]. by destruct (lastPrint pr' <? _). }
  assert (∀ (pr : ProgressReader R) p,
            (ProgressReader_Read pr p).1.1 = (Read (reader pr) p).1 ∧
            reader (ProgressReader_Read pr p).1.2 = (Read (reader pr) p).2 ∧
            total (ProgressReader_Read pr p).1.2 = total pr) as Hone.
  { intros pr' p'. unfold ProgressReader_Read.
    destruct (Read (reader pr') p') as [res r].
    pose proof (Haccount pr' r (n res)) as [Hr Ht].
    by destruct (account pr' r (n res)) as [pr1 printed]. }
  destruct (Hone pr p) as (H1 & H2 & H3).
  split; [done|]. split; [done|]. split; [done|].
  clear H1 H2 H3. revert pr.
  induction ps as [|p0 ps IH]; intros pr; [done|].
  simpl. destruct (Hone pr p0) as (H1 & H2 & _).
  destruct (ProgressReader_Read pr p0) as [[res pr1] printed].
  destruct (Read (reader pr) p0) as [res0 r1]. simpl in H1, H2. subst.
  destruct (IH pr1) as [H1 H2].
  destruct (relay pr1 ps) as [[ress pr2] printed'].
  destruct (reads (reader pr1) ps) as [ress0 r2]. simpl in *. by subst.
Qed.

Lemma account_counters {R} (pr pr' : ProgressReader R) (r r' : R) (n : Z) :
  same_counters pr pr' →
  (account pr r n).2 = (account pr' r' n).2 ∧
  same_counters (account pr r n).1 (account pr' r' n).1 ∧
  reader (account pr r n).1 = r.
Proof.
  intros (Ht & Hc & Hl). unfold account, same_counters. rewrite Ht, Hc, Hl.
  destruct (0 <? total pr'); [|by repeat split].
  destruct (lastPrint pr' <? _); by repeat split.
Qed.

Lemma accounted_counters {R} (counts : list Z) (pr pr' : ProgressReader R) :
  same_counters pr pr' →
  (accounted pr counts).2 = (accounted pr' counts).2 ∧
  same_counters (accounted pr counts).1 (accounted pr' counts).1.
Proof.
  revert pr pr'. induction counts as [|n counts IH]; intros pr pr' Hsame; [done|].
  simpl.
  destruct (account_counters pr pr' (reader pr) (reader pr') n Hsame)
    as (Hp & Hsame' & _).
  destruct (account pr (reader pr) n) as [pr1 printed1].
  destruct (account pr' (reader pr') n) as [pr1' printed1'].
  simpl in Hp, Hsame'. destruct (IH pr1 pr1' Hsame') as [Hp' Hsame''].
  destruct (accounted pr1 counts) as [pr2 printed2].
  destruct (accounted pr1' counts) as [pr2' printed2'].
  simpl in *. by subst.
Qed.

(** What a sequence of reads prints is the accounting of the counts that
    the wrapped reader returns. *)
Lemma relay_accounted {R} `{Reader R}
    (pr : ProgressReader R) (ps : list (list Byte.byte)) :
  let counts := n <$> (reads (reader pr) ps).1 in
  (relay pr ps).2 = (accounted pr counts).2 ∧
  same_counters (relay pr ps).1.2 (accounted pr counts).1.
Proof.
  revert pr. induction ps as [|p ps IH]; intros pr; [done|].
  simpl. unfold ProgressReader_Read.
  destruct (Read (reader pr) p) as [res r] eqn:Hread.
  destruct (account_counters pr pr r (reader pr) (n res)) as (Hp & Hsame & Hr);
    [done|].
  destruct (account pr r (n res)) as [pr1 printed1].
  simpl in Hr. subst r.
  specialize (IH pr1).
  destruct (relay pr1 ps) as [[ress pr2] printed2].
  destruct (reads (reader pr1) ps) as [ress0 r2]. simpl in IH |- *.
  destruct (account pr (reader pr) (n res)) as [pr1' printed1'].
  simpl in Hp, Hsame. subst printed1'.
  change (list_fmap ReadResult Z n ress0) with (n <$> ress0).
  destruct (accounted_counters (n <$> ress0) pr1 pr1' Hsame) as [Hp' Hsame'].
  destruct (accounted pr1 (n <$> ress0)) as [pr3 printed3].
  destruct (accounted pr1' (n <$> ress0)) as [pr3' printed3'].
  simpl in *. destruct IH as [-> IH]. subst. split; [done|].
  unfold same_counters in *. naive_solver congruence.
Qed.

Lemma percentages_app out1 out2 :
  percentages (out1 ++ out2) = percentages out1 ++ percentages out2.
Proof. apply omap_app. Qed.

Lemma accounted_cons {R} (pr : ProgressReader R) (n : Z) (counts : list Z) :
  accounted pr (n :: counts) =
    ((accounted (account pr (reader pr) n).1 counts).1,
     (account pr (reader pr) n).2
       ++ (accounted (account pr (reader pr) n).1 counts).2).
Proof.
  change (accounted pr (n :: counts))
    with (let '(pr1, printed) := account pr (reader pr) n in
          let '(pr2, printed') := accounted pr1 counts in
          (pr2, printed ++ printed')).
  destruct (account pr (reader pr) n) as [pr1 printed]. simpl.
  by destruct (accounted pr1 counts).
Qed.

(** One read: the total is kept, the last printed percentage never
    decreases, and a line is printed only with a percentage above it. *)
Lemma account_step {R} (pr : ProgressReader R) (r : R) (n : Z) :
  total (account pr r n).1 = total pr ∧
  current (account pr r n).1 = add64 (current pr) n ∧
  ((account pr r n).2 = [] ∧ lastPrint (account pr r n).1 = lastPrint pr ∨
   ∃ pc, (account pr r n).2
           = [Print_Downloading pc (add64 (current pr) n) (total pr)] ∧
         lastPrint (account pr r n).1 = pc ∧ lastPrint pr < pc ∧ 0 < total pr ∧
         pc = div64 (mul64 (add64 (current pr) n) 100) (total pr)).
Proof.
  unfold account. destruct (0 <? total pr) eqn:Htotal; [|by auto].
  apply Z.ltb_lt in Htotal.
  destruct (lastPrint pr <? _) eqn:Hpc; [|by auto].
  apply Z.ltb_lt in Hpc. split; [done|]. split; [done|]. right.
  eexists. by repeat split.
Qed.

(** The printed percentages rise strictly, from above the value the wrapper
    starts with; every printed line is a progress line. *)
Lemma accounted_rising {R} (counts : list Z) (pr : ProgressReader R) :
  Forall (λ pc, lastPrint pr < pc) (percentages (accounted pr counts).2) ∧
  StronglySorted Z.lt (percentages (accounted pr counts).2) ∧
  lastPrint pr ≤ lastPrint (accounted pr counts).1 ∧
  length (percentages (accounted pr counts).2)
    = length (accounted pr counts).2 ∧
  total (accounted pr counts).1 = total pr.
Proof.
  revert pr. induction counts as [|n counts IH]; intros pr.
  { simpl. repeat split; try constructor. lia. }
  rewrite accounted_cons. simpl.
  destruct (account_step pr (reader pr) n) as (Ht & _ & Hstep).
  destruct (IH (account pr (reader pr) n).1) as (Habove & Hsorted & Hle & Hlen & Ht').
  rewrite percentages_app, length_app, length_app, Hlen, Ht', Ht.
  destruct Hstep as [[-> Hlast]|(pc & -> & Hlast & Hpc & _)]; simpl.
  - rewrite Hlast in Habove, Hle. by repeat split.
  - rewrite Hlast in Habove, Hle. repeat split; try done; try lia.
    + constructor; [done|]. eapply Forall_impl; [exact Habove|].
      simpl. intros; lia.
    + by constructor.
Qed.

(** With a total size that is zero or unknown nothing is printed. *)
Lemma accounted_unknown {R} (counts : list Z) (pr : ProgressReader R) :
  total pr ≤ 0 → (accounted pr counts).2 = [].
Proof.
  revert pr. induction counts as [|n counts IH]; intros pr Htotal; [done|].
  rewrite accounted_cons. simpl.
  destruct (account_step pr (reader pr) n) as (Ht & _ & Hstep).
  rewrite IH by lia.
  destruct Hstep as [[-> _]|(pc & _ & _ & _ & Hpos & _)]; [done | lia].
Qed.

Lemma total_count_cons n counts : total_count (n :: counts) = n + total_count counts.
Proof. reflexivity. Qed.

Lemma total_count_nonneg counts : Forall (λ n, 0 ≤ n) counts → 0 ≤ total_count counts.
Proof.
  induction 1 as [|n counts Hn _ IH]; [done|]. rewrite total_count_cons. lia.
Qed.

(** Within the 64-bit range the computed percentage is the quotient
    truncated toward zero; it is the floor of the quotient when it is
    positive, and it exceeds a non-negative value exactly when the floor
    does. *)
Lemma percent_in_range (current n total_size last : Z) :
  0 < total_size → 0 ≤ last → percent_fits (current + n) →
  add64 current n = current + n ∧
  (last <? div64 (mul64 (add64 current n) 100) total_size)
    = (last <? ((current + n) * 100) `div` total_size) ∧
  (last < div64 (mul64 (add64 current n) 100) total_size →
   div64 (mul64 (add64 current n) 100) total_size
     = ((current + n) * 100) `div` total_size).
Proof.
  intros Ht Hl Hrange. unfold percent_fits, min_int64, max_int64 in Hrange.
  assert (add64 current n = current + n) as ->.
  { unfold add64. apply wrap64_id. unfold min_int64, max_int64. lia. }
  split; [done|]. unfold div64, mul64.
  rewrite (wrap64_id ((current + n) * 100))
    by (unfold min_int64, max_int64; lia).
  destruct (decide (0 ≤ (current + n) * 100)) as [Hpos|Hneg].
  - rewrite Z.quot_div_nonneg by lia.
    pose proof (Z.div_pos ((current + n) * 100) total_size ltac:(lia) Ht).
    pose proof (Z.div_le_upper_bound ((current + n) * 100) total_size
                  ((current + n) * 100) Ht ltac:(nia)).
    rewrite wrap64_id by (unfold min_int64, max_int64; lia). done.
  - assert (Z.quot ((current + n) * 100) total_size ≤ 0) as Hq
      by (apply Z.quot_le_upper_bound; lia).
    assert (- 2 ^ 63 ≤ Z.quot ((current + n) * 100) total_size) as Hq'.
    { rewrite <- (Z.opp_involutive ((current + n) * 100)).
      rewrite Z.quot_opp_l by lia.
      assert (Z.quot (- ((current + n) * 100)) total_size ≤ 2 ^ 63)
        by (apply Z.quot_le_upper_bound; [done | nia]).
      lia. }
    rewrite wrap64_id by (unfold min_int64, max_int64; lia).
    assert (((current + n) * 100) `div` total_size < 0) as Hd
      by (apply Z.div_lt_upper_bound; lia).
    split; [|lia].
    apply eq_true_iff_eq. rewrite !Z.ltb_lt. lia.
Qed.

(** Within the 64-bit range the wrapper prints what the specification says. *)
Lemma accounted_notified {R} (counts : list Z) (pr : ProgressReader R) :
  0 < total pr → 0 ≤ lastPrint pr →
  Forall percent_fits (running (current pr) counts) →
  percentages (accounted pr counts).2
    = notified (total pr) (current pr) (lastPrint pr) counts ∧
  current (accounted pr counts).1 = current pr + total_count counts.
Proof.
  revert pr. induction counts as [|n counts IH]; intros pr Ht Hl Hrange.
  { simpl. change (total_count []) with 0. split; [done | lia]. }
  simpl running in Hrange. apply Forall_cons in Hrange as [Hn Hrange].
  destruct (percent_in_range (current pr) n (total pr) (lastPrint pr))
    as (Hadd & Hlt & Hdiv); [done..|].
  rewrite accounted_cons, total_count_cons. simpl.
  destruct (account_step pr (reader pr) n) as (Ht' & Hc' & Hstep).
  rewrite Hadd in Hc'.
  replace (0 <? total pr) with true by (symmetry; apply Z.ltb_lt; lia).
  rewrite <- Hlt.
  destruct Hstep as [[Hnone Hlast]|(pc & Hone & Hlast & Hpc & _ & Heq)].
  - destruct (IH (account pr (reader pr) n).1) as [IHp IHc];
      [lia | lia | by rewrite Hc' |].
    rewrite percentages_app, IHp, IHc, Ht', Hc', Hnone, Hlast. simpl.
    split; [|lia].
    destruct (lastPrint pr <? _) eqn:Hb; [|done].
    exfalso. revert Hnone. unfold account.
    replace (0 <? total pr) with true by (symmetry; apply Z.ltb_lt; lia).
    by rewrite Hb.
  - destruct (IH (account pr (reader pr) n).1) as [IHp IHc];
      [lia | lia | by rewrite Hc' |].
    rewrite percentages_app, IHp, IHc, Ht', Hc', Hone, Hlast. simpl.
    split; [|lia]. subst pc.
    replace (lastPrint pr <? _) with true by (symmetry; apply Z.ltb_lt; lia).
    by rewrite Heq, Hdiv by lia.
Qed.

(** Counts that are not negative keep the running total within the range
    when the whole transfer does. *)
Lemma running_fits (counts : list Z) (current : Z) :
  0 ≤ current → Forall (λ n, 0 ≤ n) counts →
  100 * (current + total_count counts) ≤ max_int64 →
  Forall percent_fits (running current counts).
Proof.
  revert current. induction counts as [|n counts IH];
    intros current Hc Hcounts Hrange; [constructor|].
  apply Forall_cons in Hcounts as [Hn Hcounts].
  pose proof (total_count_nonneg counts Hcounts) as Hsum.
  rewrite total_count_cons in Hrange. simpl. constructor.
  - unfold percent_fits, min_int64, max_int64 in *. lia.
  - apply IH; [lia | done | lia].
Qed.

Lemma running_app (current : Z) (counts1 counts2 : list Z) :
  running current (counts1 ++ counts2)
    = running current counts1
        ++ running (current + total_count counts1) counts2.
Proof.
  revert current. induction counts1 as [|n counts1 IH]; intros current.
  { change (total_count []) with 0. by rewrite Z.add_0_r. }
  rewrite <- app_comm_cons. cbn [running app].
  rewrite IH, total_count_cons. by rewrite Z.add_assoc.
Qed.

(** The wrapper remembers the last percentage it printed. *)
Lemma accounted_last {R} (counts : list Z) (pr : ProgressReader R) :
  lastPrint (accounted pr counts).1
    = default (lastPrint pr) (last (percentages (accounted pr counts).2)).
Proof.
  revert pr. induction counts as [|n counts IH]; intros pr; [done|].
  rewrite accounted_cons. simpl. rewrite IH, percentages_app.
  destruct (account_step pr (reader pr) n)
    as (_ & _ & [[-> ->]|(pc & -> & -> & _)]); [done|].
  simpl. rewrite last_cons. by destruct (last _).
Qed.

(** C5, as the code has it: for every sequence of reads relayed through the
    wrapper made for a declared total [size], the printed percentages rise
    strictly (so they never decrease and no value is printed twice), they
    are above 0, and nothing but progress lines is printed; when the total is
    zero or negative nothing is printed; and when the total is positive and
    one hundred times the running total of the bytes read stays an [int64],
    the printed percentages are those of the specification, and the read
    that follows prints [floor(current * 100 / total)] exactly when it
    strictly exceeds the last printed value, 0 standing for that value
    before the first line. *)
Theorem progress_notifications {R} `{Reader R}
    (resp : R) (size : Z) (ps : list (list Byte.byte)) (p : list Byte.byte) :
  let counts := n <$> (reads resp ps).1 in
  let relayed := relay (NewProgressReader resp size) ps in
  let printed := relayed.2 in
  StronglySorted Z.lt (percentages printed) ∧
  Forall (λ pc, 0 < pc) (percentages printed) ∧
  length (percentages printed) = length printed ∧
  (size ≤ 0 → printed = []) ∧
  (0 < size → Forall percent_fits (running 0 counts) →
   percentages printed = notified size 0 0 counts) ∧
  (let next := n (Read (reader relayed.1.2) p).1 in
   let last_printed := default 0 (last (percentages printed)) in
   let percent := ((total_count counts + next) * 100) `div` size in
   0 < size → Forall percent_fits (running 0 (counts ++ [next])) →
   (ProgressReader_Read relayed.1.2 p).2 =
     if last_printed <? percent
     then [Print_Downloading percent (total_count counts + next) size]
     else []).
Proof.
  intros counts relayed printed. subst printed relayed.
  destruct (relay_accounted (NewProgressReader resp size) ps)
    as [Hprinted (Htotal & Hcurrent & Hlast)].
  rewrite Hprinted. simpl reader in *. fold counts in Htotal, Hcurrent, Hlast |- *.
  destruct (accounted_rising counts (NewProgressReader resp size))
    as (Habove & Hsorted & Hle & Hlen & Ht).
  split; [done|]. split; [done|]. split; [done|]. split.
  { intros Hsize. by apply accounted_unknown. }
  split.
  { intros Hsize Hrange.
    by destruct (accounted_notified counts (NewProgressReader resp size)). }
  intros next last_printed percent Hsize Hrange.
  rewrite running_app in Hrange. apply Forall_app in Hrange as [Hrange Hnext].
  simpl in Hnext. apply Forall_cons in Hnext as [Hnext _].
  rewrite Z.add_0_l in Hnext.
  destruct (accounted_notified counts (NewProgressReader resp size))
    as [_ Hsum]; [done..|]. simpl in Hsum. rewrite Z.add_0_l in Hsum.
  pose proof (accounted_last counts (NewProgressReader resp size)) as Hremembered.
  simpl in Hremembered, Ht, Hle. fold last_printed in Hremembered.
  set (pr := (relay (NewProgressReader resp size) ps).1.2) in *.
  rewrite Ht in Htotal. rewrite Hsum in Hcurrent. rewrite Hremembered in Hlast.
  unfold ProgressReader_Read. subst next.
  destruct (Read (reader pr) p) as [res r]. simpl fst in *.
  destruct (percent_in_range (current pr) (n res) (total pr) (lastPrint pr))
    as (Hadd & Hlt & Hdiv); [lia | lia | by rewrite Hcurrent |].
  unfold account. rewrite Hadd, Htotal, Hcurrent, Hlast in *.
  replace (0 <? size) with true by (symmetry; apply Z.ltb_lt; lia).
  rewrite Hlt. fold percent in Hdiv |- *.
  destruct (last_printed <? percent) eqn:Hrise; [|done].
  simpl. rewrite Hdiv; [done|].
  apply Z.ltb_lt. by rewrite Hlt.
Qed.

(** A transfer of 1000 bytes in four reads. *)
Lemma progress_notifications_witness :
  let ps := [replicate 300 Byte.x00; replicate 300 Byte.x00;
             replicate 5 Byte.x00; replicate 395 Byte.x00] in
  percentages (relay (NewProgressReader Endless 1000) ps).2 = [30; 60; 100] ∧
  (relay (NewProgressReader Endless 0) ps).2 = [].
Proof.
  intros ps.
  destruct (progress_notifications Endless 1000 ps []) as (_ & _ & _ & _ & Hspec & _).
  destruct (progress_notifications Endless 0 ps []) as (_ & _ & _ & Hzero & _).
  split.
  - rewrite Hspec; [reflexivity | done |].
    repeat constructor; by vm_compute.
  - apply Hzero. done.
Defined.

(** *** Beyond the 64-bit range *)

Lemma accounted_app {R} (pr : ProgressReader R) (counts1 counts2 : list Z) :
  accounted pr (counts1 ++ counts2) =
    ((accounted (accounted pr counts1).1 counts2).1,
     (accounted pr counts1).2 ++ (accounted (accounted pr counts1).1 counts2).2).
Proof.
  revert pr. induction counts1 as [|n counts1 IH]; intros pr.
  { simpl. by destruct (accounted pr counts2). }
  rewrite <- app_comm_cons, !accounted_cons, IH. simpl.
  by rewrite app_assoc.
Qed.

(** Once one hundred times the bytes read has left the 64-bit range (and
    while it stays below [2^64]), the computed percentage is not positive
    and nothing more is printed. *)
Lemma accounted_silent {R} (counts : list Z) (pr : ProgressReader R) :
  0 < total pr → 0 ≤ lastPrint pr → 0 ≤ current pr →
  Forall (λ n, 0 ≤ n ∧ max_int64 < 100 * (current pr + n)) counts →
  100 * (current pr + total_count counts) < 2 ^ 64 →
  (accounted pr counts).2 = [].
Proof.
  revert pr. induction counts as [|n counts IH];
    intros pr Ht Hl Hc Hcounts Hrange; [done|].
  apply Forall_cons in Hcounts as [[Hn Hover] Hcounts].
  rewrite total_count_cons in Hrange.
  assert (0 ≤ total_count counts) as Hsum.
  { apply total_count_nonneg. eapply Forall_impl; [exact Hcounts|].
    simpl. intros; lia. }
  rewrite accounted_cons. simpl.
  destruct (account_step pr (reader pr) n) as (Ht' & Hc' & Hstep).
  assert (add64 (current pr) n = current pr + n) as Hadd.
  { apply wrap64_id. unfold min_int64, max_int64 in *. lia. }
  rewrite Hadd in Hc', Hstep.
  destruct Hstep as [[-> Hlast]|(pc & _ & _ & Hpc & _ & Heq)].
  - simpl. apply IH; [lia | lia | lia | | rewrite Hc'; lia].
    rewrite Hc'. eapply Forall_impl; [exact Hcounts|]. simpl. intros; lia.
  - exfalso. unfold div64, mul64 in Heq.
    rewrite (wrap64_high ((current pr + n) * 100)) in Heq
      by (unfold max_int64 in *; lia).
    assert (Z.quot ((current pr + n) * 100 - 2 ^ 64) (total pr) ≤ 0) as Hq.
    { apply Z.quot_le_upper_bound; [done|]. unfold max_int64 in *. lia. }
    assert (- 2 ^ 63 ≤ Z.quot ((current pr + n) * 100 - 2 ^ 64) (total pr))
      as Hq'.
    { rewrite <- (Z.opp_involutive ((current pr + n) * 100 - 2 ^ 64)).
      rewrite Z.quot_opp_l by lia.
      pose proof (Z.quot_le_upper_bound
                    (- ((current pr + n) * 100 - 2 ^ 64)) (total pr) (2 ^ 63) Ht)
        as Hup.
      unfold max_int64 in *. 
      assert (Z.quot (- ((current pr + n) * 100 - 2 ^ 64)) (total pr) ≤ 2 ^ 63)
        by (apply Hup; nia).
      lia. }
    rewrite wrap64_id in Heq by (unfold min_int64, max_int64; lia).
    lia.
Qed.

Lemma percent_mono (size a b : Z) :
  0 < size → a ≤ b → (a * 100) `div` size ≤ (b * 100) `div` size.
Proof. intros Hs Hab. apply Z.div_le_mono; lia. Qed.

(** In the words of the specification a rise of the percentage is notified. *)
Lemma notified_nonempty (counts : list Z) (size current last : Z) :
  0 < size → (current * 100) `div` size ≤ last →
  last < ((current + total_count counts) * 100) `div` size →
  notified size current last counts ≠ [].
Proof.
  intros Hs. revert current last.
  induction counts as [|n counts IH]; intros current last Hinv Hrise.
  { unfold total_count in Hrise. simpl in Hrise. rewrite Z.add_0_r in Hrise. lia. }
  rewrite total_count_cons in Hrise. simpl.
  replace (0 <? size) with true by (symmetry; apply Z.ltb_lt; lia).
  destruct (last <? ((current + n) * 100) `div` size) eqn:Hlt; [done|].
  apply Z.ltb_ge in Hlt. apply IH; [done|].
  by rewrite <- Z.add_assoc.
Qed.

Lemma notified_app_nonempty (counts1 counts2 : list Z) (size current last : Z) :
  0 < size → Forall (λ n, 0 ≤ n) counts1 →
  (current * 100) `div` size ≤ last →
  last ≤ ((current + total_count counts1) * 100) `div` size →
  ((current + total_count counts1) * 100) `div` size
    < ((current + total_count counts1 + total_count counts2) * 100) `div` size →
  ∃ more, more ≠ [] ∧
    notified size current last (counts1 ++ counts2)
      = notified size current last counts1 ++ more.
Proof.
  intros Hs. revert current last.
  induction counts1 as [|n counts1 IH]; intros current last Hcounts Hinv Hle Hrise.
  { change (total_count []) with 0 in Hle, Hrise.
    rewrite Z.add_0_r in Hle, Hrise.
    exists (notified size current last counts2). split; [|done].
    apply notified_nonempty; [done | done | lia]. }
  apply Forall_cons in Hcounts as [Hn Hcounts].
  pose proof (total_count_nonneg counts1 Hcounts) as Hsum.
  rewrite total_count_cons in Hle, Hrise.
  rewrite Z.add_assoc in Hle, Hrise.
  pose proof (percent_mono size (current + n) (current + n + total_count counts1)
                Hs ltac:(lia)) as Hmono.
  simpl.
  replace (0 <? size) with true by (symmetry; apply Z.ltb_lt; lia).
  destruct (last <? ((current + n) * 100) `div` size) eqn:Hlt.
  - destruct (IH (current + n) (((current + n) * 100) `div` size))
      as (more & Hmore & ->); [done | lia | lia | lia |].
    by exists more.
  - apply Z.ltb_ge in Hlt.
    destruct (IH (current + n) last) as (more & Hmore & ->);
      [done | lia | lia | lia |].
    by exists more.
Qed.

Lemma total_count_replicate (k : nat) (chunk : Z) :
  total_count (replicate k chunk) = chunk * Z.of_nat k.
Proof.
  induction k as [|k IH]; [simpl; unfold total_count; simpl; lia|].
  change (replicate (S k) chunk) with (chunk :: replicate k chunk).
  rewrite total_count_cons, IH. lia.
Qed.

(** Reads of [chunk] bytes each: [k1] of them stay within the 64-bit range,
    the next one leaves it, and the percentage rises during the [k2] that
    follow.  The wrapper then prints less than the specification says. *)
Lemma overflow_divergence {R} (resp : R) (size chunk : Z) (k1 k2 : nat) :
  0 < size → 0 ≤ chunk →
  100 * (chunk * Z.of_nat k1) ≤ max_int64 →
  max_int64 < 100 * (chunk * Z.of_nat k1 + chunk) →
  100 * (chunk * Z.of_nat k1 + chunk * Z.of_nat k2) < 2 ^ 64 →
  ((chunk * Z.of_nat k1) * 100) `div` size
    < ((chunk * Z.of_nat k1 + chunk * Z.of_nat k2) * 100) `div` size →
  percentages (accounted (NewProgressReader resp size)
                 (replicate (k1 + k2) chunk)).2
    ≠ notified size 0 0 (replicate (k1 + k2) chunk).
Proof.
  intros Hsize Hchunk Hin Hcross Hbelow Hrise.
  set (pr0 := NewProgressReader resp size).
  assert (Forall (λ n, 0 ≤ n) (replicate k1 chunk)) as Hcounts1
    by by apply Forall_replicate.
  destruct (accounted_notified (replicate k1 chunk) pr0) as [Hfirst Hcurrent];
    [done | done | |].
  { apply running_fits; [done | done |].
    rewrite total_count_replicate; simpl; lia. }
  destruct (accounted_rising (replicate k1 chunk) pr0)
    as (_ & _ & Hlast & _ & Htotal).
  rewrite total_count_replicate in Hcurrent. simpl in Hcurrent, Hlast, Htotal.
  assert ((accounted (accounted pr0 (replicate k1 chunk)).1
             (replicate k2 chunk)).2 = []) as Hsilent.
  { apply accounted_silent.
    - by rewrite Htotal.
    - done.
    - rewrite Hcurrent. nia.
    - apply Forall_replicate. rewrite Hcurrent. split; [done | lia].
    - rewrite Hcurrent, total_count_replicate. lia. }
  destruct (notified_app_nonempty (replicate k1 chunk) (replicate k2 chunk)
              size 0 0) as (more & Hmore & Hspec).
  - done.
  - done.
  - by rewrite Z.div_0_l by lia.
  - rewrite total_count_replicate. apply Z.div_pos; nia.
  - rewrite !total_count_replicate. by rewrite !Z.add_0_l.
  - rewrite replicate_add, accounted_app. simpl snd.
    rewrite percentages_app, Hsilent, Hfirst, Hspec. simpl.
    intros Heq. rewrite app_nil_r in Heq.
    rewrite <- (app_nil_r (notified size 0 0 (replicate k1 chunk))) in Heq at 1.
    apply app_inv_head in Heq. by apply Hmore.
Qed.

Lemma reads_endless (k : nat) (p : list Byte.byte) :
  n <$> (reads Endless (replicate k p)).1 = replicate k (Z.of_nat (length p)).
Proof.
  induction k as [|k IH]; [done|].
  rewrite !replicate_S.
  change (reads Endless (p :: replicate k p))
    with (let '(ress, r2) := reads Endless (replicate k p) in
          ({| n := Z.of_nat (length p); p' := p; err := None |} :: ress, r2)).
  destruct (reads Endless (replicate k p)) as [ress r2].
  cbn [fst] in IH |- *. rewrite fmap_cons. by rewrite IH.
Qed.

(** A sequence of reads on which the claim fails: a transfer of
    93 000 000 000 000 000 bytes, declared as 10^17 bytes, in reads of
    32768 bytes.  After 2 814 749 767 106 reads [current * 100] exceeds the
    greatest [int64]; the product wraps around to a negative number, so 93 is
    never printed although the floor of [current * 100 / total] reaches it. *)
Lemma progress_lost_beyond_int64 :
  let p := replicate (N.to_nat 32768) Byte.x00 in
  let ps := replicate (N.to_nat 2814749767106 + N.to_nat 23384998519) p in
  let counts := n <$> (reads Endless ps).1 in
  Forall (λ n, n = 32768) counts ∧
  percentages (relay (NewProgressReader Endless (10 ^ 17)) ps).2
    ≠ notified (10 ^ 17) 0 0 counts.
Proof.
  intros p ps counts.
  assert (counts = replicate (N.to_nat 2814749767106 + N.to_nat 23384998519)
                             32768) as Hcounts.
  { subst counts ps. rewrite reads_endless. subst p.
    by rewrite length_replicate, N_nat_Z. }
  split.
  { rewrite Hcounts. by apply Forall_replicate. }
  destruct (relay_accounted (NewProgressReader Endless (10 ^ 17)) ps) as [-> _].
  simpl reader. fold counts. rewrite Hcounts.
  apply overflow_divergence; rewrite ?N_nat_Z; by vm_compute.
Qed.

(** ** The printed summary of autoplate.go *)

Lemma print_plates_spec (plates : list string) (i total_plates : Z)
    (console : list output) :
  0 ≤ i ≤ 9 →
  Autoplate.print_plates i total_plates plates console =
    console
      ++ imap (λ k plate, Print_Plate (i + Z.of_nat k + 1) plate)
              (take (Z.to_nat (10 - i)) plates)
      ++ (if 10 - i <=? Z.of_nat (length plates)
          then [Print_More (total_plates - 10)] else []).
Proof.
  revert i console. induction plates as [|plate plates IH]; intros i console Hi.
  { simpl. rewrite take_nil. simpl.
    replace (10 - i <=? Z.of_nat 0) with false
      by (symmetry; apply Z.leb_gt; lia).
    by rewrite app_nil_r. }
  simpl Autoplate.print_plates.
  replace (Z.to_nat (10 - i)) with (S (Z.to_nat (10 - (i + 1)))) by lia.
  rewrite firstn_cons, imap_cons.
  replace (10 - i <=? Z.of_nat (length (plate :: plates)))
    with (10 - (i + 1) <=? Z.of_nat (length plates))
    by (simpl length; apply eq_true_iff_eq; rewrite !Z.leb_le; lia).
  destruct (9 <=? i) eqn:Hlast.
  - apply Z.leb_le in Hlast. assert (i = 9) as -> by lia.
    simpl.
    replace (10 - (9 + 1) <=? Z.of_nat (length plates)) with true
      by (symmetry; apply Z.leb_le; lia).
    by rewrite <- app_assoc.
  - apply Z.leb_gt in Hlast. rewrite IH by lia.
    rewrite <- app_assoc. simpl. rewrite Z.add_0_r. do 3 f_equal.
    apply imap_ext. intros k p _. simpl. f_equal. lia.
Qed.

Lemma row_plates_plates (f : nat → Z) (l : list string) :
  row_plates (imap (λ k plate, Print_Plate (f k) plate) l) = l ∧
  remainder_lines (imap (λ k plate, Print_Plate (f k) plate) l) = [].
Proof.
  revert f. induction l as [|plate l IH]; intros f; [done|].
  rewrite imap_cons. destruct (IH (f ∘ S)) as [Hrows Hmore].
  split; [simpl; f_equal; exact Hrows | exact Hmore].
Qed.

(** The summary of autoplate.go, for every table: the rows are the first
    plates in ascending order, at most 10 of them; the remainder line is
    printed as soon as the table has 10 plates. *)
Lemma Autoplate_summary (db : gmap string Autoplate.LicensePlate) :
  let plates := sort_Slice less ((λ kv, Autoplate.Plate kv.2) <$> map_to_list db) in
  let printed := Autoplate.displayResults db [] in
  row_plates printed = take 10 plates ∧
  length plates = size db ∧
  remainder_lines printed =
    (if 10 <=? Z.of_nat (size db) then [Z.of_nat (size db) - 10] else []).
Proof.
  intros plates printed. subst printed. unfold Autoplate.displayResults.
  fold plates.
  assert (length plates = size db) as Hlen.
  { subst plates. unfold sort_Slice. rewrite merge_sort_Permutation.
    by rewrite length_fmap, length_map_to_list. }
  rewrite print_plates_spec by lia. simpl app.
  change (Print_Header ?t :: ?rows ++ ?more)
    with ([Print_Header t] ++ rows ++ more).
  rewrite !row_plates_app, !remainder_lines_app.
  destruct (row_plates_plates (λ k, 0 + Z.of_nat k + 1)
              (take (Z.to_nat (10 - 0)) plates)) as [-> ->].
  rewrite Hlen. change (Z.to_nat (10 - 0)) with 10%nat. simpl.
  change (10 - 0) with 10.
  split; [|split; [done|]]; destruct (10 <=? Z.of_nat (size db));
    simpl; by rewrite ?app_nil_r.
Qed.

(** C7 at a table of exactly ten plates, in autoplate.go: the ten rows are
    printed in ascending order and are followed by the remainder line
    "... and 0 more", although no entry is left unprinted. *)
Theorem ten_plates_remainder_line :
  size ten_plates = 10%nat ∧
  Autoplate.displayResults ten_plates [] =
    [Print_Header 10;
     Print_Plate 1 "P00"; Print_Plate 2 "P01"; Print_Plate 3 "P02";
     Print_Plate 4 "P03"; Print_Plate 5 "P04"; Print_Plate 6 "P05";
     Print_Plate 7 "P06"; Print_Plate 8 "P07"; Print_Plate 9 "P08";
     Print_Plate 10 "P09";
     Print_More 0].
Proof. split; reflexivity. Qed.

(** The map-based program on a registry with the same ten identifiers
    prints the ten rows and no remainder line. *)
Example ten_entries_no_remainder_line :
  let w := {| plates := (λ _, "Volvo V60") <$> ten_plates; out := [] |} in
  row_plates (out (displayResults w))
    = ["P00"; "P01"; "P02"; "P03"; "P04"; "P05"; "P06"; "P07"; "P08"; "P09"] ∧
  remainder_lines (out (displayResults w)) = [].
Proof. split; reflexivity. Qed.

(** * Further properties of the two programs *)

(** ** What the summaries show *)

Lemma elem_of_summary_row (m : gmap string string) (i : Z) (p d : string) :
  Print_Row i p d ∈ summary m ↔
  ∃ k : nat, (k < 10)%nat ∧ i = Z.of_nat k + 1 ∧
    sorted_entries m !! k = Some {| plate := p; makeModelName := d |}.
Proof.
  unfold summary. cbv zeta.
  rewrite elem_of_cons, elem_of_app, list_elem_of_lookup.
  split.
  - intros [Hhead|[(k & Hk)|Hmore]]; [done| |by destruct (10 <? _);
      [apply list_elem_of_singleton in Hmore|apply not_elem_of_nil in Hmore]].
    rewrite list_lookup_imap in Hk.
    destruct (take 10 (sorted_entries m) !! k) as [e|] eqn:He; [|done].
    simpl in Hk. injection Hk as <- <- <-.
    apply lookup_take_Some in He as [He Hlt].
    exists k. split; [done|]. split; [done|]. by destruct e.
  - intros (k & Hlt & -> & Hk). right. left. exists k.
    rewrite list_lookup_imap, lookup_take_lt by done. by rewrite Hk.
Qed.

(** X2: each row of the summary of the map-based program is numbered from
    1 to 10, and the row numbered [i] shows the identifier at place [i] of
    the registry's identifiers in ascending order, with the description that
    the registry holds for it; conversely each of the first ten places has
    its row. *)
Theorem summary_rows (w : world) (i : Z) (p d : string) :
  Print_Row i p d ∈ summary (plates w) ↔
  1 ≤ i ≤ 10 ∧ plates w !! p = Some d ∧
  (plate <$> sorted_entries (plates w)) !! Z.to_nat (i - 1) = Some p.
Proof.
  rewrite elem_of_summary_row. split.
  - intros (k & Hlt & -> & Hk). split; [lia|].
    assert ({| plate := p; makeModelName := d |} ∈ sorted_entries (plates w))
      as Hin by by apply list_elem_of_lookup_2 in Hk.
    apply sorted_entries_lookup in Hin. simpl in Hin. split; [done|].
    replace (Z.to_nat (Z.of_nat k + 1 - 1)) with k by lia.
    by rewrite list_lookup_fmap, Hk.
  - intros (Hi & Hd & Hk). exists (Z.to_nat (i - 1)).
    split; [lia|]. split; [lia|].
    rewrite list_lookup_fmap in Hk.
    destruct (sorted_entries (plates w) !! Z.to_nat (i - 1)) as [e|] eqn:He;
      [|done].
    simpl in Hk. injection Hk as <-.
    assert (e ∈ sorted_entries (plates w)) as Hin
      by by apply list_elem_of_lookup_2 in He.
    apply sorted_entries_lookup in Hin. rewrite Hd in Hin.
    injection Hin as ->. by destruct e.
Qed.

Lemma indexed_plates (db : gmap string Autoplate.LicensePlate) :
  indexed db →
  (λ kv : string * Autoplate.LicensePlate, Autoplate.Plate kv.2) <$> map_to_list db
    = (map_to_list db).*1.
Proof.
  intros Hdb. apply list_fmap_ext. intros k [key obj] Hk. simpl.
  apply list_elem_of_lookup_2, elem_of_map_to_list in Hk. by apply Hdb.
Qed.

Lemma sorted_plates_strict (db : gmap string Autoplate.LicensePlate) :
  indexed db →
  StronglySorted string_lt (sorted_plates db) ∧
  sorted_plates db ≡ₚ (map_to_list db).*1.
Proof.
  intros Hdb. unfold sorted_plates, sort_Slice.
  assert (merge_sort (not_after less)
            ((λ kv : string * Autoplate.LicensePlate, Autoplate.Plate kv.2)
               <$> map_to_list db) ≡ₚ (map_to_list db).*1) as Hperm.
  { by rewrite merge_sort_Permutation, indexed_plates. }
  split; [|done].
  apply (sorted_distinct_strict (λ p : string, p)).
  - apply (StronglySorted_merge_sort (not_after less)).
  - rewrite list_fmap_id, Hperm. apply NoDup_fst_map_to_list.
Qed.

(** X3: the summary of autoplate.go, for every table that respects its
    unique index: after the header, which states the number of plates, the
    rows are the first plates in strictly ascending byte-wise order, numbered
    from 1, at most 10 of them, and they are followed by the remainder line,
    which states the number of plates less 10, exactly when the table holds
    at least 10 plates. *)
Theorem Autoplate_displayResults_rows
    (db : gmap string Autoplate.LicensePlate) (console : list output) :
  indexed db →
  StronglySorted string_lt (sorted_plates db) ∧
  sorted_plates db ≡ₚ (map_to_list db).*1 ∧
  Autoplate.displayResults db console =
    console ++ [Print_Header (Z.of_nat (size db))]
      ++ imap (λ k p, Print_Plate (Z.of_nat k + 1) p) (take 10 (sorted_plates db))
      ++ (if 10 <=? Z.of_nat (size db)
          then [Print_More (Z.of_nat (size db) - 10)] else []).
Proof.
  intros Hdb. destruct (sorted_plates_strict db Hdb) as [Hsorted Hperm].
  split; [done|]. split; [done|].
  unfold Autoplate.displayResults. fold (sorted_plates db).
  assert (length (sorted_plates db) = size db) as ->.
  { by rewrite Hperm, length_fmap, length_map_to_list. }
  rewrite print_plates_spec by lia. rewrite <- app_assoc.
  change (Z.to_nat (10 - 0)) with 10%nat. change (10 - 0) with 10.
  assert (length (sorted_plates db) = size db) as ->.
  { by rewrite Hperm, length_fmap, length_map_to_list. }
  do 2 f_equal.
Qed.

(** The table of ten plates. *)
Lemma Autoplate_displayResults_rows_witness :
  indexed ten_plates ∧
  Autoplate.displayResults ten_plates [] =
    [Print_Header 10]
      ++ imap (λ k p, Print_Plate (Z.of_nat k + 1) p)
              (take 10 (sorted_plates ten_plates))
      ++ [Print_More 0].
Proof.
  assert (indexed ten_plates) as Hdb.
  { intros key obj Hobj.
    assert ((key, obj) ∈ map_to_list ten_plates) as Hin
      by by apply elem_of_map_to_list.
    vm_compute in Hin.
    repeat (apply elem_of_cons in Hin as [[= -> ->]|Hin]; [done|]).
    by apply not_elem_of_nil in Hin. }
  split; [done|].
  apply (Autoplate_displayResults_rows ten_plates [] Hdb).
Defined.

(** ** A whole archive *)

Lemma registered_app m records1 records2 :
  registered m (records1 ++ records2) = registered (registered m records1) records2.
Proof. unfold registered. apply foldl_app. Qed.

Lemma zip_member_effect c w zipFile :
  (zip_member (c, w) zipFile).1 = c + member_count zipFile ∧
  plates (zip_member (c, w) zipFile).2
    = registered (plates w) (member_records zipFile) ∧
  warnings (out (zip_member (c, w) zipFile).2)
    = warnings (out w) ++ member_warnings zipFile.
Proof.
  unfold member_count, member_records, member_warnings.
  destruct (kept zipFile) eqn:Hkept.
  - rewrite zip_member_kept by done. cbv zeta.
    destruct (zip.Open zipFile) as [err|rc].
    + simpl. rewrite !warnings_app. simpl.
      split; [lia|]. split; [done|]. by rewrite app_nil_r.
    + rewrite streamXML_error.
      destruct (is_EOF (xml.stop rc)); simpl;
        rewrite ?warnings_app, streamXML_plates, streamXML_world, scan_warnings,
                ?streamXML_count; simpl; rewrite ?warnings_app; simpl;
        rewrite ?app_nil_r, <- ?app_assoc; (split; [lia|]); by split.
  - rewrite zip_member_skipped by done. simpl.
    split; [lia|]. split; [done|]. by rewrite app_nil_r.
Qed.

Lemma zip_members_effect c w File :
  (foldl zip_member (c, w) File).1 = c + sum_Z (member_count <$> File) ∧
  plates (foldl zip_member (c, w) File).2
    = registered (plates w) (File ≫= member_records) ∧
  warnings (out (foldl zip_member (c, w) File).2)
    = warnings (out w) ++ (File ≫= member_warnings).
Proof.
  revert c w. induction File as [|zipFile File IH]; intros c w.
  { simpl. split; [unfold sum_Z; simpl; lia|]. split; [done|].
    by rewrite app_nil_r. }
  rewrite zip_members_cons.
  destruct (zip_member_effect c w zipFile) as (Hc & Hp & Hw).
  destruct (zip_member (c, w) zipFile) as [c' w']. simpl in Hc, Hp, Hw.
  destruct (IH c' w') as (-> & -> & ->).
  rewrite Hc, Hp, Hw. rewrite !bind_cons, registered_app, fmap_cons.
  split; [unfold sum_Z; simpl; lia|]. split; [done|]. by rewrite app_assoc.
Qed.

(** X4: for every archive that opens, [processZipFile] returns no error;
    the registry receives, in archive order, the records of every member
    that is no directory, has a name ending with ".xml" in any case and
    opens, including the records that precede the stream error of a member
    that breaks; the last line printed is the success line, and its count
    adds up the members scanned to their end only: a member that breaks adds
    nothing to it.  When the archive does not open, the wrapped error is
    returned and nothing is registered or printed. *)
Theorem archive_registry_and_count
    (File : list (zip.File Statistik)) (zipPath : string) (w : world) (err : error) :
  let done := processZipFile (λ _, inr File) zipPath w in
  done.1 = None ∧
  plates done.2 = registered (plates w) (File ≫= member_records) ∧
  last (out done.2) = Some (Print_Success (sum_Z (member_count <$> File))) ∧
  processZipFile (λ _, inl err) zipPath w
    = (Some (Wrapf "failed to open zip file" err), w).
Proof.
  intros done. subst done.
  rewrite (processZipFile_opened _ zipPath File w) by done.
  destruct (zip_members_effect 0 w File) as (Hc & Hp & _).
  simpl. rewrite Hc, Hp, last_snoc. by rewrite Z.add_0_l.
Qed.

(** X5: every skip is logged.  The warnings that [processZipFile] logs are,
    member by member in archive order: one warning for a member that fails
    to open; for a member that is scanned, one warning for each record
    element that fails to decode, followed by one warning if its stream
    breaks; none for the members that are skipped by kind or name. *)
Theorem archive_warnings
    (File : list (zip.File Statistik)) (zipPath : string) (w : world) :
  let done := processZipFile (λ _, inr File) zipPath w in
  warnings (out done.2) = warnings (out w) ++ (File ≫= member_warnings).
Proof.
  intros done. subst done.
  rewrite (processZipFile_opened _ zipPath File w) by done.
  destruct (zip_members_effect 0 w File) as (_ & _ & Hw).
  simpl. rewrite warnings_app, Hw. simpl. by rewrite app_nil_r.
Qed.

(** ** What a scan changes, ignores and prints *)

(** X6: a scan changes the registry only at the identifiers it reads, and
    removes nothing.  For every stream and every starting registry: an
    identifier that occurs in a decoded record of the stream is mapped to
    the description of its last occurrence, every other identifier keeps
    what it had, and every key of the starting registry is a key
    afterwards. *)
Theorem scan_frame (reader : xml.Decoder Statistik) (w : world) (id : string) :
  let after := plates (streamXML reader w).2 in
  let records := identified (xml.tokens reader) in
  after !! id = match last_description id records with
                | Some d => Some d
                | None => plates w !! id
                end ∧
  (id ∈ records.*1 ↔ is_Some (last_description id records)) ∧
  dom (plates w) ⊆ dom after.
Proof.
  intros after records. subst after.
  rewrite streamXML_plates. fold records.
  split; [apply registered_lookup|]. split.
  - split; [apply last_description_is_Some|].
    intros [d Hd]. apply last_description_Some in Hd.
    apply list_elem_of_fmap. by exists (id, d).
  - rewrite registered_dom. set_solver.
Qed.

Lemma registered_twice m records :
  registered (registered m records) records = registered m records.
Proof.
  apply map_eq. intros id. rewrite !registered_lookup.
  by destruct (last_description id records).
Qed.

(** X7: scans compose, and a second scan of the same stream changes
    nothing in the registry.  Scanning a stream and then another leaves the
    registry, and the sum of the two counts, that one scan of the two streams
    joined gives; scanning a stream again leaves the registry as the first
    scan left it, while it is counted again. *)
Theorem scans_compose (reader1 reader2 : xml.Decoder Statistik) (w : world) :
  let first := streamXML reader1 w in
  let second := streamXML reader2 first.2 in
  let joined := streamXML (xml.NewDecoder
                             (xml.tokens reader1 ++ xml.tokens reader2)
                             (xml.stop reader2)) w in
  plates second.2 = plates joined.2 ∧
  first.1.1 + second.1.1 = joined.1.1 ∧
  plates (streamXML reader1 first.2).2 = plates first.2 ∧
  (streamXML reader1 first.2).1.1 = first.1.1.
Proof.
  intros first second joined. subst first second joined.
  rewrite !streamXML_plates, !streamXML_count. simpl xml.tokens.
  rewrite identified_app, registered_app, length_app.
  split; [done|]. split; [lia|]. split; [apply registered_twice | done].
Qed.

Lemma scan_token_ignored s ev : starts_record ev = false → scan_token s ev = s.
Proof.
  intros Hev. apply scan_token_other.
  - destruct ev as [[sp name| | | | |] [stat|e]]; try done.
    unfold starts_record in Hev. simpl in *. by rewrite Hev.
  - destruct ev as [[sp name| | | | |] [stat|e]]; try done.
    unfold starts_record in Hev. simpl in *. by rewrite Hev.
Qed.

Lemma scan_filtered s tokens :
  foldl scan_token s (filter starts_record tokens) = foldl scan_token s tokens.
Proof.
  revert s. induction tokens as [|ev tokens IH]; intros s; [done|].
  rewrite scan_cons. destruct (starts_record ev) eqn:Hev.
  - rewrite filter_cons_True by (by apply Is_true_true).
    rewrite scan_cons. apply IH.
  - rewrite filter_cons_False by (by apply Is_true_false).
    rewrite scan_token_ignored by done. apply IH.
Qed.

(** X8: the scanner acts on start elements with the local name "Statistik"
    and on nothing else.  Every other token (end elements, text, comments,
    start elements of other names) can be taken out of a stream without any
    change to the count, the error, the registry or the console; and the
    namespace of a start element plays no part. *)
Theorem scan_ignores_other_tokens
    (tokens : list (xml.Token * (Statistik + error))) (stop : error) (w : world)
    (Space Space' Local : string) (decoded : Statistik + error) (s : Z * world) :
  streamXML (xml.NewDecoder (filter starts_record tokens) stop) w
    = streamXML (xml.NewDecoder tokens stop) w ∧
  scan_token s (xml.StartElement Space Local, decoded)
    = scan_token s (xml.StartElement Space' Local, decoded).
Proof.
  split; [|by destruct s].
  unfold streamXML. simpl. by rewrite scan_filtered.
Qed.

Lemma milestones_app out1 out2 :
  milestones (out1 ++ out2) = milestones out1 ++ milestones out2.
Proof. apply omap_app. Qed.

Lemma ten_thousands_step (first last : Z) :
  first < last →
  ten_thousands first last =
    (if Z.rem (first + 1) 10000 =? 0 then [first + 1] else [])
      ++ ten_thousands (first + 1) last.
Proof.
  intros Hlt. unfold ten_thousands. rewrite seqZ_cons by lia.
  replace (Z.succ (first + 1)) with (first + 1 + 1) by lia.
  replace (Z.pred (last - first)) with (last - (first + 1)) by lia.
  destruct (Z.rem (first + 1) 10000 =? 0) eqn:Hrem.
  - apply Z.eqb_eq in Hrem. by rewrite filter_cons_True.
  - apply Z.eqb_neq in Hrem. by rewrite filter_cons_False.
Qed.

Lemma scan_milestones c w tokens :
  milestones (out (foldl scan_token (c, w) tokens).2) =
    milestones (out w)
      ++ ten_thousands c (c + Z.of_nat (length (identified tokens))).
Proof.
  revert c w. induction tokens as [|ev tokens IH]; intros c w.
  { simpl. unfold ten_thousands. rewrite seqZ_nil by lia.
    by rewrite filter_nil, app_nil_r. }
  rewrite scan_cons, identified_cons.
  destruct (scan_token_cases c w ev)
    as [(stat & -> & Hid & ->)|[(stat & -> & Hid & ->)
       |[(e & _ & -> & ->)|(-> & _ & ->)]]]; rewrite IH; clear IH.
  - apply String.eqb_neq in Hid. rewrite Hid. simpl length.
    rewrite (ten_thousands_step c) by lia.
    replace (c + Z.of_nat (S (length (identified tokens))))
      with (c + 1 + Z.of_nat (length (identified tokens))) by lia.
    rewrite app_assoc. f_equal. unfold milestone.
    destruct (Z.rem (c + 1) 10000 =? 0); simpl.
    + by rewrite milestones_app.
    + by rewrite app_nil_r.
  - by rewrite Hid.
  - simpl. rewrite milestones_app. simpl. by rewrite app_nil_r.
  - done.
Qed.

(** X9: the progress lines of a scan.  For every stream, the "Processed"
    lines that [streamXML] prints are, in ascending order, one for each
    multiple of 10000 from 1 up to the count it returns, each stating that
    multiple; a stream with fewer than 10000 counted records prints none. *)
Theorem scan_progress_lines (reader : xml.Decoder Statistik) (w : world) :
  let scan := streamXML reader w in
  milestones (out scan.2) = milestones (out w) ++ ten_thousands 0 scan.1.1 ∧
  (∀ c, c ∈ ten_thousands 0 scan.1.1 ↔ 1 ≤ c ≤ scan.1.1 ∧ Z.rem c 10000 = 0) ∧
  (scan.1.1 < 10000 → milestones (out scan.2) = milestones (out w)).
Proof.
  intros scan. subst scan.
  rewrite streamXML_world, streamXML_count, scan_milestones. rewrite Z.add_0_l.
  assert (∀ last c, c ∈ ten_thousands 0 last ↔ 1 ≤ c ≤ last ∧ Z.rem c 10000 = 0)
    as Hin.
  { intros last c. unfold ten_thousands.
    rewrite list_elem_of_filter, elem_of_seqZ. split; intros ?; lia. }
  split; [done|]. split; [apply Hin|].
  intros Hfew.
  destruct (ten_thousands 0 (Z.of_nat (length (identified (xml.tokens reader)))))
    as [|c l] eqn:Hl; [by rewrite app_nil_r|].
  exfalso. assert (c ∈ c :: l) as Hc by left. rewrite <- Hl in Hc.
  apply Hin in Hc as [Hrange Hrem].
  apply Z.rem_divide in Hrem as [k ->]; lia.
Qed.

(** A stream of one record prints no progress line. *)
Lemma scan_progress_lines_witness :
  milestones (out (streamXML broken_stream initial).2) = [].
Proof.
  apply (scan_progress_lines broken_stream initial). by vm_compute.
Defined.

(** ** A run on a local file *)

Lemma scan_console c w tokens :
  ∃ printed,
    out (foldl scan_token (c, w) tokens).2 = out w ++ printed ∧
    Forall scan_line printed.
Proof.
  revert c w. induction tokens as [|ev tokens IH]; intros c w.
  { exists []. by rewrite app_nil_r. }
  rewrite scan_cons.
  destruct (scan_token_cases c w ev)
    as [(stat & _ & _ & ->)|[(stat & _ & _ & ->)
       |[(e & _ & _ & ->)|(_ & _ & ->)]]]; try apply IH.
  - destruct (IH (c + 1) (milestone (c + 1)
                 (store (RegistreringNummerNummer stat) (description stat) w)))
      as (printed & -> & Hprinted).
    unfold milestone. destruct (_ =? 0); simpl.
    + exists (Print_Processed (c + 1) :: printed).
      rewrite <- app_assoc. split; [done|]. by constructor.
    + by exists printed.
  - destruct (IH c (Printf (Log_DecodeWarning e) w)) as (printed & -> & Hprinted).
    exists (Log_DecodeWarning e :: printed). simpl.
    rewrite <- app_assoc. split; [done|]. by constructor.
Qed.

Lemma streamXML_console reader w :
  ∃ printed,
    out (streamXML reader w).2 = out w ++ printed ∧ Forall scan_line printed.
Proof. rewrite streamXML_world. apply scan_console. Qed.

(** X10: a markup file given with [-file].  For every path whose last four
    bytes are ".xml" in any case: if the file does not open, or if its token
    stream breaks, the run logs the wrapped error as fatal and exits with
    status 1 without printing a success line or a summary (a stream error,
    which is only a warning for a member of an archive, is fatal here); if
    the stream ends well, the run exits with status 0, the registry holds
    the records of the file, and the console ends with the success line,
    which states the number of counted records, followed by the summary of
    that registry. *)
Theorem run_on_markup_file
    (os_Open : string → error + xml.Decoder Statistik)
    (zip_OpenReader : string → error + list (zip.File Statistik))
    (unicode_ToLower : string → string)
    (downloadAndProcess : world → option error * world)
    (filePath suffix : string) :
  slice_from filePath (len filePath - 4) = Some suffix →
  ToLower suffix = ".xml" →
  let run := main os_Open zip_OpenReader unicode_ToLower downloadAndProcess
                  filePath in
  match os_Open filePath with
  | inl err =>
    run = (1, {| plates := ∅;
                 out := [Log_UsingLocalFile filePath;
                         Log_Fatal (Wrapf "Error processing local file"
                                      (Wrapf "failed to open XML file" err))] |})
  | inr file =>
    let records := identified (xml.tokens file) in
    plates run.2 = registered ∅ records ∧
    ∃ printed, Forall scan_line printed ∧
      if is_EOF (xml.stop file) then
        run.1 = 0 ∧
        out run.2 = Log_UsingLocalFile filePath :: printed
                      ++ [Print_Success (Z.of_nat (length records))]
                      ++ summary (registered ∅ records)
      else
        run.1 = 1 ∧
        out run.2 = Log_UsingLocalFile filePath :: printed
                      ++ [Log_Fatal (Wrapf "Error processing local file"
                                       (Wrapf "XML parse error" (xml.stop file)))]
  end.
Proof.
  intros Hslice Hext run. subst run. unfold main.
  pose proof (slice_from_nonempty _ _ Hslice) as Hne.
  apply String.eqb_neq in Hne. rewrite Hne. simpl negb. cbv iota.
  rewrite (processLocalFile_xml _ _ _ _ suffix) by done.
  destruct (os_Open filePath) as [err|file]; [done|].
  set (w := Printf (Log_UsingLocalFile filePath) _).
  destruct (streamXML_console file w) as (printed & Hout & Hprinted).
  pose proof (streamXML_plates file w) as Hplates.
  pose proof (streamXML_count file w) as Hcount.
  rewrite streamXML_error. cbv zeta.
  destruct (is_EOF (xml.stop file)).
  - rewrite displayResults_summary. cbn [fst snd plates out Printf].
    rewrite Hplates, Hout, Hcount. split; [done|].
    exists printed. split; [done|]. split; [done|].
    simpl. by rewrite <- !app_assoc.
  - cbn [fst snd plates out Printf]. rewrite Hplates, Hout. split; [done|].
    exists printed. split; [done|]. split; [done|]. done.
Qed.

(** A markup file that breaks after its first record. *)
Lemma run_on_markup_file_witness :
  let run := main (λ _, inr broken_stream) (λ _, inr []) (λ s, s)
                  (λ w, (None, w)) "plates.XML" in
  run.1 = 1 ∧ plates run.2 = {[ "AB12345" := "Toyota Corolla" ]} ∧
  last (out run.2)
    = Some (Log_Fatal (Wrapf "Error processing local file"
                         (Wrapf "XML parse error" (Errorf "unexpected EOF")))).
Proof.
  pose proof (run_on_markup_file (λ _, inr broken_stream) (λ _, inr [])
                (λ s, s) (λ w, (None, w)) "plates.XML" ".XML" eq_refl eq_refl)
    as Hrun.
  cbv beta iota zeta in Hrun.
  destruct Hrun as (Hplates & printed & _ & Hrest).
  change (is_EOF (xml.stop broken_stream)) with false in Hrest.
  destruct Hrest as [Hstatus Hout].
  split; [exact Hstatus|]. split; [rewrite Hplates; reflexivity|].
  rewrite Hout. rewrite app_comm_cons. by rewrite last_snoc.
Defined.





(** ** A transfer that stays within its declared size *)

Lemma notified_bound (counts : list Z) (size current last : Z) :
  0 < size → Forall (λ n, 0 ≤ n) counts →
  Forall (λ pc, pc ≤ ((current + total_count counts) * 100) `div` size)
         (notified size current last counts).
Proof.
  intros Hs. revert current last.
  induction counts as [|n counts IH]; intros current last Hcounts; [constructor|].
  apply Forall_cons in Hcounts as [Hn Hcounts].
  pose proof (total_count_nonneg counts Hcounts) as Hsum.
  rewrite total_count_cons, Z.add_assoc. simpl.
  replace (0 <? size) with true by (symmetry; apply Z.ltb_lt; lia).
  destruct (last <? _); [constructor|]; try by apply IH.
  apply percent_mono; lia.
Qed.

Lemma notified_last (counts : list Z) (size current shown : Z) :
  0 < size → Forall (λ n, 0 ≤ n) counts →
  (current * 100) `div` size ≤ shown →
  default shown (last (notified size current shown counts))
    = shown `max` (((current + total_count counts) * 100) `div` size).
Proof.
  intros Hs. revert current shown.
  induction counts as [|n counts IH]; intros current shown Hcounts Hinv.
  { change (total_count []) with 0. rewrite Z.add_0_r. simpl. lia. }
  apply Forall_cons in Hcounts as [Hn Hcounts].
  pose proof (total_count_nonneg counts Hcounts) as Hsum.
  pose proof (percent_mono size (current + n)
                (current + n + total_count counts) Hs ltac:(lia)) as Hmono.
  rewrite total_count_cons, Z.add_assoc. simpl.
  replace (0 <? size) with true by (symmetry; apply Z.ltb_lt; lia).
  destruct (shown <? ((current + n) * 100) `div` size) eqn:Hlt.
  - apply Z.ltb_lt in Hlt. rewrite last_cons.
    specialize (IH (current + n) (((current + n) * 100) `div` size)
                   Hcounts ltac:(lia)).
    destruct (last (notified _ _ _ counts)); simpl in *; lia.
  - apply Z.ltb_ge in Hlt. rewrite IH by (done || lia). done.
Qed.

(** X12: a transfer that stays within its declared size.  When the declared
    total is positive and one hundred times it is an [int64], the wrapped
    reader returns no negative count and the bytes read do not exceed the
    total, then every printed percentage lies between 1 and 100, the wrapper
    has counted exactly the bytes read, its last printed percentage is the
    floor of the share read, and a transfer that delivers the declared total
    ends with the line for 100 percent. *)
Theorem progress_within_size {R} `{Reader R}
    (resp : R) (size : Z) (ps : list (list Byte.byte)) :
  let counts := n <$> (reads resp ps).1 in
  let relayed := relay (NewProgressReader resp size) ps in
  0 < size → 100 * size ≤ max_int64 →
  Forall (λ n, 0 ≤ n) counts → total_count counts ≤ size →
  Forall (λ pc, 1 ≤ pc ≤ 100) (percentages relayed.2) ∧
  current relayed.1.2 = total_count counts ∧
  lastPrint relayed.1.2 = (total_count counts * 100) `div` size ∧
  (total_count counts = size → last (percentages relayed.2) = Some 100).
Proof.
  intros counts relayed Hsize Hrange Hcounts Hwithin. subst relayed.
  destruct (relay_accounted (NewProgressReader resp size) ps)
    as [Hprinted (_ & Hcurrent & Hlast)].
  simpl reader in *. fold counts in Hprinted, Hcurrent, Hlast.
  rewrite Hprinted, Hcurrent, Hlast.
  pose proof (total_count_nonneg counts Hcounts) as Hsum.
  destruct (accounted_notified counts (NewProgressReader resp size))
    as [Hspec Hbytes]; [done | done | |].
  { apply running_fits; [done | done | simpl; lia]. }
  destruct (accounted_rising counts (NewProgressReader resp size))
    as (Habove & _).
  pose proof (accounted_last counts (NewProgressReader resp size)) as Hremembered.
  pose proof (notified_bound counts size 0 0 Hsize Hcounts) as Hbound.
  pose proof (notified_last counts size 0 0 Hsize Hcounts) as Hfinal.
  rewrite Z.div_0_l in Hfinal by lia. specialize (Hfinal ltac:(lia)).
  simpl in Hspec, Hbytes, Habove, Hremembered. rewrite Z.add_0_l in *.
  rewrite <- Hspec in Hbound, Hfinal.
  assert (0 ≤ (total_count counts * 100) `div` size) as Hfloor
    by (apply Z.div_pos; lia).
  assert ((total_count counts * 100) `div` size ≤ 100) as Hcap
    by (apply Z.div_le_upper_bound; lia).
  split; [|split; [done|split]].
  - apply Forall_forall. intros pc Hpc.
    rewrite Forall_forall in Habove, Hbound.
    specialize (Habove pc Hpc). specialize (Hbound pc Hpc). lia.
  - rewrite Hremembered, Hfinal. lia.
  - intros Hall. rewrite Hall in Hfinal.
    replace (size * 100) with (100 * size) in Hfinal by lia.
    rewrite Z.div_mul in Hfinal by lia.
    destruct (last (percentages _)) as [pc|]; simpl in Hfinal; [|lia].
    f_equal. lia.
Qed.

(** A transfer of 1000 bytes in four reads. *)
Lemma progress_within_size_witness :
  let ps := [replicate 300 Byte.x00; replicate 300 Byte.x00;
             replicate 5 Byte.x00; replicate 395 Byte.x00] in
  last (percentages (relay (NewProgressReader Endless 1000) ps).2) = Some 100.
Proof.
  intros ps.
  apply (progress_within_size Endless 1000 ps); try by vm_compute.
  repeat constructor; by vm_compute.
Defined.

(** ** The archive loop of autoplate.go *)

Section AutoplateArchive.

Variable Now : Z → Z.

Lemma insert_warnings_app out1 out2 :
  insert_warnings (out1 ++ out2) = insert_warnings out1 ++ insert_warnings out2.
Proof. apply filter_app. Qed.

Local Ltac effect_done :=
  simpl; rewrite ?insert_warnings_app; simpl; rewrite ?app_nil_r;
  repeat split; (lia || done).

Lemma Autoplate_scan_token_effect c w ev :
  let s := Autoplate.scan_token Now (c, w) ev in
  s.1 = c + Z.of_nat (length (omap decoded_vehicle [ev])) ∧
  Autoplate.txn s.2 = inserted Now c (Autoplate.txn w) (omap decoded_vehicle [ev]) ∧
  insert_warnings (Autoplate.out s.2) = insert_warnings (Autoplate.out w).
Proof.
  unfold Autoplate.scan_token.
  destruct ev as [[sp name| | | | |] [vehicle|e]]; try effect_done.
  - simpl. destruct (String.eqb name "Vehicle"); [|effect_done].
    unfold Autoplate.memdb.Insert. simpl.
    destruct (String.eqb (Autoplate.Vehicle_LicensePlate vehicle) "") eqn:Hid;
      [effect_done|].
    simpl. destruct (Z.rem (c + 1) 1000 =? 0); effect_done.
  - simpl. destruct (String.eqb name "Vehicle"); effect_done.
Qed.

Lemma inserted_app c table plates1 plates2 :
  inserted Now c table (plates1 ++ plates2)
    = inserted Now (c + Z.of_nat (length plates1))
        (inserted Now c table plates1) plates2.
Proof.
  revert c table. induction plates1 as [|p plates1 IH]; intros c table.
  { simpl. by rewrite Z.add_0_r. }
  simpl. rewrite IH. f_equal. lia.
Qed.

Lemma Autoplate_scan_effect c w tokens :
  let s := foldl (Autoplate.scan_token Now) (c, w) tokens in
  s.1 = c + Z.of_nat (length (omap decoded_vehicle tokens)) ∧
  Autoplate.txn s.2
    = inserted Now c (Autoplate.txn w) (omap decoded_vehicle tokens) ∧
  insert_warnings (Autoplate.out s.2) = insert_warnings (Autoplate.out w).
Proof.
  revert c w. induction tokens as [|ev tokens IH]; intros c w.
  { simpl. repeat split; (lia || done). }
  rewrite foldl_step.
  destruct (Autoplate_scan_token_effect c w ev) as (Hc & Ht & Hw).
  destruct (Autoplate.scan_token Now (c, w) ev) as [c' w'].
  cbv zeta in *. cbn [fst snd] in Hc, Ht, Hw.
  destruct (IH c' w') as (IHc & IHt & IHw). cbv zeta in *.
  rewrite IHc, IHt, IHw, Hc, Ht, Hw.
  change (ev :: tokens) with ([ev] ++ tokens).
  rewrite omap_app, length_app, inserted_app.
  repeat split; (lia || done).
Qed.

Lemma Autoplate_zip_member_effect c w (zipFile : zip.File Autoplate.Vehicle) :
  let s := Autoplate.zip_member Now (c, w) zipFile in
  s.1 = c + Z.of_nat (length (member_vehicles zipFile)) ∧
  Autoplate.txn s.2 = inserted Now c (Autoplate.txn w) (member_vehicles zipFile) ∧
  insert_warnings (Autoplate.out s.2) = insert_warnings (Autoplate.out w).
Proof.
  unfold member_vehicles. destruct (no_directory zipFile) eqn:Hkept.
  - rewrite Autoplate_zip_member_processed by done. cbv zeta.
    destruct (zip.Open zipFile) as [err|decoder].
    + simpl. rewrite !insert_warnings_app. simpl. rewrite !app_nil_r.
      repeat split; (lia || done).
    + destruct (Autoplate_scan_effect c
                  (Autoplate.Printf (Print_Processing (zip.Name zipFile)
                                       (zip.UncompressedSize64 zipFile)) w)
                  (xml.tokens decoder)) as (Hc & Ht & Hw).
      cbv zeta in *. simpl Autoplate.txn in Ht. simpl Autoplate.out in Hw.
      rewrite insert_warnings_app in Hw. simpl in Hw. rewrite app_nil_r in Hw.
      destruct (is_EOF (xml.stop decoder)); simpl;
        rewrite ?insert_warnings_app; simpl; rewrite ?app_nil_r;
        by rewrite Hc, Ht, Hw.
  - rewrite Autoplate_zip_member_directory by done. simpl.
    repeat split; (lia || done).
Qed.

Lemma Autoplate_zip_members_effect c w (File : list (zip.File Autoplate.Vehicle)) :
  let s := foldl (Autoplate.zip_member Now) (c, w) File in
  s.1 = c + Z.of_nat (length (File ≫= member_vehicles)) ∧
  Autoplate.txn s.2
    = inserted Now c (Autoplate.txn w) (File ≫= member_vehicles) ∧
  insert_warnings (Autoplate.out s.2) = insert_warnings (Autoplate.out w).
Proof.
  revert c w. induction File as [|zipFile File IH]; intros c w.
  { simpl. repeat split; (lia || done). }
  rewrite foldl_step.
  destruct (Autoplate_zip_member_effect c w zipFile) as (Hc & Ht & Hw).
  destruct (Autoplate.zip_member Now (c, w) zipFile) as [c' w'].
  cbv zeta in *. cbn [fst snd] in Hc, Ht, Hw.
  destruct (IH c' w') as (IHc & IHt & IHw). cbv zeta in *.
  rewrite IHc, IHt, IHw, Hc, Ht, Hw.
  rewrite bind_cons, length_app, inserted_app.
  repeat split; (lia || done).
Qed.

Lemma inserted_lookup c table plates p :
  (p ∉ plates → inserted Now c table plates !! p = table !! p) ∧
  (p ∈ plates →
   ∃ t, inserted Now c table plates !! p
          = Some {| Autoplate.Plate := p; Autoplate.Timestamp := t |}).
Proof.
  revert c table. induction plates as [|q plates IH]; intros c table.
  { split; [done|]. intros Hin. by apply not_elem_of_nil in Hin. }
  simpl. destruct (IH (c + 1)
                      (<[q := {| Autoplate.Plate := q;
                                 Autoplate.Timestamp := Now c |}]> table))
    as [IHout IHin].
  split.
  - intros Hout. apply not_elem_of_cons in Hout as [Hne Hout].
    rewrite IHout by done. by rewrite lookup_insert_ne.
  - intros Hin. destruct (decide (p ∈ plates)) as [Hp|Hp]; [by apply IHin|].
    apply elem_of_cons in Hin as [->|Hin]; [|done].
    rewrite IHout by done. rewrite lookup_insert_eq. by eexists.
Qed.

Lemma inserted_dom c table plates :
  dom (inserted Now c table plates) = dom table ∪ list_to_set plates.
Proof.
  revert c table. induction plates as [|q plates IH]; intros c table.
  { simpl. set_solver. }
  simpl. rewrite IH, dom_insert_L. set_solver.
Qed.

Lemma inserted_indexed c table plates :
  indexed table → indexed (inserted Now c table plates).
Proof.
  revert c table. induction plates as [|q plates IH]; intros c table Hdb; [done|].
  simpl. apply IH. intros key obj.
  destruct (decide (q = key)) as [->|Hne].
  - rewrite lookup_insert_eq. by intros [= <-].
  - rewrite lookup_insert_ne by done. apply Hdb.
Qed.

End AutoplateArchive.

Lemma inserted_last (Now : Z → Z) c table plates (i : nat) p :
  plates !! i = Some p → p ∉ drop (S i) plates →
  inserted Now c table plates !! p
    = Some {| Autoplate.Plate := p; Autoplate.Timestamp := Now (c + Z.of_nat i) |}.
Proof.
  revert c table i. induction plates as [|q plates IH]; intros c table i Hi Hlast;
    [done|].
  destruct i as [|i]; simpl in *.
  - injection Hi as ->. rewrite drop_0 in Hlast.
    destruct (inserted_lookup Now (c + 1)
                (<[p := {| Autoplate.Plate := p;
                           Autoplate.Timestamp := Now c |}]> table) plates p)
      as [-> _]; [|done].
    by rewrite lookup_insert_eq, Z.add_0_r.
  - rewrite (IH (c + 1) _ i Hi Hlast). do 3 f_equal. lia.
Qed.

Lemma Autoplate_scan_token_console (Now : Z → Z) c w ev :
  ∃ printed,
    Autoplate.out (Autoplate.scan_token Now (c, w) ev).2
      = Autoplate.out w ++ printed.
Proof.
  unfold Autoplate.scan_token, Autoplate.memdb.Insert.
  destruct ev as [[sp name| | | | |] [vehicle|e]]; simpl;
    try (exists []; by rewrite app_nil_r);
    destruct (String.eqb name "Vehicle"); simpl;
    try (exists []; by rewrite app_nil_r); try by eexists.
  destruct (String.eqb (Autoplate.Vehicle_LicensePlate vehicle) ""); simpl;
    [exists []; by rewrite app_nil_r|].
  destruct (Z.rem (c + 1) 1000 =? 0); simpl;
    [by eexists|exists []; by rewrite app_nil_r].
Qed.

Lemma Autoplate_scan_console (Now : Z → Z) c w tokens :
  ∃ printed,
    Autoplate.out (foldl (Autoplate.scan_token Now) (c, w) tokens).2
      = Autoplate.out w ++ printed.
Proof.
  revert c w. induction tokens as [|ev tokens IH]; intros c w.
  { exists []. simpl. by rewrite app_nil_r. }
  rewrite foldl_step.
  destruct (Autoplate_scan_token_console Now c w ev) as (printed & Hprinted).
  destruct (Autoplate.scan_token Now (c, w) ev) as [c' w'].
  destruct (IH c' w') as (printed' & ->). simpl in Hprinted.
  exists (printed ++ printed'). by rewrite Hprinted, app_assoc.
Qed.

Lemma Autoplate_zip_member_console (Now : Z → Z) c w
    (zipFile : zip.File Autoplate.Vehicle) :
  ∃ printed,
    Autoplate.out (Autoplate.zip_member Now (c, w) zipFile).2
      = Autoplate.out w ++ printed.
Proof.
  unfold Autoplate.zip_member.
  destruct (zip.IsDir zipFile); [exists []; simpl; by rewrite app_nil_r|].
  destruct (zip.Open zipFile) as [err|decoder].
  { simpl. eexists. by rewrite <- app_assoc. }
  destruct (Autoplate_scan_console Now c
              (Autoplate.Printf (Print_Processing (zip.Name zipFile)
                                   (zip.UncompressedSize64 zipFile)) w)
              (xml.tokens decoder)) as (printed & Hprinted).
  destruct (foldl (Autoplate.scan_token Now) _ (xml.tokens decoder)) as [c' w'].
  simpl in Hprinted.
  destruct (is_EOF (xml.stop decoder)); simpl; rewrite Hprinted;
    eexists; by rewrite <- ?app_assoc.
Qed.

Lemma Autoplate_zip_members_console (Now : Z → Z) c w
    (File : list (zip.File Autoplate.Vehicle)) :
  ∃ printed,
    Autoplate.out (foldl (Autoplate.zip_member Now) (c, w) File).2
      = Autoplate.out w ++ printed.
Proof.
  revert c w. induction File as [|zipFile File IH]; intros c w.
  { exists []. simpl. by rewrite app_nil_r. }
  rewrite foldl_step.
  destruct (Autoplate_zip_member_console Now c w zipFile) as (printed & Hprinted).
  destruct (Autoplate.zip_member Now (c, w) zipFile) as [c' w'].
  destruct (IH c' w') as (printed' & ->). simpl in Hprinted.
  exists (printed ++ printed'). by rewrite Hprinted, app_assoc.
Qed.

Lemma Autoplate_processZipStream_effect (Now : Z → Z)
    (File : list (zip.File Autoplate.Vehicle))
    (db : gmap string Autoplate.LicensePlate) (console : list output) :
  let done := Autoplate.processZipStream Now (inr File) db console in
  done.1.1 = None ∧
  done.1.2 = inserted Now 0 db (File ≫= member_vehicles) ∧
  insert_warnings done.2 = insert_warnings console ∧
  ∃ printed,
    done.2 = console ++ printed
               ++ [Print_Success (Z.of_nat (length (File ≫= member_vehicles)))].
Proof.
  unfold Autoplate.processZipStream.
  pose proof (Autoplate_zip_members_effect Now 0
                {| Autoplate.txn := db; Autoplate.out := console |} File)
    as (Hc & Ht & Hw).
  pose proof (Autoplate_zip_members_console Now 0
                {| Autoplate.txn := db; Autoplate.out := console |} File)
    as (printed & Hprinted).
  destruct (foldl (Autoplate.zip_member Now)
              (0, {| Autoplate.txn := db; Autoplate.out := console |}) File)
    as [c w].
  cbv zeta in *. cbn [fst snd] in *. simpl Autoplate.txn in *.
  simpl Autoplate.out in *.
  split; [done|]. split; [done|]. split.
  { rewrite insert_warnings_app, Hw. simpl. by rewrite app_nil_r. }
  subst c. rewrite Z.add_0_l. exists printed.
  by rewrite Hprinted, <- app_assoc.
Qed.

(** X13: [processZipStream] of autoplate.go on an archive that could be
    read returns no error.  The committed table then holds a plate exactly
    when it held it before or a vehicle element of a member that is no
    directory decoded to it; the plates that no member brings keep their
    object; a plate that the members bring is stored with the time of its
    last insertion, the insertions being counted through all members.  The
    last line printed states the number of insertions, repeated plates and
    the members that end in a parse error included.  When the archive
    cannot be read the error is wrapped and neither the table nor the
    console changes. *)
Theorem Autoplate_archive_table (Now : Z → Z)
    (File : list (zip.File Autoplate.Vehicle))
    (db : gmap string Autoplate.LicensePlate) (console : list output)
    (err : error) :
  let plates := File ≫= member_vehicles in
  let done := Autoplate.processZipStream Now (inr File) db console in
  done.1.1 = None ∧
  dom done.1.2 = dom db ∪ list_to_set plates ∧
  (∀ p, p ∉ plates → done.1.2 !! p = db !! p) ∧
  (∀ (i : nat) p, plates !! i = Some p → p ∉ drop (S i) plates →
     done.1.2 !! p
       = Some {| Autoplate.Plate := p;
                 Autoplate.Timestamp := Now (Z.of_nat i) |}) ∧
  (∃ printed,
     done.2 = console ++ printed
                ++ [Print_Success (Z.of_nat (length plates))]) ∧
  Autoplate.processZipStream Now (inl err) db console
    = (Some (Wrapf "failed to create zip reader" err), db, console).
Proof.
  intros plates done.
  destruct (Autoplate_processZipStream_effect Now File db console)
    as (Herr & Htable & _ & Hprinted).
  fold done plates in Herr, Htable, Hprinted.
  split; [done|]. rewrite Htable.
  split; [apply inserted_dom|].
  split; [intros p Hp; by apply inserted_lookup|].
  split; [|done].
  intros i p Hi Hlast. by rewrite (inserted_last Now 0 db plates i p Hi Hlast).
Qed.

(** X14: [processZipStream] keeps the unique index of the table: when every
    object is stored under its own plate before the call, so it is after
    it.  No insertion is refused, whatever the archive holds: the warning
    for a failed insertion is never logged. *)
Theorem Autoplate_archive_index (Now : Z → Z)
    (zip_NewReader : error + list (zip.File Autoplate.Vehicle))
    (db : gmap string Autoplate.LicensePlate) (console : list output) :
  indexed db →
  let done := Autoplate.processZipStream Now zip_NewReader db console in
  indexed done.1.2 ∧ insert_warnings done.2 = insert_warnings console.
Proof.
  intros Hdb done. subst done. destruct zip_NewReader as [err|File]; [done|].
  destruct (Autoplate_processZipStream_effect Now File db console)
    as (_ & -> & Hwarnings & _).
  split; [by apply inserted_indexed|done].
Qed.

(** An archive of one member with two vehicles, read into the empty table. *)
Lemma Autoplate_archive_index_witness :
  let member :=
    {| zip.Name := "plates.xml"; zip.IsDir := false;
       zip.UncompressedSize64 := 80;
       zip.Open := inr (xml.NewDecoder
         [(xml.StartElement "" "Vehicle",
           inl {| Autoplate.Vehicle_LicensePlate := "AB12345" |});
          (xml.StartElement "" "Vehicle",
           inl {| Autoplate.Vehicle_LicensePlate := "" |});
          (xml.StartElement "" "Vehicle",
           inl {| Autoplate.Vehicle_LicensePlate := "CD67890" |})] EOF) |} in
  let done := Autoplate.processZipStream (λ c, 1000 + c) (inr [member]) ∅ [] in
  indexed (∅ : gmap string Autoplate.LicensePlate) ∧
  indexed done.1.2 ∧ insert_warnings done.2 = [].
Proof.
  intros member done.
  assert (indexed (∅ : gmap string Autoplate.LicensePlate)) as Hdb
    by (intros key obj Hobj; by rewrite lookup_empty in Hobj).
  split; [done|].
  apply (Autoplate_archive_index (λ c, 1000 + c) (inr [member]) ∅ [] Hdb).
Defined.

Lemma elem_of_keys (db : gmap string Autoplate.LicensePlate) (p : string) :
  p ∈ (map_to_list db).*1 ↔ p ∈ dom db.
Proof.
  rewrite elem_of_dom, list_elem_of_fmap. split.
  - intros ([key obj] & -> & Hin). apply elem_of_map_to_list in Hin. by eexists.
  - intros [obj Hobj]. exists (p, obj). by rewrite elem_of_map_to_list.
Qed.

Lemma Autoplate_displayResults_console
    (db : gmap string Autoplate.LicensePlate) (console : list output) :
  Autoplate.displayResults db console =
    console ++ [Print_Header (Z.of_nat (length (sorted_plates db)))]
      ++ imap (λ k p, Print_Plate (Z.of_nat k + 1) p) (take 10 (sorted_plates db))
      ++ (if 10 <=? Z.of_nat (length (sorted_plates db))
          then [Print_More (Z.of_nat (length (sorted_plates db)) - 10)] else []).
Proof.
  unfold Autoplate.displayResults. fold (sorted_plates db).
  rewrite print_plates_spec by lia. rewrite <- app_assoc.
  change (Z.to_nat (10 - 0)) with 10%nat. change (10 - 0) with 10.
  do 2 f_equal.
Qed.

(** X15: [processZipStream] on the table that [setupMemDB] makes, followed
    by [displayResults], as [main] of autoplate.go calls them.  The summary
    is printed after the lines of the archive.  Its header states the
    number of distinct plates that the members brought, which is at most
    the number of insertions that the line before it states; the rows show
    the first ten of these plates in strictly ascending byte-wise order. *)
Theorem Autoplate_archive_then_summary (Now : Z → Z)
    (File : list (zip.File Autoplate.Vehicle)) (console : list output) :
  let plates := File ≫= member_vehicles in
  let done := Autoplate.processZipStream Now (inr File) ∅ console in
  let shown := sorted_plates done.1.2 in
  StronglySorted string_lt shown ∧
  (∀ p, p ∈ shown ↔ p ∈ plates) ∧
  (length shown ≤ length plates)%nat ∧
  last done.2 = Some (Print_Success (Z.of_nat (length plates))) ∧
  Autoplate.displayResults done.1.2 done.2 =
    done.2 ++ [Print_Header (Z.of_nat (length shown))]
      ++ imap (λ k p, Print_Plate (Z.of_nat k + 1) p) (take 10 shown)
      ++ (if 10 <=? Z.of_nat (length shown)
          then [Print_More (Z.of_nat (length shown) - 10)] else []).
Proof.
  intros plates done shown.
  destruct (Autoplate_processZipStream_effect Now File ∅ console)
    as (_ & Htable & _ & printed & Hprinted).
  fold done plates in Htable, Hprinted.
  assert (indexed done.1.2) as Hdb.
  { rewrite Htable. apply inserted_indexed.
    intros key obj Hobj. by rewrite lookup_empty in Hobj. }
  destruct (sorted_plates_strict done.1.2 Hdb) as [Hsorted Hperm].
  fold shown in Hsorted, Hperm.
  assert (∀ p, p ∈ shown ↔ p ∈ plates) as Hshown.
  { intros p. rewrite Hperm, elem_of_keys, Htable, inserted_dom, dom_empty_L.
    rewrite elem_of_union, elem_of_list_to_set. set_solver. }
  split; [done|]. split; [done|]. split.
  { apply submseteq_length, NoDup_submseteq.
    - rewrite Hperm. apply NoDup_fst_map_to_list.
    - intros p. by rewrite Hshown. }
  split.
  { rewrite Hprinted, !app_assoc. apply last_snoc. }
  apply Autoplate_displayResults_console.
Qed.

(** ** The network branch of the two programs *)

Section NetworkRuns.

Context {R : Type} `{Reader R}.
Variable env : Environment R.

Lemma track_console held (l : list output) :
  foldl (track env) held (Console <$> l) = held.
Proof.
  revert held. induction l as [|o l IH]; intros held; [done|]. simpl. apply IH.
Qed.

Lemma requested_console (l : list output) : requested (Console <$> l) = [].
Proof. induction l as [|o l IH]; [done|]. exact IH. Qed.

Lemma requested_app t1 t2 : requested (t1 ++ t2) = requested t1 ++ requested t2.
Proof. apply omap_app. Qed.

Lemma console_lines_console (l : list output) :
  console_lines (Console <$> l) = l.
Proof. induction l as [|o l IH]; [done|]. simpl. by rewrite <- IH at 2. Qed.

Lemma console_lines_app t1 t2 :
  console_lines (t1 ++ t2) = console_lines t1 ++ console_lines t2.
Proof. apply omap_app. Qed.

Lemma releases_console (l : list output) : filter releases (Console <$> l) = [].
Proof.
  induction l as [|o l IH]; [done|]. rewrite fmap_cons.
  by rewrite filter_cons_False by (by apply Is_true_false).
Qed.

Lemma filter_releases_app t1 t2 :
  filter releases (t1 ++ t2) = filter releases t1 ++ filter releases t2.
Proof. apply filter_app. Qed.

Lemma locate_newest entries newest :
  locate entries = inr newest →
  newest_first_seen is_zip_file entries (Some newest).
Proof.
  unfold locate. intros Hnewest.
  pose proof (pick_newest_first_seen is_zip_file entries) as Hpick.
  rewrite <- newestZip_pick in Hpick.
  destruct (newestZip entries) as [entry|]; by simplify_eq.
Qed.

Lemma processZipFile_result zip_OpenReader zipPath w :
  match zip_OpenReader zipPath with
  | inl err =>
    processZipFile zip_OpenReader zipPath w
      = (Some (Wrapf "failed to open zip file" err), w)
  | inr File =>
    ∃ printed,
      processZipFile zip_OpenReader zipPath w
        = (None, {| plates := registered (plates w) (File ≫= member_records);
                    out := printed
                           ++ [Print_Success (sum_Z (member_count <$> File))] |})
  end.
Proof.
  destruct (zip_OpenReader zipPath) as [err|File] eqn:Hopen.
  { unfold processZipFile. by rewrite Hopen. }
  rewrite (processZipFile_opened _ zipPath File w) by done.
  destruct (zip_members_effect 0 w File) as (Hc & Hp & _).
  destruct (foldl zip_member (0, w) File) as [c [registry console]].
  simpl in *. subst. exists console. by rewrite Z.add_0_l.
Qed.

(** What the environment answered, as far as the goal asks for it. *)
Local Ltac answers :=
  repeat match goal with
         | Heq : ?x = _ |- context [?x] => rewrite Heq
         end.

(** X16: [downloadAndProcess] gives back what it takes, on every path,
    whatever the server and the operating system answer: at its return the
    connection is closed, the response of the transfer is closed, the
    temporary file is closed and it is removed from the disk.  When the
    connection was made, closing it is the last thing done; when it was not,
    nothing else is done. *)
Theorem download_releases_resources
    (zip_OpenReader : string → error + list (zip.File Statistik))
    (plates : gmap string string) :
  let done := downloadAndProcess env zip_OpenReader plates in
  foldl (track env) idle done.2 = idle ∧
  (if ftp_Dial env is None then last done.2 = Some Call_Quit
   else done.2 = [Call_Dial]).
Proof.
  intros done. subst done. unfold downloadAndProcess.
  repeat case_match; simplify_eq; cbn [fst snd];
    rewrite ?foldl_app, ?track_console; simpl; answers; simpl;
    rewrite ?String.eqb_refl; (split; [done|]);
    rewrite ?app_comm_cons, ?last_app; done.
Qed.

(** X17: [downloadAndProcess] asks the server for at most one file, and for
    no other than the newest archive of the listing: either no file is
    requested and an error is returned, or the listing was received and
    the one request names the entry that, among the files of the listing
    whose name ends with ".zip", carries the greatest time and is the first
    seen with it. *)
Theorem download_request
    (zip_OpenReader : string → error + list (zip.File Statistik))
    (plates : gmap string string) :
  let done := downloadAndProcess env zip_OpenReader plates in
  (requested done.2 = [] ∧ is_Some done.1.1) ∨
  (∃ entries newest,
     conn_List env = inr entries ∧
     newest_first_seen is_zip_file entries (Some newest) ∧
     requested done.2 = [ftp.Name newest]).
Proof.
  intros done. subst done. unfold downloadAndProcess.
  repeat case_match; simplify_eq; cbn [fst snd];
    rewrite ?requested_app, ?requested_console; simpl;
    try (left; by split);
    right; eexists _, _; (split; [done|]); (split; [by apply locate_newest|]);
    done.
Qed.

(** X18: [downloadAndProcess] changes the registry only when it succeeds.
    When it returns an error, at whatever stage, the registry is the one it
    was called with.  When it returns none, the transfer ended without
    error, the temporary file opened as an archive, the registry received
    the records of the members of that archive, and the last line of the
    console is the success line of [processZipFile] for it. *)
Theorem download_registry
    (zip_OpenReader : string → error + list (zip.File Statistik))
    (plates : gmap string string) :
  let done := downloadAndProcess env zip_OpenReader plates in
  match done.1.1 with
  | Some _ => done.1.2 = plates
  | None =>
    ∃ tempFile File written,
      os_CreateTemp env = inr tempFile ∧ io_Copy env = (written, None) ∧
      zip_OpenReader tempFile = inr File ∧
      done.1.2 = registered plates (File ≫= member_records) ∧
      last (console_lines done.2)
        = Some (Print_Success (sum_Z (member_count <$> File)))
  end.
Proof.
  intros done. subst done. unfold downloadAndProcess.
  repeat case_match; simplify_eq; cbn [fst snd] in *; simplify_eq; try done.
  - match goal with
    | Hdone : processZipFile _ ?path ?w = _ |- _ =>
      pose proof (processZipFile_result zip_OpenReader path w) as Hresult;
      destruct (zip_OpenReader path) as [err|File];
        [|destruct Hresult as [printed Hresult]];
        rewrite Hresult in Hdone; by simplify_eq
    end.
  - match goal with
    | Hdone : processZipFile _ ?path ?w = _ |- _ =>
      pose proof (processZipFile_result zip_OpenReader path w) as Hresult;
      destruct (zip_OpenReader path) as [err|File] eqn:Hopen;
        [|destruct Hresult as [printed Hresult]];
        rewrite Hresult in Hdone; simplify_eq
    end.
    eexists _, File, _. do 4 (split; [done|]).
    rewrite !console_lines_app, !console_lines_console. simpl.
    rewrite !app_nil_r, !app_assoc. apply last_snoc.
Qed.

Variable Now : Z → Z.
Variable zip_NewReader : Z → error + list (zip.File Autoplate.Vehicle).

(** X19: [main] of autoplate.go ends with status 0 or 1.  With status 0
    the deferred calls were made, the last deferred first: the temporary
    file was closed and removed, the response and the connection were
    closed, and nothing is held.  With status 1 the last thing done is the
    fatal line of the log and no resource was given back, because
    [log.Fatalf] ends the process before the deferred calls: unless the
    connection itself failed, something is still held at the exit. *)
Theorem Autoplate_main_exit :
  let done := Autoplate.main Now env zip_NewReader in
  let held := foldl (track env) idle done.2 in
  match done.1 with
  | 0 =>
    held = idle ∧
    ∃ tempFile,
      os_CreateTemp env = inr tempFile ∧
      filter releases done.2
        = [Call_tempFile_Close; Call_Remove tempFile; Call_resp_Close; Call_Quit]
  | 1 =>
    filter releases done.2 = [] ∧
    (∃ err, last done.2 = Some (Console (Log_Fatal err))) ∧
    (held = idle ↔ is_Some (ftp_Dial env))
  | _ => False
  end.
Proof.
  intros done held. subst held done. unfold Autoplate.main, Autoplate.Fatal.
  repeat case_match; simplify_eq; cbn [fst snd] in *; simplify_eq;
    rewrite ?foldl_app, ?track_console, ?filter_releases_app, ?releases_console;
    simpl; answers; simpl; rewrite ?String.eqb_refl;
    rewrite ?app_comm_cons, ?last_snoc.
  all: try (split; [done|]; eexists; split; reflexivity).
  all: split; [done|]; (split; [eexists; reflexivity|]).
  all: try (split; [intros _; by eexists|done]).
  all: split; [intros Hidle; discriminate Hidle
              |intros [? Hsome]; discriminate Hsome].
Qed.

(** X20: what [main] of autoplate.go leaves on the console.  With status 0
    the transfer ended without error, the temporary file was read as an
    archive of the size that the transfer reported, and the console ends
    with the success line, which states the number of insertions, followed
    by the summary of the table that these insertions make of the empty
    table.  With status 1 the last line is the fatal line of the log. *)
Theorem Autoplate_main_console :
  let done := Autoplate.main Now env zip_NewReader in
  match done.1 with
  | 0 =>
    ∃ written File printed,
      io_Copy env = (written, None) ∧ zip_NewReader written = inr File ∧
      console_lines done.2
        = printed
            ++ [Print_Success (Z.of_nat (length (File ≫= member_vehicles)))]
            ++ Autoplate.displayResults
                 (inserted Now 0 ∅ (File ≫= member_vehicles)) []
  | _ => ∃ err, last (console_lines done.2) = Some (Log_Fatal err)
  end.
Proof.
  intros done. subst done.
  unfold Autoplate.main, Autoplate.Fatal, Autoplate.setupMemDB.
  repeat case_match; simplify_eq; cbn [fst snd] in *; simplify_eq;
    rewrite ?console_lines_app, ?console_lines_console; simpl;
    rewrite ?app_nil_r, ?app_assoc, ?last_snoc; try (eexists; reflexivity).
  match goal with
  | Hdone : Autoplate.processZipStream _ (zip_NewReader ?written) _ _ = _ |- _ =>
    destruct (zip_NewReader written) as [err|File] eqn:Hopen;
      [simpl in Hdone; by simplify_eq|];
    destruct (Autoplate_processZipStream_effect Now File ∅ [])
      as (_ & Htable & _ & printed & Hprinted);
    rewrite Hdone in Htable, Hprinted; simpl in Htable, Hprinted;
    subst; exists written, File
  end.
  match goal with
  | |- ∃ _, _ ∧ _ ∧ (?progress ++ _) ++ _ = _ => exists (progress ++ printed)
  end.
  split; [done|]. split; [done|].
  by rewrite <- !app_assoc.
Qed.

End NetworkRuns.
